(** * ydaemon: forward APY of v3 vaults and the management-fee event history

    A shallow embedding of

    - [computeVaultV3ForwardAPY] (package [apr]): the oracle APR with its
      fallback, the debt-ratio-weighted APR of a multi-strategy vault, the
      choice of the net APR and the APR to APY conversion;
    - [filterUpdateManagementFee] and [HandleUpdateManagementFee] (package
      [events]): one goroutine per vault appending decoded logs to a shared
      [sync.Map] under the key [vaultAddress-blockNumber], and the reshape
      of that flat map into [vaultAddress -> blockNumber -> records].

    Numbers of [bigNumber.Float] are exact rationals ([Qc]); a [float64] is
    the rational it denotes or an infinity, and narrowing to it rounds to
    the nearest binary64 number; [*bigNumber.Int] is [option Z] where the
    code tests the pointer against [nil]; [uint64] is [N]; a Go [map] is a
    [gmap] together with the order in which a [range] statement happens to
    yield its entries. *)

From Stdlib Require Import QArith Qcanon Qround Qpower Lqa Ascii.
From Stdlib Require Import DecimalString DecimalN HexadecimalString HexadecimalN.
From stdpp Require Import base numbers list gmap strings.

(** ** Shared data model (package [models] and go-ethereum's [common]) *)

(** [common.Address] is a 20-byte identifier; it is kept as the number those
    bytes spell. [common.HexToAddress("")] is the address of twenty zero
    bytes. *)
Abbreviation Address := N (only parsing).

Definition zeroAddress : Address := 0%N.

(** Modelled from the spec: [models.TVault] is declared outside the files
    at hand. The spec's data model gives a vault its chain identifier,
    address, version string, kind, last known total assets (nullable), the
    metadata flag [ShouldUseV2APR] and its activation block. The kind is a
    string in the code, of which two values are tested; every other value is
    [VaultKindOther]. *)
Inductive TVaultKind := VaultKindMultiple | VaultKindSingle | VaultKindOther.

Global Instance TVaultKind_eq_dec : EqDecision TVaultKind.
Proof. solve_decision. Defined.

Record TVaultMetadata := { ShouldUseV2APR : bool }.

Global Instance TVaultMetadata_eq_dec : EqDecision TVaultMetadata.
Proof. solve_decision. Defined.

Record TVault := {
  ChainID : N;
  VaultAddress : Address;
  Version : string;
  Kind : TVaultKind;
  LastTotalAssets : option Z;
  Metadata : TVaultMetadata;
  Activation : N;
}.

Global Instance TVault_eq_dec : EqDecision TVault.
Proof. solve_decision. Defined.

(** Modelled from the spec: [models.TStrategy] is declared outside the
    files at hand. A strategy has an address, a nullable last debt ratio
    and a last performance fee, both on the scale 10000 = 100%. *)
Record TStrategy := {
  StrategyAddress : Address;
  LastDebtRatio : option Z;
  LastPerformanceFee : Z;
}.

(** The result of a contract call or of a constructor that can fail: Go's
    [(value, err)] pair, of which exactly one side is meaningful. *)
Inductive callResult (A : Type) : Type :=
| Ok (v : A)
| Err (e : string).
Arguments Ok {A} v.
Arguments Err {A} e.

(** * Package apr *)
Module APR.
Local Open Scope Qc_scope.

(** Modelled from the spec: [bigNumber.Float] and [helpers.ToNormalizedAmount]
    are outside the files at hand. The spec asks for arbitrary-precision
    decimal arithmetic, so a [bigNumber.Float] computed from integers is an
    exact rational and [ToNormalizedAmount x d] is [x / 10^d]. *)
Definition ToNormalizedAmount (amount : Z) (decimals : nat) : Qc :=
  Qc_of_Z amount / Qc_of_Z (10 ^ Z.of_nat decimals).

(** [bigNumber.NewFloat] at the decimal literal [n / 10^d], e.g. [0.9] as
    [NewFloat 9 1]. The literal is taken at its decimal value; its rounding
    to a binary [float64] is not modelled. *)
Definition NewFloat (n : Z) (d : nat) : Qc :=
  Qc_of_Z n / Qc_of_Z (10 ^ Z.of_nat d).

(** ** [float64] *)

(** A Go [float64], finite or infinite. A finite one is kept as the rational
    it denotes; the sign of a zero is dropped; NaN, which no operation below
    yields, is left out. *)
Inductive float64 :=
| F64 (value : Qc)
| F64Inf (negative : bool).

(** For a positive [x], the exponent [e] with [2^e <= x < 2^(e+1)]. *)
Definition ilog2 (x : Q) : Z :=
  let d := (Z.log2 (Qnum x) - Z.log2 (Zpos (Qden x)))%Z in
  if Qle_bool (2 ^ d)%Q x then d else (d - 1)%Z.

(** The integer nearest to [x]; halfway between two integers, the even one. *)
Definition roundEven (x : Q) : Z :=
  let n := Qfloor x in
  match Qcompare (x - inject_Z n)%Q (1 # 2)%Q with
  | Lt => n
  | Gt => (n + 1)%Z
  | Eq => if Z.even n then n else (n + 1)%Z
  end.

(** The binary64 number nearest to a positive [x], its exponent not yet
    bounded above: 53 significant bits from [2^-1022] on, the multiples of
    [2^-1074] below; ties go to the even significand. *)
Definition nearest (x : Q) : Q :=
  let e := (Z.max (ilog2 x) (-1022) - 52)%Z in
  (inject_Z (roundEven (x / 2 ^ e)) * 2 ^ e)%Q.

(** [nearest] of the magnitude [x] with its sign; what reaches [2^1024]
    overflows to the infinity of that sign. *)
Definition narrow (negative : bool) (x : Q) : float64 :=
  let y := nearest x in
  if Qle_bool (2 ^ 1024)%Q y then F64Inf negative
  else F64 (Q2Qc (if negative then - y else y)%Q).

(** Modelled from the spec: [Float64] is a method of [bigNumber.Float], which
    is outside the files at hand. The spec has the source narrow to floating
    precision at this step: the result is the [float64] nearest to [x], as
    [big.Float.Float64] gives it (ties to even, gradual underflow, overflow
    to an infinity). The accuracy it returns as well is dropped by the
    caller. *)
Definition Float64 (x : Qc) : float64 :=
  match x ?= 0 with
  | Eq => F64 0
  | Gt => narrow false x
  | Lt => narrow true (- x)
  end.

(** Modelled from the spec: [convertFloatAPRToAPY] is defined in a file of
    package [apr] that is not at hand. The spec gives
    [APY = (1 + APR/periods)^periods - 1], computed in floating precision:
    the result is the [float64] nearest to the value of the formula at the
    [float64] it is given. At an infinite APR the formula is read in the
    extended reals. *)
Definition convertFloatAPRToAPY (apr : float64) (periodsPerYear : nat) : float64 :=
  match apr with
  | F64 apr =>
    Float64 ((1 + apr / Qc_of_Z (Z.of_nat periodsPerYear)) ^ periodsPerYear - 1)
  | F64Inf negative =>
    match periodsPerYear with
    | O => F64 0
    | S _ => F64Inf (negative && Nat.odd periodsPerYear)
    end
  end.

(** A [bigNumber.Float] that was set from a [float64]: it holds a rational
    or, unlike the numbers computed from integers, an infinity. *)
Inductive Float :=
| Rational (value : Qc)
| Infinity (negative : bool).

(** Modelled from the spec: [SetFloat64] is a method of [bigNumber.Float].
    As [big.Float.SetFloat64] it keeps the value of the [float64] exactly;
    it panics on NaN only, which is no [float64] here. *)
Definition SetFloat64 (x : float64) : Float :=
  match x with
  | F64 value => Rational value
  | F64Inf negative => Infinity negative
  end.

(** Modelled from the spec: [TForwardAPY] and [TCompositeData] are declared
    in a file of package [apr] that is not at hand. The fields the function
    fills are pointers to [bigNumber.Float], [nil] in the zero value
    [TForwardAPY{}]. *)
Record TCompositeData := {
  V3OracleCurrentAPR : option Float;
  V3OracleStratRatioAPR : option Float;
}.

Record TForwardAPY := {
  Type_ : string;
  NetAPY : option Float;
  Composite : TCompositeData;
}.

(** The zero value [TForwardAPY{}]. *)
Definition emptyForwardAPY : TForwardAPY :=
  {| Type_ := ""; NetAPY := None;
     Composite := {| V3OracleCurrentAPR := None; V3OracleStratRatioAPR := None |} |}.

(** ** The outside world: chain configuration and the APR oracle *)

Record TChain := { APROracleContractAddress : Address }.

(** The two read-only calls of [contracts.YVaultsV3APROracleCaller]. *)
Record OracleCaller := {
  GetStrategyApr : Address → Z → callResult Z;
  GetCurrentApr : Address → callResult Z;
}.

(** [env.GetChain] and [contracts.NewYVaultsV3APROracleCaller]; the RPC
    client [ethereum.GetRPC(chainID)] is identified with its chain. *)
Record Env := {
  GetChain : N → option TChain;
  NewYVaultsV3APROracleCaller : Address → N → callResult OracleCaller;
}.

(** ** Effects: the calls made to the oracle and the errors logged *)

Inductive Effect :=
| CallGetStrategyApr (a : Address) (debtChange : Z)
| CallGetCurrentApr (a : Address)
| LogsError (e : string).

Global Instance Effect_eq_dec : EqDecision Effect.
Proof. solve_decision. Defined.

Definition isOracleCall (e : Effect) : bool :=
  match e with
  | CallGetStrategyApr _ _ | CallGetCurrentApr _ => true
  | LogsError _ => false
  end.

(** A computation returns its value together with the effects it performed,
    oldest first. *)
Definition M (A : Type) : Type := A * list Effect.

Definition ret {A} (a : A) : M A := (a, []).

Definition bind {A B} (m : M A) (k : A → M B) : M B :=
  let (b, t) := k m.1 in (b, m.2 ++ t).

Definition emit (e : Effect) : M unit := (tt, [e]).

Notation "'let*' x ':=' m 'in' k" := (bind m (λ x, k))
  (at level 10, x name, m at level 100, k at level 200).
Notation "m '>>' k" := (bind m (λ _, k))
  (at level 100, k at level 200, right associativity).

Definition callGetStrategyApr (oracle : OracleCaller) (a : Address) (i : Z)
  : M (callResult Z) :=
  emit (CallGetStrategyApr a i) >> ret (GetStrategyApr oracle a i).

Definition callGetCurrentApr (oracle : OracleCaller) (a : Address)
  : M (callResult Z) :=
  emit (CallGetCurrentApr a) >> ret (GetCurrentApr oracle a).

(** ** computeVaultV3ForwardAPY, lines 45-58: the oracle APR *)

Definition oracleAPRStage (oracle : OracleCaller) (vault : TVault) : M Qc :=
  let* r := callGetStrategyApr oracle (VaultAddress vault) 0 in
  let '(oracleAPR, hasError) :=
    match r with
    | Ok expected => (ToNormalizedAmount expected 18, false)
    | Err _ => (0, true)
    end in
  if hasError || bool_decide (oracleAPR = 0) then
    let* r := callGetCurrentApr oracle (VaultAddress vault) in
    match r with
    | Ok expected => ret (ToNormalizedAmount expected 18)
    | Err _ => ret oracleAPR
    end
  else ret oracleAPR.

(** ** Lines 72-95: the vault without assets *)

(** [1 - performanceFee / 10_000]. *)
Definition performanceFeeRatio (strategy : TStrategy) : Qc :=
  1 - Qc_of_Z (LastPerformanceFee strategy) / NewFloat 10000 0.

(** The [range] loop of lines 74-94 over the strategies in the order the
    map yields them: a failed call logs and moves on ([continue]), the first
    call that succeeds sets the result and ends the loop ([break]). *)
Fixpoint emptyVaultLoop (oracle : OracleCaller) (strategies : list TStrategy)
    (debtRatioAPR : Qc) : M Qc :=
  match strategies with
  | [] => ret debtRatioAPR
  | strategy :: rest =>
    let* r := callGetStrategyApr oracle (StrategyAddress strategy) 0 in
    match r with
    | Err e => emit (LogsError e) >> emptyVaultLoop oracle rest debtRatioAPR
    | Ok expected =>
      let humanizedAPR := ToNormalizedAmount expected 18 in
      let scaledStrategyAPR := humanizedAPR * performanceFeeRatio strategy in
      let debtRatioAPR := debtRatioAPR + scaledStrategyAPR in
      let debtRatioAPR := debtRatioAPR * NewFloat 9 1 in
      ret debtRatioAPR
    end
  end.

(** ** Lines 96-127: the vault with assets *)

Definition isNilOrZero (x : option Z) : bool :=
  match x with
  | None => true
  | Some v => bool_decide (v = 0%Z)
  end.

(** The [range] loop of lines 97-120. *)
Fixpoint debtRatioLoop (oracle : OracleCaller) (strategies : list TStrategy)
    (debtRatioAPR : Qc) : M Qc :=
  match strategies with
  | [] => ret debtRatioAPR
  | strategy :: rest =>
    match LastDebtRatio strategy with
    | None => debtRatioLoop oracle rest debtRatioAPR
    | Some lastDebtRatio =>
      if bool_decide (lastDebtRatio = 0%Z) then
        debtRatioLoop oracle rest debtRatioAPR
      else
        let* r := callGetStrategyApr oracle (StrategyAddress strategy) 0 in
        match r with
        | Err e => emit (LogsError e) >> debtRatioLoop oracle rest debtRatioAPR
        | Ok expected =>
          let humanizedAPR := ToNormalizedAmount expected 18 in
          let debtRatio := ToNormalizedAmount lastDebtRatio 4 in
          let scaledStrategyAPR := humanizedAPR * debtRatio in
          let scaledStrategyAPR := scaledStrategyAPR * performanceFeeRatio strategy in
          debtRatioLoop oracle rest (debtRatioAPR + scaledStrategyAPR)
        end
    end
  end.

(** Lines 64-128: the debt-ratio APR, [0] unless the vault is of kind
    [VaultKindMultiple]. [strategies] lists the values of
    [allStrategiesForVault] in the order [range] yields them. *)
Definition debtRatioAPRStage (oracle : OracleCaller) (vault : TVault)
    (strategies : list TStrategy) : M Qc :=
  let debtRatioAPR := NewFloat 0 0 in
  if bool_decide (Kind vault = VaultKindMultiple) then
    if isNilOrZero (LastTotalAssets vault) then
      if bool_decide (0 < length strategies)%nat then
        emptyVaultLoop oracle strategies debtRatioAPR
      else ret debtRatioAPR
    else
      let* debtRatioAPR := debtRatioLoop oracle strategies debtRatioAPR in
      ret (debtRatioAPR * NewFloat 9 1)
  else ret debtRatioAPR.

(** ** Lines 133-154: the net APR and the result *)

Definition buildForwardAPY (vault : TVault) (oracleAPR debtRatioAPR : Qc)
  : TForwardAPY :=
  let primaryAPR :=
    if ShouldUseV2APR (Metadata vault) then debtRatioAPR else oracleAPR in
  let primaryAPRFloat64 := Float64 primaryAPR in
  let primaryAPY := SetFloat64 (convertFloatAPRToAPY primaryAPRFloat64 52) in
  let oracleAPRFloat64 := Float64 oracleAPR in
  let oracleAPY := SetFloat64 (convertFloatAPRToAPY oracleAPRFloat64 52) in
  let debtRatioAPRFloat64 := Float64 debtRatioAPR in
  let debtRatioAPY := SetFloat64 (convertFloatAPRToAPY debtRatioAPRFloat64 52) in
  {| Type_ := "v3:onchainOracle";
     NetAPY := Some primaryAPY;
     Composite := {| V3OracleCurrentAPR := Some oracleAPY;
                     V3OracleStratRatioAPR := Some debtRatioAPY |} |}.

(** ** The whole function *)

Definition computeVaultV3ForwardAPY (env : Env) (vault : TVault)
    (strategies : list TStrategy) : M TForwardAPY :=
  match GetChain env (ChainID vault) with
  | None => ret emptyForwardAPY
  | Some chain =>
    let oracleContract := APROracleContractAddress chain in
    if bool_decide (oracleContract = zeroAddress) then ret emptyForwardAPY
    else
      match NewYVaultsV3APROracleCaller env oracleContract (ChainID vault) with
      | Err e => emit (LogsError e) >> ret emptyForwardAPY
      | Ok oracle =>
        let* oracleAPR := oracleAPRStage oracle vault in
        let* debtRatioAPR := debtRatioAPRStage oracle vault strategies in
        ret (buildForwardAPY vault oracleAPR debtRatioAPR)
      end
  end.

(** The orders in which [range] may yield the values of the map
    [allStrategiesForVault]: Go fixes none, so every arrangement of the
    map's entries is one. *)
Definition rangeOrder (allStrategiesForVault : gmap string TStrategy)
    (strategies : list TStrategy) : Prop :=
  strategies ≡ₚ (map_to_list allStrategiesForVault).*2.

(** The order of [float64]: the negative infinity is below and the positive
    infinity above every number. *)
Definition float64_le (x y : float64) : Prop :=
  match x, y with
  | F64Inf true, _ => True
  | _, F64Inf false => True
  | F64 x, F64 y => x ≤ y
  | _, _ => False
  end.

(** ** The spec's account of the debt-ratio APR

    These definitions follow the spec's words, not the code; the loop above
    is compared with them. *)

Definition Qcsum (l : list Qc) : Qc := foldr Qcplus 0 l.

(** A strategy qualifies when its debt ratio is neither null nor zero and
    the oracle answers the query for it. *)
Definition qualifies (oracle : OracleCaller) (s : TStrategy) : bool :=
  negb (isNilOrZero (LastDebtRatio s)) &&
  match GetStrategyApr oracle (StrategyAddress s) 0 with
  | Ok _ => true
  | Err _ => false
  end.

(** (normalised strategy APR) x (debtRatio / 10000) x (1 - performanceFee / 10000). *)
Definition weightedStrategyAPR (oracle : OracleCaller) (s : TStrategy) : Qc :=
  match GetStrategyApr oracle (StrategyAddress s) 0, LastDebtRatio s with
  | Ok apr, Some debtRatio =>
    (Qc_of_Z apr / Qc_of_Z (10 ^ 18)) *
    (Qc_of_Z debtRatio / Qc_of_Z 10000) *
    (1 - Qc_of_Z (LastPerformanceFee s) / Qc_of_Z 10000)
  | _, _ => 0
  end.

Definition specDebtRatioAPR (oracle : OracleCaller)
    (allStrategiesForVault : gmap string TStrategy) : Qc :=
  Qc_of_Z 9 / Qc_of_Z 10 *
  Qcsum (weightedStrategyAPR oracle <$>
         filter (λ s, qualifies oracle s = true) (map_to_list allStrategiesForVault).*2).

(** The oracle's query for a strategy fails. *)
Definition queryFails (oracle : OracleCaller) (s : TStrategy) : Prop :=
  ∃ e, GetStrategyApr oracle (StrategyAddress s) 0 = Err e.

(** The per-strategy queries for a list of strategies, in order. *)
Definition queriesFor (l : list TStrategy) : list Effect :=
  (λ s, CallGetStrategyApr (StrategyAddress s) 0) <$> l.

(** Two strategies that differ at most in their debt ratio. *)
Definition sameButDebtRatio (s s' : TStrategy) : Prop :=
  StrategyAddress s = StrategyAddress s' ∧
  LastPerformanceFee s = LastPerformanceFee s'.

(** ** Concrete vaults and oracles used in examples *)

Definition vaultOn (chainID : N) (kind : TVaultKind) (totalAssets : option Z)
    (useV2 : bool) : TVault :=
  {| ChainID := chainID; VaultAddress := 100; Version := "3.0.2"; Kind := kind;
     LastTotalAssets := totalAssets;
     Metadata := {| ShouldUseV2APR := useV2 |}; Activation := 0 |}.

(** The spec's scenario: debt ratios 6000 and 4000, performance fees 1000
    and 2000, strategy APRs 0.10 and 0.08 on the 18-decimal scale. *)
Definition strategyA : TStrategy :=
  {| StrategyAddress := 1; LastDebtRatio := Some 6000%Z; LastPerformanceFee := 1000 |}.
Definition strategyB : TStrategy :=
  {| StrategyAddress := 2; LastDebtRatio := Some 4000%Z; LastPerformanceFee := 2000 |}.

Definition scenarioStrategies : gmap string TStrategy :=
  <["0xA" := strategyA]> (<["0xB" := strategyB]> ∅).

Definition scenarioOracle : OracleCaller :=
  {| GetStrategyApr := λ a _,
       if (a =? 1)%N then Ok (10 ^ 17)%Z
       else if (a =? 2)%N then Ok (8 * 10 ^ 16)%Z
       else Err "execution reverted";
     GetCurrentApr := λ _, Err "execution reverted" |}.

(** An oracle that answers every call with the same APR. *)
Definition constantOracle (apr : Z) : OracleCaller :=
  {| GetStrategyApr := λ _ _, Ok apr; GetCurrentApr := λ _, Ok apr |}.

(** An oracle whose every call fails. *)
Definition failingOracle : OracleCaller :=
  {| GetStrategyApr := λ _ _, Err "execution reverted";
     GetCurrentApr := λ _, Err "execution reverted" |}.

(** Chain 1 is configured with an oracle at address 7, chain 10 is known but
    has no oracle, chain 250 has an oracle whose client cannot be built;
    every other chain is unknown. *)
Definition scenarioEnv : Env :=
  {| GetChain := λ chainID,
       if (chainID =? 1)%N then Some {| APROracleContractAddress := 7 |}
       else if (chainID =? 10)%N then Some {| APROracleContractAddress := zeroAddress |}
       else if (chainID =? 250)%N then Some {| APROracleContractAddress := 8 |}
       else None;
     NewYVaultsV3APROracleCaller := λ a _,
       if (a =? 7)%N then Ok scenarioOracle else Err "no contract code at given address" |}.

(** Every chain is configured with the given oracle at address 7. *)
Definition envOf (oracle : OracleCaller) : Env :=
  {| GetChain := λ _, Some {| APROracleContractAddress := 7 |};
     NewYVaultsV3APROracleCaller := λ _ _, Ok oracle |}.

End APR.

(** * Package events *)
Module Events.

(** ** Library functions the code calls *)

(** [strings.Split(s, sep)] for a separator of one character, as at the
    call site ([`-`]): the pieces between the separators, in order; a string
    without separator is its only piece. *)
Fixpoint Split (s : string) (sep : ascii) : list string :=
  match s with
  | EmptyString => [EmptyString]
  | String c rest =>
    if decide (c = sep) then EmptyString :: Split rest sep
    else
      match Split rest sep with
      | piece :: pieces => String c piece :: pieces
      | [] => [String c EmptyString]
      end
  end.

Fixpoint contains (c : ascii) (s : string) : bool :=
  match s with
  | EmptyString => false
  | String c' rest => bool_decide (c' = c) || contains c rest
  end.

Definition maxUint64 : N := 2 ^ 64 - 1.

(** [strconv.FormatUint(n, 10)]. *)
Definition FormatUint (n : N) : string :=
  DecimalString.NilEmpty.string_of_uint (N.to_uint n).

(** The value [strconv.ParseUint(s, 10, 64)] returns, its error dropped as
    the caller drops it: [0] with a syntax error (which includes the empty
    string), the largest [uint64] with a range error. *)
Definition ParseUint (s : string) : N :=
  match DecimalString.NilEmpty.uint_of_string s with
  | Some d => N.min (N.of_uint d) maxUint64
  | None => 0%N
  end.

(** go-ethereum's [common.Address.Hex] and [common.HexToAddress]: the
    checksummed hexadecimal text of an address and its reading. Their code
    is go-ethereum's; what the package relies on is stated in
    [AddressCodecLaws]. *)
Record AddressCodec := {
  Hex : Address → string;
  HexToAddress : string → Address;
}.

Record AddressCodecLaws (codec : AddressCodec) : Prop := {
  HexToAddress_Hex : ∀ a, HexToAddress codec (Hex codec a) = a;
  Hex_no_dash : ∀ a, contains "-" (Hex codec a) = false;
}.

(** ** Logs *)

(** The fields of [types.Log] the code reads. *)
Record Log := {
  LogBlockNumber : N;
  LogTxHash : N;
  LogTxIndex : N;
  LogIndex_ : N;
}.

(** [contracts.Yvault043UpdateManagementFee]. *)
Record UpdateManagementFee := {
  ManagementFee : Z;
  Raw : Log;
}.

(** What the iterator shows after a call of [Next] that returned true:
    the event and the value of [Error()]. *)
Record IteratorState := {
  Event : UpdateManagementFee;
  Error : option string;
}.

Record FilterOpts := {
  Start : N;
  End_ : option N;
}.

(** The chain as seen through [FilterUpdateManagementFee] of the vault
    contract at an address: an error, or the states its iterator goes
    through. The binding [contracts.NewYvault043], whose error the code
    ignores, is part of it. *)
Abbreviation ChainLogs :=
  (N → Address → FilterOpts → callResult (list IteratorState)) (only parsing).

(** [utils.TEventBlock]. *)
Record TEventBlock := {
  EventType : string;
  TxHash : N;
  BlockNumber : N;
  TxIndex : N;
  LogIndex : N;
  Value : Z;
}.

Global Instance TEventBlock_eq_dec : EqDecision TEventBlock.
Proof. solve_decision. Defined.

(** ** filterUpdateManagementFee: one goroutine *)

(** Line 48. *)
Definition eventKey (codec : AddressCodec) (vaultAddress : Address)
    (blockNumber : N) : string :=
  Hex codec vaultAddress +:+ "-" +:+ FormatUint blockNumber.

(** Lines 49-56. *)
Definition blockData (event : UpdateManagementFee) : TEventBlock :=
  {| EventType := "updateManagementFee";
     TxHash := LogTxHash (Raw event);
     BlockNumber := LogBlockNumber (Raw event);
     TxIndex := LogTxIndex (Raw event);
     LogIndex := LogIndex_ (Raw event);
     Value := ManagementFee event |}.

(** The goroutine between two of its accesses to the shared map: the vault
    it works for, the states its iterator goes through (none when the filter
    call failed), how many of them it has consumed, and, between
    [asyncFeeMap.Load] and [asyncFeeMap.Store], what [Load] returned. *)
Record Goroutine := {
  vaultAddress : Address;
  log : list IteratorState;
  position : nat;
  loaded : option (option (list TEventBlock));
}.

(** Lines 38-42: the start of the goroutine. *)
Definition filterUpdateManagementFee (chain : ChainLogs) (chainID : N)
    (vaultAddress : Address) (opts : FilterOpts) : Goroutine :=
  {| vaultAddress := vaultAddress;
     log := match chain chainID vaultAddress opts with
            | Ok log => log
            | Err _ => []
            end;
     position := 0;
     loaded := None |}.

(** Lines 43-64: one step of the goroutine against the shared map. Each
    access to the [sync.Map] is one step, so that steps of other goroutines
    can fall between [Load] and [Store]. [None] when the loop has ended. *)
Definition goroutineStep (codec : AddressCodec)
    (asyncFeeMap : gmap string (list TEventBlock)) (g : Goroutine)
  : option (gmap string (list TEventBlock) * Goroutine) :=
  match log g !! position g with
  | None => None
  | Some it =>
    let eventKey := eventKey codec (vaultAddress g) (LogBlockNumber (Raw (Event it))) in
    match loaded g with
    | None =>
      match Error it with
      | Some _ =>
        Some (asyncFeeMap,
              {| vaultAddress := vaultAddress g; log := log g;
                 position := S (position g); loaded := None |})
      | None =>
        Some (asyncFeeMap,
              {| vaultAddress := vaultAddress g; log := log g;
                 position := position g;
                 loaded := Some (asyncFeeMap !! eventKey) |})
      end
    | Some syncMap =>
      let currentBlockData :=
        match syncMap with
        | Some records => records ++ [blockData (Event it)]
        | None => [blockData (Event it)]
        end in
      Some (<[eventKey := currentBlockData]> asyncFeeMap,
            {| vaultAddress := vaultAddress g; log := log g;
               position := S (position g); loaded := None |})
    end
  end.

(** ** HandleUpdateManagementFee *)

Record State := {
  asyncManagementFeeUpdate : gmap string (list TEventBlock);
  goroutines : list Goroutine;
}.

(** Lines 96-99: the block range asked for a vault. *)
Definition filterOptsFor (start : N) (end_ : option N) (v : TVault) : FilterOpts :=
  if bool_decide (start = 0%N)
  then {| Start := Activation v; End_ := end_ |}
  else {| Start := start; End_ := end_ |}.

(** Lines 94-102: one goroutine per vault, in the order [range] yields the
    vaults. *)
Definition spawn (chain : ChainLogs) (chainID : N) (vaults : list TVault)
    (start : N) (end_ : option N) : State :=
  {| asyncManagementFeeUpdate := ∅;
     goroutines :=
       (λ v, filterUpdateManagementFee chain chainID (VaultAddress v)
               (filterOptsFor start end_ v))
       <$> vaults |}.

(** The scheduler lets goroutine [i] make its next step; nothing happens
    when there is no such goroutine or it has ended. *)
Definition schedule (codec : AddressCodec) (st : State) (i : nat) : State :=
  match goroutines st !! i with
  | None => st
  | Some g =>
    match goroutineStep codec (asyncManagementFeeUpdate st) g with
    | None => st
    | Some (asyncFeeMap, g') =>
      {| asyncManagementFeeUpdate := asyncFeeMap;
         goroutines := <[i := g']> (goroutines st) |}
    end
  end.

Definition runSchedule (codec : AddressCodec) (st : State)
    (interleaving : list nat) : State :=
  foldl (schedule codec) st interleaving.

(** [wg.Wait()] returns once every goroutine has ended. *)
Definition ended (g : Goroutine) : Prop := log g !! position g = None.

Definition allEnded (st : State) : Prop := Forall ended (goroutines st).

Abbreviation EventHistory := (gmap Address (gmap N (list TEventBlock))) (only parsing).

(** Lines 117-127: the callback of [Range] on one entry. Indexing the pieces
    of the key panics when there are fewer than two: [None]. *)
Definition reshapeEntry (codec : AddressCodec)
    (managementFeeForVaults : option EventHistory)
    (entry : string * list TEventBlock) : option EventHistory :=
  match managementFeeForVaults with
  | None => None
  | Some managementFeeForVaults =>
    match Split entry.1 "-" with
    | hexPart :: numberPart :: _ =>
      let vaultAddress := HexToAddress codec hexPart in
      let blockNumber := ParseUint numberPart in
      let forVault := default ∅ (managementFeeForVaults !! vaultAddress) in
      Some (<[vaultAddress := <[blockNumber := entry.2]> forVault]>
              managementFeeForVaults)
    | _ => None
    end
  end.

Definition reshape (codec : AddressCodec)
    (entries : list (string * list TEventBlock)) : option EventHistory :=
  foldl (reshapeEntry codec) (Some ∅) entries.

(** The results the function can return (or [None], a panic): the vaults
    are ranged over in some order, the goroutines interleave in some way
    until all have ended, and [Range] visits the entries of the shared map
    in some order. *)
Inductive HandleUpdateManagementFee (codec : AddressCodec) (chain : ChainLogs)
    (chainID : N) (vaults : gmap Address TVault) (start : N) (end_ : option N)
  : option EventHistory → Prop :=
| Handle_returns (vaultOrder : list TVault) (interleaving : list nat)
    (entries : list (string * list TEventBlock)) :
    vaultOrder ≡ₚ (map_to_list vaults).*2 →
    allEnded (runSchedule codec (spawn chain chainID vaultOrder start end_) interleaving) →
    entries ≡ₚ map_to_list
      (asyncManagementFeeUpdate
         (runSchedule codec (spawn chain chainID vaultOrder start end_) interleaving)) →
    HandleUpdateManagementFee codec chain chainID vaults start end_
      (reshape codec entries).

(** ** What the event history should hold

    These definitions follow the spec's words; the goroutines and the
    reshape are compared with them. *)

(** The records a vault's log yields for one block: the entries read
    without error whose block number it is, in the order of the log. *)
Definition recordsAt (log : list IteratorState) (blockNumber : N)
  : list TEventBlock :=
  (λ it, blockData (Event it)) <$>
  filter (λ it, Error it = None ∧ LogBlockNumber (Raw (Event it)) = blockNumber) log.

(** The log the chain returns for a vault; empty when the query fails. *)
Definition logOf (chain : ChainLogs) (chainID : N) (start : N) (end_ : option N)
    (v : TVault) : list IteratorState :=
  log (filterUpdateManagementFee chain chainID (VaultAddress v)
         (filterOptsFor start end_ v)).

(** The records of the history under (vaultAddress, blockNumber). *)
Definition recordsUnder (h : EventHistory) (vaultAddress : Address)
    (blockNumber : N) : option (list TEventBlock) :=
  h !! vaultAddress ≫= λ forVault, forVault !! blockNumber.

(** A list as the value of a map entry: an empty one is no entry. *)
Definition nonEmpty {A} (l : list A) : option (list A) :=
  match l with
  | [] => None
  | _ => Some l
  end.

(** [uint64] fields hold numbers below [2^64]. *)
Definition blockNumbersAreUint64 (chain : ChainLogs) : Prop :=
  ∀ chainID a opts log it,
    chain chainID a opts = Ok log → it ∈ log →
    (LogBlockNumber (Raw (Event it)) ≤ maxUint64)%N.

(** The map of vaults holds each vault under its own address. *)
Definition keyedByAddress (vaults : gmap Address TVault) : Prop :=
  ∀ a v, vaults !! a = Some v → VaultAddress v = a.

(** ** The invariant of the shared map while the goroutines run *)

Record GoroutineInv (codec : AddressCodec)
    (asyncFeeMap : gmap string (list TEventBlock)) (g : Goroutine) : Prop := {
  inv_stored : ∀ blockNumber,
    asyncFeeMap !! eventKey codec (vaultAddress g) blockNumber =
    nonEmpty (recordsAt (take (position g) (log g)) blockNumber);
  inv_loaded : ∀ syncMap,
    loaded g = Some syncMap →
    ∃ it, log g !! position g = Some it ∧ Error it = None ∧
          syncMap = asyncFeeMap !!
            eventKey codec (vaultAddress g) (LogBlockNumber (Raw (Event it)));
}.

Record StateInv (codec : AddressCodec) (st : State) : Prop := {
  inv_goroutines :
    Forall (GoroutineInv codec (asyncManagementFeeUpdate st)) (goroutines st);
  inv_keys : ∀ key,
    is_Some (asyncManagementFeeUpdate st !! key) →
    ∃ g blockNumber,
      g ∈ goroutines st ∧ key = eventKey codec (vaultAddress g) blockNumber;
  inv_distinct : NoDup (vaultAddress <$> goroutines st);
}.

(** The part of the invariant that needs no assumption on the vaults: the
    records under a key are there, and each carries the block number the
    key was made from. *)
Definition keyedBy (codec : AddressCodec) (key : string)
    (records : list TEventBlock) : Prop :=
  records ≠ [] ∧
  ∀ r, r ∈ records →
    (BlockNumber r ≤ maxUint64)%N ∧ ∃ a, key = eventKey codec a (BlockNumber r).

Record KeyInv (codec : AddressCodec) (st : State) : Prop := {
  key_stored : ∀ key records,
    asyncManagementFeeUpdate st !! key = Some records → keyedBy codec key records;
  key_loaded : ∀ g records,
    g ∈ goroutines st → loaded g = Some (Some records) →
    ∃ it, log g !! position g = Some it ∧
          keyedBy codec
            (eventKey codec (vaultAddress g) (LogBlockNumber (Raw (Event it))))
            records;
  key_uint64 : ∀ g it,
    g ∈ goroutines st → it ∈ log g →
    (LogBlockNumber (Raw (Event it)) ≤ maxUint64)%N;
}.

(** What no step of a goroutine changes. *)
Definition static (g : Goroutine) : Address * list IteratorState :=
  (vaultAddress g, log g).

(** The shared map once all goroutines have ended: under the key of a vault
    and a block it holds the records of that vault's log for that block,
    and it holds nothing else. *)
Definition storeSpec (codec : AddressCodec) (chain : ChainLogs) (chainID : N)
    (start : N) (end_ : option N) (vaults : gmap Address TVault)
    (asyncFeeMap : gmap string (list TEventBlock)) : Prop :=
  (∀ a v bn, vaults !! a = Some v →
     asyncFeeMap !! eventKey codec a bn =
     nonEmpty (recordsAt (logOf chain chainID start end_ v) bn)) ∧
  (∀ key, is_Some (asyncFeeMap !! key) →
     ∃ a bn, is_Some (vaults !! a) ∧ key = eventKey codec a bn).

(** The reshaped history against the entries of the shared map. *)
Definition historySpec (codec : AddressCodec) (h : EventHistory)
    (entries : list (string * list TEventBlock)) : Prop :=
  (∀ a bn l, recordsUnder h a bn = Some l ↔ (eventKey codec a bn, l) ∈ entries) ∧
  (∀ a forVault, h !! a = Some forVault → ∃ bn, is_Some (forVault !! bn)).

(** The event history of a set of vaults: under (vaultAddress, blockNumber)
    the records of that vault's log for that block when there are any, and
    no vault without a record. *)
Definition eventHistorySpec (chain : ChainLogs) (chainID : N) (start : N)
    (end_ : option N) (vaults : gmap Address TVault) (h : EventHistory) : Prop :=
  (∀ a bn l,
     recordsUnder h a bn = Some l ↔
     ∃ v, vaults !! a = Some v ∧
          nonEmpty (recordsAt (logOf chain chainID start end_ v) bn) = Some l) ∧
  (∀ a forVault, h !! a = Some forVault → ∃ bn, is_Some (forVault !! bn)).

(** The steps a goroutine has left: two for each unread iterator state, one
    less after a [Load]. *)
Definition remaining (g : Goroutine) : nat :=
  2 * (length (log g) - position g) -
  match loaded g with Some _ => 1 | None => 0 end.

(** ** Further notions used in the properties *)

(** The steps all goroutines together have left. *)
Definition totalRemaining (st : State) : nat :=
  sum_list (remaining <$> goroutines st).

(** The records held under a key, none when the key is absent. *)
Definition recordsAtKey (asyncFeeMap : gmap string (list TEventBlock))
    (key : string) : list TEventBlock :=
  default [] (asyncFeeMap !! key).

(** The states a call can be in: those an interleaving leads to from the
    start. *)
Definition reachable (codec : AddressCodec) (chain : ChainLogs) (chainID : N)
    (vaults : gmap Address TVault) (start : N) (end_ : option N) (st : State)
  : Prop :=
  ∃ vaultOrder interleaving,
    vaultOrder ≡ₚ (map_to_list vaults).*2 ∧
    st = runSchedule codec (spawn chain chainID vaultOrder start end_) interleaving.

(** ** A codec and a chain for examples *)

(** Lower-case hexadecimal text after [0x], without padding or checksum. *)
Definition lowerHex : AddressCodec :=
  {| Hex := λ a,
       "0x" +:+ HexadecimalString.NilEmpty.string_of_uint (N.to_hex_uint a);
     HexToAddress := λ s,
       match s with
       | String "0" (String "x" digits) =>
         match HexadecimalString.NilEmpty.uint_of_string digits with
         | Some d => N.of_hex_uint d
         | None => 0%N
         end
       | _ => 0%N
       end |}.

Definition feeEvent (blockNumber txIndex : N) (fee : Z) : IteratorState :=
  {| Event := {| ManagementFee := fee;
                 Raw := {| LogBlockNumber := blockNumber; LogTxHash := 1000 + txIndex;
                           LogTxIndex := txIndex; LogIndex_ := 0 |} |};
     Error := None |}.

(** On chain 1 the vault at address 161 changed its fee twice in block 12
    and once in block 15, the vault at 178 once in block 12; the query for
    any other vault fails. *)
Definition exampleChain : ChainLogs := λ chainID a _,
  if (chainID =? 1)%N && (a =? 161)%N then
    Ok [feeEvent 12 0 200; feeEvent 12 3 100; feeEvent 15 1 50]
  else if (chainID =? 1)%N && (a =? 178)%N then Ok [feeEvent 12 7 300]
  else Err "429 Too Many Requests".

Definition exampleVault (a : Address) : TVault :=
  {| ChainID := 1; VaultAddress := a; Version := "0.4.3"; Kind := VaultKindOther;
     LastTotalAssets := None; Metadata := {| ShouldUseV2APR := false |};
     Activation := 10 |}.

Definition exampleVaults : gmap Address TVault :=
  <[161%N := exampleVault 161]> (<[178%N := exampleVault 178]>
    (<[195%N := exampleVault 195]> ∅)).

End Events.

(** * Package apr, continued *)
Module APRVersion.

(** Lines 17-20. The first piece of the version is taken before the kinds
    are looked at; indexing the pieces panics when there is none: [None]. *)
Definition isV3Vault (vault : TVault) : option bool :=
  match Events.Split (Version vault) "." with
  | versionMajor :: _ =>
    Some (bool_decide (Kind vault = VaultKindMultiple) ||
          bool_decide (Kind vault = VaultKindSingle) ||
          bool_decide (versionMajor = "3") ||
          bool_decide (versionMajor = "~3"))
  | [] => None
  end.

End APRVersion.

Module APRSpec.
Import APR.
Local Open Scope Qc_scope.

(** The strategies the loop of lines 97-120 queries: those with a debt
    ratio that is neither null nor zero. *)
Definition hasDebt (s : TStrategy) : Prop := isNilOrZero (LastDebtRatio s) = false.

Global Instance hasDebt_dec s : Decision (hasDebt s).
Proof. unfold hasDebt. apply _. Defined.

(** The errors of the queries that fail, in order. *)
Definition queryErrors (oracle : OracleCaller) (l : list TStrategy) : list Effect :=
  omap (λ s, match GetStrategyApr oracle (StrategyAddress s) 0 with
             | Err e => Some (LogsError e)
             | Ok _ => None
             end) l.

(** The debt ratios of the strategies that contribute, summed. *)
Definition totalDebtRatio (oracle : OracleCaller) (l : list TStrategy) : Z :=
  foldr Z.add 0%Z
    ((λ s, default 0%Z (LastDebtRatio s)) <$>
     filter (λ s, qualifies oracle s = true) l).

End APRSpec.

(** * Package main: the Telegram notifications *)
Module Telegram.

(** ** What the package gets from outside *)

(** The value and error of [strconv.ParseInt(s, 10, 64)]: an optional sign,
    then decimal digits, at least one; [None] for a syntax error and for a
    number outside [int64]. *)
Definition ParseInt (s : string) : option Z :=
  let '(negative, digits) :=
    match s with
    | String "-" rest => (true, rest)
    | String "+" rest => (false, rest)
    | _ => (false, s)
    end in
  match digits with
  | EmptyString => None
  | _ =>
    match DecimalString.NilEmpty.uint_of_string digits with
    | None => None
    | Some d =>
      let n := Z.of_N (N.of_uint d) in
      let v := if negative then (- n)%Z else n in
      if bool_decide (- 2 ^ 63 ≤ v ≤ 2 ^ 63 - 1)%Z then Some v else None
    end
  end.

(** The fields of [tgbotapi.Update] and [tgbotapi.Message] the code reads.
    [From] is a pointer that Telegram leaves out for some messages;
    [IsCommand] and [Command] are the results of the methods of these
    names. *)
Record User := { UserName : string }.

Record Message := {
  From : option User;
  ChatID : Z;
  IsCommand : bool;
  Command : string;
}.

Record Update := { UpdateMessage : option Message }.

(** The Telegram API and the library functions whose code is elsewhere:
    the error of [tgbotapi.NewBotAPI] for a token and of [bot.Send] for a
    message ([None] when there is none), [strings.ToLower], and
    [helpers.Contains] of package [common/helpers]. *)
Record Outside := {
  NewBotAPI : string → option string;
  Send : string → Z → string → option string;
  ToLower : string → string;
  Contains : list string → string → bool;
}.

(** ** Effects *)

Inductive Effect :=
| LogsError (message : string)
| CallNewBotAPI (token : string)
| BotSend (token : string) (chatID : Z) (text : string)
| OsExit (code : Z).

Global Instance Effect_eq_dec : EqDecision Effect.
Proof. solve_decision. Defined.

Definition isSend (e : Effect) : bool :=
  match e with BotSend _ _ _ => true | _ => false end.

Definition isLog (e : Effect) : bool :=
  match e with LogsError _ => true | _ => false end.

(** ** triggerTgMessage, lines 15-41 *)

Definition triggerTgMessage (env : gmap string string) (outside : Outside)
    (message : string) : list Effect :=
  match env !! "TELEGRAM_BOT" with
  | None => [LogsError "TELEGRAM_BOT environment variable not set"]
  | Some telegramToken =>
    match env !! "TELEGRAM_CHAT" with
    | None => [LogsError "TELEGRAM_CHAT environment variable not set"]
    | Some telegramChatStr =>
      match ParseInt telegramChatStr with
      | None =>
        [LogsError "TELEGRAM_CHAT environment variable is not a valid chat ID"]
      | Some telegramChat =>
        CallNewBotAPI telegramToken ::
        match NewBotAPI outside telegramToken with
        | Some err => [LogsError ("Error initializing Telegram bot: " +:+ err)]
        | None =>
          BotSend telegramToken telegramChat message ::
          match Send outside telegramToken telegramChat message with
          | Some err => [LogsError ("Error sending message to Telegram: " +:+ err)]
          | None => []
          end
        end
      end
    end
  end.

(** ** listenToSignals, lines 48-96 *)

(** How the function stands after the updates received so far: still
    reading the channel, returned, the process ended by [os.Exit], or a
    panic on the nil [From]. *)
Inductive Outcome :=
| Listening
| Returned
| Exited (code : Z)
| Panicked.

Global Instance Outcome_eq_dec : EqDecision Outcome.
Proof. solve_decision. Defined.

(** Lines 68-95: the loop over the updates the channel has delivered. *)
Fixpoint handleUpdates (env : gmap string string) (outside : Outside)
    (token : string) (telegramWhitelistedUsersArray : list string)
    (updates : list Update) : Outcome * list Effect :=
  match updates with
  | [] => (Listening, [])
  | update :: rest =>
    let continue :=
      handleUpdates env outside token telegramWhitelistedUsersArray rest in
    match UpdateMessage update with
    | None => continue
    | Some message =>
      if negb (IsCommand message) then continue
      else
        match From message with
        | None => (Panicked, [])
        | Some from =>
          let lowercaseUserName := ToLower outside (UserName from) in
          if negb (Contains outside telegramWhitelistedUsersArray lowercaseUserName)
          then
            (continue.1,
             LogsError ("Unauthorized user: " +:+ UserName from) ::
             BotSend token (ChatID message) "You are not authorized to use this bot." ::
             continue.2)
          else if bool_decide (Command message = "help") then
            (continue.1,
             BotSend token (ChatID message) "I understand /restart." :: continue.2)
          else if bool_decide (Command message = "restart") then
            (Exited 1,
             triggerTgMessage env outside
               ("🔴 - " +:+ UserName from +:+ " asked for a restart") ++
             [OsExit 1])
          else
            (continue.1,
             BotSend token (ChatID message) "I don't know that command" :: continue.2)
        end
    end
  end.

Definition listenToSignals (env : gmap string string) (outside : Outside)
    (updates : list Update) : Outcome * list Effect :=
  match env !! "TELEGRAM_BOT" with
  | None => (Returned, [LogsError "TELEGRAM_BOT environment variable not set"])
  | Some telegramToken =>
    match env !! "TELEGRAM_WHITELIST" with
    | None =>
      (Returned, [LogsError "TELEGRAM_WHITELIST environment variable not set"])
    | Some telegramWhitelistedUsers =>
      let telegramWhitelistedUsersArray :=
        Events.Split telegramWhitelistedUsers "," in
      match NewBotAPI outside telegramToken with
      | Some err =>
        (Returned,
         [CallNewBotAPI telegramToken;
          LogsError ("Error initializing Telegram bot: " +:+ err)])
      | None =>
        let run :=
          handleUpdates env outside telegramToken telegramWhitelistedUsersArray
            updates in
        (run.1, CallNewBotAPI telegramToken :: run.2)
      end
    end
  end.

(** A command of a user the whitelist admits. *)
Definition admitted (outside : Outside) (whitelist : list string)
    (update : Update) (command : string) : Prop :=
  ∃ message from,
    UpdateMessage update = Some message ∧ IsCommand message = true ∧
    From message = Some from ∧ Command message = command ∧
    Contains outside whitelist (ToLower outside (UserName from)) = true.

(** ** An environment and an outside for examples *)

Definition exampleEnv : gmap string string :=
  <["TELEGRAM_BOT" := "123:abc"]> (<["TELEGRAM_CHAT" := "-1001234"]>
    (<["TELEGRAM_WHITELIST" := "alice,bob"]> ∅)).

(** Every call succeeds, no letter is changed by [ToLower], and [Contains]
    is membership. *)
Definition exampleOutside : Outside :=
  {| NewBotAPI := λ _, None;
     Send := λ _ _ _, None;
     ToLower := λ s, s;
     Contains := λ l s, bool_decide (s ∈ l) |}.

Definition commandFrom (user : string) (chat : Z) (command : string) : Update :=
  {| UpdateMessage :=
       Some {| From := Some {| UserName := user |}; ChatID := chat;
               IsCommand := true; Command := command |} |}.

End Telegram.

(** * Properties of package apr *)
Module APRProps.
Import APR.
Local Open Scope Qc_scope.

(** ** The effect monad *)

Lemma bind_fst {A B} (m : M A) (k : A → M B) : (bind m k).1 = (k m.1).1.
Proof. unfold bind. by destruct (k m.1). Qed.

Lemma bind_snd {A B} (m : M A) (k : A → M B) : (bind m k).2 = m.2 ++ (k m.1).2.
Proof. unfold bind. by destruct (k m.1). Qed.

Lemma bind_ret_l {A B} (a : A) (k : A → M B) : bind (ret a) k = k a.
Proof. unfold bind, ret. simpl. by destruct (k a). Qed.

Lemma bind_emit {B} (e : Effect) (k : unit → M B) :
  bind (emit e) k = ((k tt).1, e :: (k tt).2).
Proof. unfold bind, emit. simpl. by destruct (k tt). Qed.

Lemma bind_call_strategy {B} oracle a i (k : callResult Z → M B) :
  bind (callGetStrategyApr oracle a i) k =
  ((k (GetStrategyApr oracle a i)).1,
   CallGetStrategyApr a i :: (k (GetStrategyApr oracle a i)).2).
Proof.
  unfold callGetStrategyApr, bind, emit, ret. simpl. by destruct (k _).
Qed.

Lemma bind_call_current {B} oracle a (k : callResult Z → M B) :
  bind (callGetCurrentApr oracle a) k =
  ((k (GetCurrentApr oracle a)).1,
   CallGetCurrentApr a :: (k (GetCurrentApr oracle a)).2).
Proof.
  unfold callGetCurrentApr, bind, emit, ret. simpl. by destruct (k _).
Qed.

(** ** Arithmetic of the rationals used *)

Lemma Qc_of_Z_pos (z : Z) : (0 < z)%Z → 0 < Qc_of_Z z.
Proof. intros Hz. apply Z2Qc_inj_lt in Hz. by rewrite Z2Qc_inj_0 in Hz. Qed.

Lemma Qc_of_Z_ne_0 (z : Z) : z ≠ 0%Z → Qc_of_Z z ≠ 0.
Proof. intros Hz Heq. rewrite <-Z2Qc_inj_0 in Heq. by apply Z2Qc_inj in Heq. Qed.

Lemma ToNormalizedAmount_zero (x : Z) (d : nat) :
  ToNormalizedAmount x d = 0 ↔ x = 0%Z.
Proof.
  unfold ToNormalizedAmount.
  assert (Hp : 0 < Qc_of_Z (10 ^ Z.of_nat d)) by (apply Qc_of_Z_pos; lia).
  split.
  - intros Heq. destruct (decide (x = 0%Z)) as [|Hx]; [done|].
    exfalso. apply (Qc_of_Z_ne_0 x Hx).
    rewrite <-(Qcmult_div_r (Qc_of_Z x) (Qc_of_Z (10 ^ Z.of_nat d))), Heq.
    + ring.
    + intros H0. rewrite H0 in Hp. by apply Qclt_not_eq in Hp.
  - intros ->. rewrite Z2Qc_inj_0. unfold Qcdiv. ring.
Qed.

Lemma Qcpower_lt_compat (a b : Qc) (n : nat) :
  0 ≤ a → a < b → a ^ S n < b ^ S n.
Proof.
  intros Ha Hab.
  assert (Hb : 0 < b) by (by eapply Qcle_lt_trans).
  induction n as [|n IH].
  - simpl. by rewrite !Qcmult_1_r.
  - change (a ^ S (S n)) with (a * a ^ S n).
    change (b ^ S (S n)) with (b * b ^ S n).
    apply Qcle_lt_trans with (a * b ^ S n).
    + apply Qcmult_le_mono_nonneg_l; [done|]. by apply Qclt_le_weak.
    + apply Qcmult_lt_mono_pos_r; [|done].
      apply Qcle_lt_trans with (a ^ S n); [|done]. by apply Qcpower_pos.
Qed.

Lemma convertFloatAPRToAPY_52 (apr : Qc) :
  convertFloatAPRToAPY (F64 apr) 52 = Float64 ((1 + apr / Qc_of_Z 52) ^ 52 - 1).
Proof. reflexivity. Qed.

Lemma base_lt_compat (x y : Qc) :
  x < y → 1 + x / Qc_of_Z 52 < 1 + y / Qc_of_Z 52.
Proof.
  intros Hxy. apply Qcplus_lt_mono_l. unfold Qcdiv.
  apply Qcmult_lt_mono_pos_r; [|done].
  apply Qcinv_pos, Qc_of_Z_pos. lia.
Qed.

Lemma base_nonneg (x : Qc) : - Qc_of_Z 52 ≤ x → 0 ≤ 1 + x / Qc_of_Z 52.
Proof.
  intros Hx.
  assert (Hc : 0 < / Qc_of_Z 52) by (apply Qcinv_pos, Qc_of_Z_pos; lia).
  assert (H0 : 1 + - Qc_of_Z 52 / Qc_of_Z 52 = 0).
  { field. apply Qc_of_Z_ne_0. lia. }
  rewrite <-H0. apply Qcplus_le_mono_l. unfold Qcdiv.
  by apply Qcmult_le_mono_nonneg_r; [apply Qclt_le_weak|].
Qed.


Lemma compounding_strict_mono (x y : Qc) :
  - Qc_of_Z 52 ≤ x → x < y →
  (1 + x / Qc_of_Z 52) ^ 52 - 1 < (1 + y / Qc_of_Z 52) ^ 52 - 1.
Proof.
  intros Hx Hxy. apply Qcplus_lt_mono_r.
  apply Qcpower_lt_compat; [by apply base_nonneg | by apply base_lt_compat].
Qed.

(** ** Narrowing to [float64] *)

Section Rounding.
Local Open Scope Q_scope.

Lemma pow2_pos (k : Z) : 0 < 2 ^ k.
Proof. by apply Qpower_0_lt. Qed.

Lemma pow2_plus (a b : Z) : 2 ^ (a + b) == 2 ^ a * 2 ^ b.
Proof. by apply Qpower_plus. Qed.

Lemma pow2_le (a b : Z) : (a <= b)%Z -> 2 ^ a <= 2 ^ b.
Proof. intros H. by apply Qpower_le_compat_l. Qed.

Lemma pow2_inject (a : Z) : (0 <= a)%Z -> inject_Z (2 ^ a) == 2 ^ a.
Proof. intros H. by rewrite Zpower_Qpower. Qed.

Lemma pow2_succ (a : Z) : 2 ^ (a + 1) == 2 * 2 ^ a.
Proof. rewrite pow2_plus. change (2 ^ 1) with 2. ring. Qed.

Lemma ilog2_spec (x : Q) : 0 < x -> 2 ^ ilog2 x <= x /\ x < 2 ^ (ilog2 x + 1).
Proof.
  intros Hx. destruct x as [p q]. unfold ilog2. simpl Qnum. simpl Qden.
  assert (Hp : (0 < p)%Z) by (unfold Qlt in Hx; simpl in Hx; lia).
  set (a := Z.log2 p). set (b := Z.log2 (Z.pos q)).
  destruct (Z.log2_spec p Hp) as [Ha1 Ha2]. fold a in Ha1, Ha2.
  destruct (Z.log2_spec (Z.pos q)) as [Hb1 Hb2]; [lia|]. fold b in Hb1, Hb2.
  assert (Ha0 : (0 <= a)%Z) by apply Z.log2_nonneg.
  assert (Hb0 : (0 <= b)%Z) by apply Z.log2_nonneg.
  assert (HA := pow2_pos a). assert (HB := pow2_pos b).
  assert (Hx' : p # q == inject_Z p / inject_Z (Z.pos q)) by apply Qmake_Qdiv.
  assert (Hd : 2 ^ (a - b) == 2 ^ a / 2 ^ b).
  { unfold Z.sub. rewrite pow2_plus, Qpower_opp. reflexivity. }
  assert (HP1 : 2 ^ a <= inject_Z p).
  { rewrite <-pow2_inject by done. by rewrite <-Zle_Qle. }
  assert (HP2 : inject_Z p < 2 * 2 ^ a).
  { rewrite <-pow2_succ, <-pow2_inject by lia. by rewrite <-Zlt_Qlt. }
  assert (HQ1 : 2 ^ b <= inject_Z (Z.pos q)).
  { rewrite <-pow2_inject by done. by rewrite <-Zle_Qle. }
  assert (HQ2 : inject_Z (Z.pos q) < 2 * 2 ^ b).
  { rewrite <-pow2_succ, <-pow2_inject by lia. by rewrite <-Zlt_Qlt. }
  assert (Hq0 : 0 < inject_Z (Z.pos q)) by lra.
  assert (Hup : p # q < 2 * 2 ^ (a - b)).
  { rewrite Hx', Hd. apply Qlt_shift_div_r; [done|].
    assert (E : 2 * (2 ^ a / 2 ^ b) * inject_Z (Z.pos q) ==
                2 * 2 ^ a * inject_Z (Z.pos q) / 2 ^ b) by (field; lra).
    rewrite E. apply Qlt_shift_div_l; [done|]. nra. }
  assert (Hlow : 2 ^ (a - b) < 2 * (p # q)).
  { rewrite Hx', Hd. apply Qlt_shift_div_r; [done|].
    assert (E : 2 * (inject_Z p / inject_Z (Z.pos q)) * 2 ^ b ==
                2 * inject_Z p * 2 ^ b / inject_Z (Z.pos q)) by (field; lra).
    rewrite E. apply Qlt_shift_div_l; [done|]. nra. }
  destruct (Qle_bool (2 ^ (a - b)) (p # q)) eqn:Hle.
  - apply Qle_bool_iff in Hle. split; [done|]. by rewrite pow2_succ.
  - assert (Hlt : p # q < 2 ^ (a - b)).
    { apply Qnot_le_lt. intros H. apply Qle_bool_iff in H. congruence. }
    replace (a - b - 1 + 1)%Z with (a - b)%Z by lia. split; [|done].
    assert (H2 : 2 ^ (a - b) == 2 * 2 ^ (a - b - 1)).
    { rewrite <-pow2_succ. by replace (a - b - 1 + 1)%Z with (a - b)%Z by lia. }
    lra.
Qed.

Lemma ilog2_mono (x y : Q) : 0 < x -> x <= y -> (ilog2 x <= ilog2 y)%Z.
Proof.
  intros Hx Hxy.
  destruct (ilog2_spec x Hx) as [Hx1 _].
  destruct (ilog2_spec y) as [_ Hy2]; [lra|].
  destruct (Z_le_gt_dec (ilog2 x) (ilog2 y)) as [|Hgt]; [done|].
  assert (H := pow2_le (ilog2 y + 1) (ilog2 x)). lapply H; [|lia]. lra.
Qed.

Lemma roundEven_floor (x : Q) :
  (Qfloor x <= roundEven x <= Qfloor x + 1)%Z.
Proof.
  unfold roundEven.
  destruct (Qcompare _ _); [destruct (Z.even _)|..]; lia.
Qed.

Lemma roundEven_Z (z : Z) : roundEven (inject_Z z) = z.
Proof.
  unfold roundEven. rewrite Qfloor_Z.
  assert (H : Qcompare (inject_Z z - inject_Z z) (1 # 2) = Lt).
  { apply (proj1 (Qlt_alt _ _)). lra. }
  by rewrite H.
Qed.

Lemma roundEven_mono (x y : Q) : x <= y -> (roundEven x <= roundEven y)%Z.
Proof.
  intros Hxy. assert (Hf := Qfloor_resp_le x y Hxy).
  assert (Hx := roundEven_floor x). assert (Hy := roundEven_floor y).
  destruct (Z.eq_dec (Qfloor x) (Qfloor y)) as [Heq|]; [|lia].
  unfold roundEven in *. rewrite <-Heq in *.
  destruct (Qcompare (x - inject_Z (Qfloor x)) (1 # 2)) eqn:Hcx;
    destruct (Qcompare (y - inject_Z (Qfloor x)) (1 # 2)) eqn:Hcy;
    try destruct (Z.even (Qfloor x)); try lia;
    try apply (proj2 (Qeq_alt _ _)) in Hcx; try apply (proj2 (Qlt_alt _ _)) in Hcx;
    try apply (proj2 (Qgt_alt _ _)) in Hcx;
    try apply (proj2 (Qeq_alt _ _)) in Hcy; try apply (proj2 (Qlt_alt _ _)) in Hcy;
    try apply (proj2 (Qgt_alt _ _)) in Hcy;
    lra.
Qed.

Lemma nearest_mono (x y : Q) : 0 < x -> x <= y -> nearest x <= nearest y.
Proof.
  intros Hx Hxy. assert (Hy : 0 < y) by lra.
  assert (Hlog := ilog2_mono x y Hx Hxy). unfold nearest.
  set (ex := (Z.max (ilog2 x) (-1022) - 52)%Z).
  set (ey := (Z.max (ilog2 y) (-1022) - 52)%Z).
  assert (Hex := pow2_pos ex). assert (Hey := pow2_pos ey).
  destruct (Z.eq_dec ex ey) as [Heq|Hne].
  - rewrite <-Heq. apply Qmult_le_compat_r; [|lra].
    rewrite <-Zle_Qle. apply roundEven_mono.
    apply Qmult_le_compat_r; [done|]. apply Qlt_le_weak. by apply Qinv_lt_0_compat.
  - assert (Hlt : (ex + 53 <= ilog2 y)%Z) by lia.
    assert (Hey' : ey = (ilog2 y - 52)%Z) by lia.
    destruct (ilog2_spec x Hx) as [_ Hx2]. destruct (ilog2_spec y Hy) as [Hy1 _].
    apply Qle_trans with (2 ^ ilog2 y).
    + apply Qle_trans with (2 ^ 53 * 2 ^ ex).
      * apply Qmult_le_compat_r; [|lra].
        rewrite <-(pow2_inject 53) by done. rewrite <-Zle_Qle.
        rewrite <-(roundEven_Z (2 ^ 53)). apply roundEven_mono.
        rewrite pow2_inject by done. apply Qle_shift_div_r; [done|].
        rewrite <-pow2_plus.
        apply Qle_trans with (2 ^ (ilog2 x + 1)); [lra|]. apply pow2_le. lia.
      * rewrite <-pow2_plus. apply pow2_le. lia.
    + apply Qle_trans with (2 ^ 52 * 2 ^ ey).
      * rewrite <-pow2_plus. apply pow2_le. lia.
      * apply Qmult_le_compat_r; [|lra].
        rewrite <-(pow2_inject 52) by done. rewrite <-Zle_Qle.
        rewrite <-(roundEven_Z (2 ^ 52)) at 1. apply roundEven_mono.
        rewrite pow2_inject by done. apply Qle_shift_div_l; [done|].
        rewrite <-pow2_plus. replace (52 + ey)%Z with (ilog2 y) by lia. done.
Qed.

Lemma nearest_nonneg (x : Q) : 0 < x -> 0 <= nearest x.
Proof.
  intros Hx. unfold nearest.
  set (e := (Z.max (ilog2 x) (-1022) - 52)%Z). assert (He := pow2_pos e).
  apply Qmult_le_0_compat; [|lra].
  change 0 with (inject_Z 0). rewrite <-Zle_Qle.
  rewrite <-(roundEven_Z 0). apply roundEven_mono.
  apply Qle_shift_div_l; [done|]. change (inject_Z 0) with 0. lra.
Qed.

Lemma narrow_false_mono (x y : Q) :
  0 < x -> x <= y -> float64_le (narrow false x) (narrow false y).
Proof.
  intros Hx Hxy. assert (H := nearest_mono x y Hx Hxy). unfold narrow.
  destruct (Qle_bool (2 ^ 1024) (nearest y)) eqn:Hy.
  { by destruct (Qle_bool _ (nearest x)). }
  destruct (Qle_bool (2 ^ 1024) (nearest x)) eqn:Hx'.
  { apply Qle_bool_iff in Hx'.
    assert (Hy' : 2 ^ 1024 <= nearest y) by lra.
    apply Qle_bool_iff in Hy'. congruence. }
  unfold float64_le, Qcle. simpl. by rewrite !Qred_correct.
Qed.

Lemma narrow_true_mono (x y : Q) :
  0 < x -> x <= y -> float64_le (narrow true y) (narrow true x).
Proof.
  intros Hx Hxy. assert (H := nearest_mono x y Hx Hxy). unfold narrow.
  destruct (Qle_bool (2 ^ 1024) (nearest y)) eqn:Hy; [done|].
  destruct (Qle_bool (2 ^ 1024) (nearest x)) eqn:Hx'.
  { apply Qle_bool_iff in Hx'.
    assert (Hy' : 2 ^ 1024 <= nearest y) by lra.
    apply Qle_bool_iff in Hy'. congruence. }
  unfold float64_le, Qcle. simpl. rewrite !Qred_correct. lra.
Qed.

Lemma narrow_false_nonneg (x : Q) : 0 < x -> float64_le (F64 0) (narrow false x).
Proof.
  intros Hx. assert (H := nearest_nonneg x Hx). unfold narrow.
  destruct (Qle_bool _ _); [done|].
  unfold float64_le, Qcle. simpl. rewrite !Qred_correct. lra.
Qed.

Lemma narrow_true_nonpos (x : Q) : 0 < x -> float64_le (narrow true x) (F64 0).
Proof.
  intros Hx. assert (H := nearest_nonneg x Hx). unfold narrow.
  destruct (Qle_bool _ _); [done|].
  unfold float64_le, Qcle. simpl. rewrite !Qred_correct. lra.
Qed.

Lemma float64_le_trans (x y z : float64) :
  float64_le x y -> float64_le y z -> float64_le x z.
Proof.
  destruct x as [x|[]], y as [y|[]], z as [z|[]]; simpl; try done; apply Qcle_trans.
Qed.

Lemma float64_le_refl (x : float64) : float64_le x x.
Proof. destruct x as [x|[]]; simpl; try done; apply Qcle_refl. Qed.

Lemma Qc_opp_this (x : Qc) : this (- x)%Qc == - this x.
Proof. simpl. apply Qred_correct. Qed.

Lemma Qccompare_cases (x : Qc) :
  ((x ?= 0)%Qc = Eq /\ x = 0%Qc) \/
  ((x ?= 0)%Qc = Lt /\ this x < 0) \/
  ((x ?= 0)%Qc = Gt /\ 0 < this x).
Proof.
  destruct (x ?= 0)%Qc eqn:Hx.
  - left. split; [done|]. by apply Qceq_alt.
  - right. left. split; [done|]. by apply (proj2 (Qclt_alt _ _)) in Hx.
  - right. right. split; [done|]. by apply (proj2 (Qcgt_alt _ _)) in Hx.
Qed.

Lemma Float64_mono (x y : Qc) :
  (x <= y)%Qc -> float64_le (Float64 x) (Float64 y).
Proof.
  intros Hxy. unfold Float64.
  assert (Hxy' : this x <= this y) by done.
  assert (Hox := Qc_opp_this x). assert (Hoy := Qc_opp_this y).
  destruct (Qccompare_cases x) as [[-> ->]|[[-> Hx]|[-> Hx]]];
    destruct (Qccompare_cases y) as [[-> ->]|[[-> Hy]|[-> Hy]]];
    try change (this 0%Qc) with 0 in *.
  - apply float64_le_refl.
  - lra.
  - by apply narrow_false_nonneg.
  - apply narrow_true_nonpos. lra.
  - apply narrow_true_mono; lra.
  - apply float64_le_trans with (F64 0).
    + apply narrow_true_nonpos. lra.
    + by apply narrow_false_nonneg.
  - lra.
  - lra.
  - by apply narrow_false_mono.
Qed.
End Rounding.

Lemma Float64_positive_eq (x y : Qc) :
  0 < x → 0 < y → nearest x = nearest y → Float64 x = Float64 y.
Proof.
  intros Hx Hy Heq. unfold Float64.
  rewrite (proj1 (Qcgt_alt x 0) Hx), (proj1 (Qcgt_alt y 0) Hy).
  unfold narrow. by rewrite Heq.
Qed.

Lemma float64_le_Inf (x : float64) : float64_le x (F64Inf false).
Proof. by destruct x as [x|[]]. Qed.

Lemma Float64_minus_52 :
  float64_le (F64 (- Qc_of_Z 52)) (Float64 (- Qc_of_Z 52)).
Proof. by vm_compute. Qed.

(** The conversion after the narrowing never decreases above [-52]. *)
Lemma narrowed_conversion_mono (x y : Qc) :
  - Qc_of_Z 52 ≤ x → x ≤ y →
  float64_le (convertFloatAPRToAPY (Float64 x) 52)
             (convertFloatAPRToAPY (Float64 y) 52).
Proof.
  intros Hx Hxy.
  assert (Hlow := float64_le_trans _ _ _ Float64_minus_52 (Float64_mono _ _ Hx)).
  assert (Hmono := Float64_mono _ _ Hxy).
  destruct (Float64 x) as [a|[]]; [|destruct Hlow|].
  - destruct (Float64 y) as [b|[]]; [|destruct Hmono|apply float64_le_Inf].
    change (- Qc_of_Z 52 ≤ a) in Hlow. change (a ≤ b) in Hmono.
    rewrite !convertFloatAPRToAPY_52. apply Float64_mono.
    destruct (Qcle_lt_or_eq _ _ Hmono) as [Hlt| ->]; [|apply Qcle_refl].
    apply Qclt_le_weak. exact (compounding_strict_mono a b Hlow Hlt).
  - destruct (Float64 y) as [b|[]];
      [destruct Hmono|destruct Hmono|apply float64_le_Inf].
Qed.

Lemma NewFloat_10000 : NewFloat 10000 0 = Qc_of_Z 10000.
Proof. by apply Qc_is_canon. Qed.

Lemma NewFloat_0 : NewFloat 0 0 = 0.
Proof. by apply Qc_is_canon. Qed.

Lemma NewFloat_0_9 : NewFloat 9 1 = Qc_of_Z 9 / Qc_of_Z 10.
Proof. reflexivity. Qed.

Lemma performanceFeeRatio_eq s :
  performanceFeeRatio s = 1 - Qc_of_Z (LastPerformanceFee s) / Qc_of_Z 10000.
Proof. unfold performanceFeeRatio. by rewrite NewFloat_10000. Qed.

Lemma Qcsum_app l1 l2 : Qcsum (l1 ++ l2) = Qcsum l1 + Qcsum l2.
Proof.
  induction l1 as [|x l1 IH]; simpl; [by rewrite Qcplus_0_l|].
  rewrite IH. ring.
Qed.

Global Instance Qcsum_Permutation : Proper ((≡ₚ) ==> (=)) Qcsum.
Proof.
  induction 1 as [|x l1 l2 _ IH|x y l|l1 l2 l3 _ IH1 _ IH2]; simpl.
  - done.
  - by rewrite IH.
  - ring.
  - by rewrite IH1.
Qed.

(** ** The oracle APR *)

Lemma oracleAPRStage_ok_nonzero oracle vault expected :
  GetStrategyApr oracle (VaultAddress vault) 0 = Ok expected →
  expected ≠ 0%Z →
  oracleAPRStage oracle vault =
  (ToNormalizedAmount expected 18, [CallGetStrategyApr (VaultAddress vault) 0]).
Proof.
  intros Hcall Hne. unfold oracleAPRStage.
  rewrite bind_call_strategy, Hcall. simpl.
  rewrite bool_decide_eq_false_2; [done|].
  by rewrite ToNormalizedAmount_zero.
Qed.

Lemma oracleAPRStage_fallback oracle vault :
  (∃ e, GetStrategyApr oracle (VaultAddress vault) 0 = Err e) ∨
  GetStrategyApr oracle (VaultAddress vault) 0 = Ok 0%Z →
  oracleAPRStage oracle vault =
  (match GetCurrentApr oracle (VaultAddress vault) with
   | Ok expected => ToNormalizedAmount expected 18
   | Err _ => 0
   end,
   [CallGetStrategyApr (VaultAddress vault) 0; CallGetCurrentApr (VaultAddress vault)]).
Proof.
  intros Hfirst. unfold oracleAPRStage. rewrite bind_call_strategy.
  destruct Hfirst as [[e ->]| ->]; simpl.
  - rewrite bind_call_current. by destruct (GetCurrentApr _ _).
  - rewrite bind_call_current. destruct (GetCurrentApr _ _); simpl; [done|].
    f_equal. by apply ToNormalizedAmount_zero.
Qed.

(** C3. [GetCurrentApr] is called exactly when the first [GetStrategyApr]
    call fails or yields an APR that normalises to zero. A non-zero first
    answer is the oracle APR, normalised at 18 decimals, and is the only call
    made. When both calls fail the oracle APR is zero, and the stage still
    hands a number to its caller: no error leaves it. *)
Theorem oracle_fallback_ordering (oracle : OracleCaller) (vault : TVault) :
  let first := GetStrategyApr oracle (VaultAddress vault) 0 in
  let run := oracleAPRStage oracle vault in
  ((∃ a, CallGetCurrentApr a ∈ run.2) ↔
     (∃ e, first = Err e) ∨
     (∃ expected, first = Ok expected ∧ ToNormalizedAmount expected 18 = 0)) ∧
  (∀ expected, first = Ok expected → ToNormalizedAmount expected 18 ≠ 0 →
     run.1 = ToNormalizedAmount expected 18 ∧
     run.2 = [CallGetStrategyApr (VaultAddress vault) 0]) ∧
  (∀ e1 e2, first = Err e1 → GetCurrentApr oracle (VaultAddress vault) = Err e2 →
     run.1 = 0 ∧
     run.2 = [CallGetStrategyApr (VaultAddress vault) 0;
              CallGetCurrentApr (VaultAddress vault)]).
Proof.
  intros first run. subst first run. split; [split|split].
  - intros [a Ha].
    destruct (GetStrategyApr oracle (VaultAddress vault) 0) as [expected|e] eqn:Hc;
      [|by eauto].
    right. exists expected. split; [done|].
    destruct (decide (expected = 0%Z)) as [->|Hne];
      [by apply ToNormalizedAmount_zero|].
    rewrite (oracleAPRStage_ok_nonzero _ _ _ Hc Hne) in Ha. simpl in Ha.
    by apply list_elem_of_singleton in Ha.
  - intros Hfirst. exists (VaultAddress vault).
    rewrite oracleAPRStage_fallback.
    + simpl. right. left.
    + destruct Hfirst as [?|(expected & Hc & Hz)]; [by left|right].
      by apply ToNormalizedAmount_zero in Hz as ->.
  - intros expected Hc Hne.
    rewrite (oracleAPRStage_ok_nonzero _ _ expected); [done|done|].
    by rewrite <-ToNormalizedAmount_zero.
  - intros e1 e2 Hc1 Hc2. rewrite oracleAPRStage_fallback by eauto.
    by rewrite Hc2.
Qed.

(** ** The debt-ratio APR of a vault with assets *)

Lemma qualifies_true oracle s :
  qualifies oracle s = true ↔
  ∃ debtRatio expected,
    LastDebtRatio s = Some debtRatio ∧ debtRatio ≠ 0%Z ∧
    GetStrategyApr oracle (StrategyAddress s) 0 = Ok expected.
Proof.
  unfold qualifies, isNilOrZero.
  destruct (LastDebtRatio s) as [d|]; simpl.
  - case_bool_decide; simpl.
    + split; [done|]. intros (? & ? & [= <-] & ? & _). done.
    + destruct (GetStrategyApr _ _ _) as [x|e].
      * split; [|done]. intros _. by exists d, x.
      * split; [done|]. by intros (? & ? & _ & _ & ?).
  - split; [done|]. by intros (? & ? & ? & _).
Qed.

Lemma debtRatioLoop_fst oracle strategies debtRatioAPR :
  (debtRatioLoop oracle strategies debtRatioAPR).1 =
  debtRatioAPR +
  Qcsum (weightedStrategyAPR oracle <$>
         filter (λ s, qualifies oracle s = true) strategies).
Proof.
  revert debtRatioAPR.
  induction strategies as [|s rest IH]; intros acc; simpl.
  { unfold Qcsum. simpl. ring. }
  rewrite filter_cons.
  destruct (decide (qualifies oracle s = true)) as [Hq|Hq].
  - apply qualifies_true in Hq as (d & x & Hd & Hz & Hcall).
    rewrite Hd, bool_decide_eq_false_2, bind_call_strategy, Hcall by done.
    simpl. rewrite IH. unfold weightedStrategyAPR at 2. rewrite Hcall, Hd.
    rewrite performanceFeeRatio_eq. unfold ToNormalizedAmount.
    change (Z.of_nat 18) with 18%Z. change (Z.of_nat 4) with 4%Z.
    change (10 ^ 4)%Z with 10000%Z. by rewrite Qcplus_assoc.
  - destruct (LastDebtRatio s) as [d|] eqn:Hd; [|by apply IH].
    case_bool_decide as Hz; [by apply IH|].
    rewrite bind_call_strategy.
    destruct (GetStrategyApr oracle (StrategyAddress s) 0) as [x|e] eqn:Hcall.
    + exfalso. apply Hq, qualifies_true. eauto.
    + rewrite bind_emit. simpl. by apply IH.
Qed.

Lemma debtRatioAPRStage_with_assets oracle vault strategies :
  Kind vault = VaultKindMultiple →
  isNilOrZero (LastTotalAssets vault) = false →
  (debtRatioAPRStage oracle vault strategies).1 =
  Qc_of_Z 9 / Qc_of_Z 10 *
  Qcsum (weightedStrategyAPR oracle <$>
         filter (λ s, qualifies oracle s = true) strategies).
Proof.
  intros Hkind Hassets. unfold debtRatioAPRStage.
  rewrite bool_decide_eq_true_2, Hassets by done.
  rewrite bind_fst. simpl. rewrite debtRatioLoop_fst, NewFloat_0, NewFloat_0_9.
  ring.
Qed.

(** C1. For a vault of kind Multiple whose last total assets are known and
    not zero, the debt-ratio APR is 0.9 times the sum, over the strategies
    with a non-null, non-zero debt ratio whose oracle query succeeds, of
    (normalised APR) x (debtRatio / 10000) x (1 - performanceFee / 10000),
    in whatever order the map of strategies is ranged over. For debt ratios
    6000 and 4000, fees 1000 and 2000 and APRs 0.10 and 0.08 it is 0.07164. *)
Theorem debt_ratio_weighted_apr :
  (∀ (oracle : OracleCaller) (vault : TVault)
     (allStrategiesForVault : gmap string TStrategy)
     (strategies : list TStrategy) (totalAssets : Z),
     Kind vault = VaultKindMultiple →
     LastTotalAssets vault = Some totalAssets →
     totalAssets ≠ 0%Z →
     rangeOrder allStrategiesForVault strategies →
     (debtRatioAPRStage oracle vault strategies).1 =
     specDebtRatioAPR oracle allStrategiesForVault) ∧
  (∀ strategies, rangeOrder scenarioStrategies strategies →
     (debtRatioAPRStage scenarioOracle
        (vaultOn 1 VaultKindMultiple (Some 1000%Z) true) strategies).1 =
     Qc_of_Z 7164 / Qc_of_Z 100000).
Proof.
  assert (Hgen : ∀ oracle vault m strategies totalAssets,
    Kind vault = VaultKindMultiple →
    LastTotalAssets vault = Some totalAssets →
    totalAssets ≠ 0%Z →
    rangeOrder m strategies →
    (debtRatioAPRStage oracle vault strategies).1 = specDebtRatioAPR oracle m).
  { intros oracle vault m strategies totalAssets Hkind Hassets Hne Horder.
    rewrite debtRatioAPRStage_with_assets; [|done|].
    - unfold specDebtRatioAPR. unfold rangeOrder in Horder. by rewrite Horder.
    - rewrite Hassets. simpl. by rewrite bool_decide_eq_false_2. }
  split; [exact Hgen|].
  intros strategies Horder.
  rewrite (Hgen _ _ scenarioStrategies _ 1000%Z); [|done..].
  apply Qc_is_canon. by vm_compute.
Qed.

Lemma debt_ratio_weighted_apr_witness :
  (debtRatioAPRStage scenarioOracle
     (vaultOn 1 VaultKindMultiple (Some 1000%Z) true) [strategyB; strategyA]).1 =
  specDebtRatioAPR scenarioOracle scenarioStrategies.
Proof.
  apply (proj1 debt_ratio_weighted_apr scenarioOracle
           (vaultOn 1 VaultKindMultiple (Some 1000%Z) true)
           scenarioStrategies [strategyB; strategyA] 1000%Z).
  - reflexivity.
  - reflexivity.
  - lia.
  - unfold rangeOrder. vm_compute. apply perm_swap.
Defined.

(** ** The debt-ratio APR of a vault without assets *)

Lemma isNilOrZero_true (x : option Z) :
  isNilOrZero x = true ↔ x = None ∨ x = Some 0%Z.
Proof.
  destruct x as [v|]; simpl.
  - rewrite bool_decide_eq_true. split; [intros ->; by right|].
    by intros [?|[= ->]].
  - split; [by left|done].
Qed.

Lemma emptyVaultLoop_all_fail oracle strategies debtRatioAPR :
  Forall (queryFails oracle) strategies →
  (emptyVaultLoop oracle strategies debtRatioAPR).1 = debtRatioAPR ∧
  filter isOracleCall (emptyVaultLoop oracle strategies debtRatioAPR).2 =
  queriesFor strategies.
Proof.
  induction 1 as [|s rest [e He] _ [IH1 IH2]]; [done|].
  simpl. rewrite bind_call_strategy, He, bind_emit. simpl.
  rewrite IH1. split; [done|].
  rewrite filter_cons_True by done. rewrite filter_cons_False by (by intros ?).
  by rewrite IH2.
Qed.

Lemma emptyVaultLoop_first_success oracle failed s rest expected debtRatioAPR :
  Forall (queryFails oracle) failed →
  GetStrategyApr oracle (StrategyAddress s) 0 = Ok expected →
  (emptyVaultLoop oracle (failed ++ s :: rest) debtRatioAPR).1 =
  (debtRatioAPR + ToNormalizedAmount expected 18 * performanceFeeRatio s) *
  NewFloat 9 1 ∧
  filter isOracleCall (emptyVaultLoop oracle (failed ++ s :: rest) debtRatioAPR).2 =
  queriesFor (failed ++ [s]).
Proof.
  intros Hfailed Hcall.
  induction Hfailed as [|f failed [e He] _ [IH1 IH2]]; simpl.
  - by rewrite bind_call_strategy, Hcall.
  - rewrite bind_call_strategy, He, bind_emit. simpl.
    rewrite IH1. split; [done|].
    rewrite filter_cons_True by done. rewrite filter_cons_False by (by intros ?).
    by rewrite IH2.
Qed.

Lemma emptyVaultLoop_sameButDebtRatio oracle l l' debtRatioAPR :
  Forall2 sameButDebtRatio l l' →
  emptyVaultLoop oracle l debtRatioAPR = emptyVaultLoop oracle l' debtRatioAPR.
Proof.
  induction 1 as [|s s' l l' [Haddr Hfee] _ IH]; [done|].
  simpl. unfold performanceFeeRatio. by rewrite Haddr, Hfee, IH.
Qed.

Lemma debtRatioAPRStage_without_assets oracle vault strategies :
  Kind vault = VaultKindMultiple →
  isNilOrZero (LastTotalAssets vault) = true →
  debtRatioAPRStage oracle vault strategies = emptyVaultLoop oracle strategies 0.
Proof.
  intros Hkind Hassets. unfold debtRatioAPRStage.
  rewrite bool_decide_eq_true_2, Hassets, NewFloat_0 by done.
  case_bool_decide as Hlen; [done|].
  destruct strategies; [done|]. simpl in Hlen. lia.
Qed.

(** C2, as stated, fails: it promises that one strategy's APR is always
    used when the strategy set is not empty, but a strategy whose query
    fails is passed over, so when every query fails none is used and the
    debt-ratio APR stays zero. *)
Lemma empty_vault_no_strategy_answers :
  let vault := vaultOn 1 VaultKindMultiple None true in
  let strategies := [strategyA; strategyB] in
  let run := debtRatioAPRStage failingOracle vault strategies in
  Kind vault = VaultKindMultiple ∧
  LastTotalAssets vault = None ∧
  strategies ≠ [] ∧
  run.1 = 0 ∧
  ¬ ∃ s expected,
      s ∈ strategies ∧
      GetStrategyApr failingOracle (StrategyAddress s) 0 = Ok expected ∧
      run.1 = ToNormalizedAmount expected 18 * performanceFeeRatio s * NewFloat 9 1.
Proof.
  simpl. split_and!; [done..|]. by intros (s & expected & _ & ? & _).
Qed.

(** C2, amended. For a vault of kind Multiple whose last total assets are
    null or zero, at most one strategy's APR is used: that of the first
    strategy, in the order the map is ranged over, whose oracle query
    succeeds. The debt-ratio APR is its normalised APR times
    (1 - performanceFee / 10000) times 0.9; the strategies after it are not
    even queried, however many there are. When every query fails the
    debt-ratio APR is zero. *)
Theorem empty_vault_first_answering_strategy (oracle : OracleCaller)
    (vault : TVault) (strategies : list TStrategy) :
  Kind vault = VaultKindMultiple →
  LastTotalAssets vault = None ∨ LastTotalAssets vault = Some 0%Z →
  (∀ failed s rest expected,
     strategies = failed ++ s :: rest →
     Forall (queryFails oracle) failed →
     GetStrategyApr oracle (StrategyAddress s) 0 = Ok expected →
     (debtRatioAPRStage oracle vault strategies).1 =
       ToNormalizedAmount expected 18 *
       (1 - Qc_of_Z (LastPerformanceFee s) / Qc_of_Z 10000) *
       (Qc_of_Z 9 / Qc_of_Z 10) ∧
     filter isOracleCall (debtRatioAPRStage oracle vault strategies).2 =
       queriesFor (failed ++ [s])) ∧
  (Forall (queryFails oracle) strategies →
     (debtRatioAPRStage oracle vault strategies).1 = 0 ∧
     filter isOracleCall (debtRatioAPRStage oracle vault strategies).2 =
       queriesFor strategies).
Proof.
  intros Hkind Hassets%isNilOrZero_true.
  rewrite debtRatioAPRStage_without_assets by done. split.
  - intros failed s rest expected -> Hfailed Hcall.
    destruct (emptyVaultLoop_first_success oracle failed s rest expected 0
                Hfailed Hcall) as [-> ->].
    split; [|done].
    rewrite performanceFeeRatio_eq, NewFloat_0_9. ring.
  - intros Hall. by apply emptyVaultLoop_all_fail.
Qed.

Lemma empty_vault_first_answering_strategy_witness :
  (debtRatioAPRStage scenarioOracle (vaultOn 1 VaultKindMultiple (Some 0%Z) true)
     [{| StrategyAddress := 3; LastDebtRatio := None; LastPerformanceFee := 0 |};
      strategyB; strategyA]).1 =
  ToNormalizedAmount (8 * 10 ^ 16) 18 *
  (1 - Qc_of_Z 2000 / Qc_of_Z 10000) * (Qc_of_Z 9 / Qc_of_Z 10).
Proof.
  refine (proj1 (proj1 (empty_vault_first_answering_strategy scenarioOracle
            (vaultOn 1 VaultKindMultiple (Some 0%Z) true) _ _ _)
          [{| StrategyAddress := 3; LastDebtRatio := None; LastPerformanceFee := 0 |}]
          strategyB [strategyA] (8 * 10 ^ 16)%Z _ _ _)).
  - reflexivity.
  - by right.
  - reflexivity.
  - constructor; [|constructor]. by exists "execution reverted".
  - reflexivity.
Defined.

(** C10. For a vault of kind Multiple whose last total assets are null or
    zero, the debt-ratio APR does not depend on any strategy's debt ratio:
    strategies that differ only there give the same value and the same
    effects, and a strategy whose query succeeds contributes its
    fee-adjusted APR with the 0.9 haircut even if its debt ratio is null or
    zero. With non-zero total assets the same strategy is skipped. *)
Theorem empty_vault_ignores_debt_ratio (oracle : OracleCaller) (vault : TVault) :
  Kind vault = VaultKindMultiple →
  (isNilOrZero (LastTotalAssets vault) = true →
     (∀ l l', Forall2 sameButDebtRatio l l' →
        debtRatioAPRStage oracle vault l = debtRatioAPRStage oracle vault l') ∧
     (∀ s rest expected,
        isNilOrZero (LastDebtRatio s) = true →
        GetStrategyApr oracle (StrategyAddress s) 0 = Ok expected →
        (debtRatioAPRStage oracle vault (s :: rest)).1 =
          ToNormalizedAmount expected 18 *
          (1 - Qc_of_Z (LastPerformanceFee s) / Qc_of_Z 10000) *
          (Qc_of_Z 9 / Qc_of_Z 10))) ∧
  (isNilOrZero (LastTotalAssets vault) = false →
     ∀ s rest,
       isNilOrZero (LastDebtRatio s) = true →
       debtRatioAPRStage oracle vault (s :: rest) =
       debtRatioAPRStage oracle vault rest).
Proof.
  intros Hkind. split.
  - intros Hassets. split.
    + intros l l' Hll'. rewrite !debtRatioAPRStage_without_assets by done.
      by apply emptyVaultLoop_sameButDebtRatio.
    + intros s rest expected _ Hcall.
      rewrite debtRatioAPRStage_without_assets by done.
      destruct (emptyVaultLoop_first_success oracle [] s rest expected 0)
        as [Hfirst _]; [done..|].
      change ([] ++ s :: rest) with (s :: rest) in Hfirst.
      rewrite Hfirst, performanceFeeRatio_eq, NewFloat_0_9. ring.
  - intros Hassets s rest Hdebt. unfold debtRatioAPRStage.
    rewrite bool_decide_eq_true_2, Hassets by done.
    simpl. apply isNilOrZero_true in Hdebt as [-> | ->]; [done|].
    by rewrite bool_decide_eq_true_2.
Qed.

Lemma empty_vault_ignores_debt_ratio_witness :
  (debtRatioAPRStage scenarioOracle (vaultOn 1 VaultKindMultiple None true)
     [{| StrategyAddress := 1; LastDebtRatio := None; LastPerformanceFee := 1000 |}]).1 =
  ToNormalizedAmount (10 ^ 17) 18 *
  (1 - Qc_of_Z 1000 / Qc_of_Z 10000) * (Qc_of_Z 9 / Qc_of_Z 10).
Proof.
  refine (proj2 (proj1 (empty_vault_ignores_debt_ratio scenarioOracle
            (vaultOn 1 VaultKindMultiple None true) _) _)
          {| StrategyAddress := 1; LastDebtRatio := None; LastPerformanceFee := 1000 |}
          [] (10 ^ 17)%Z _ _); reflexivity.
Defined.

(** ** The early returns *)

Lemma computeVaultV3ForwardAPY_unavailable env vault strategies :
  (GetChain env (ChainID vault) = None ∨
   ∃ chain, GetChain env (ChainID vault) = Some chain ∧
     (APROracleContractAddress chain = zeroAddress ∨
      ∃ e, NewYVaultsV3APROracleCaller env (APROracleContractAddress chain)
             (ChainID vault) = Err e)) →
  ∃ log, computeVaultV3ForwardAPY env vault strategies = (emptyForwardAPY, log) ∧
         ∀ eff, eff ∈ log → ∃ e, eff = LogsError e.
Proof.
  unfold computeVaultV3ForwardAPY.
  intros [->|(chain & -> & [Hz|[e He]])].
  - exists []. split; [done|]. by intros eff ?%elem_of_nil.
  - rewrite bool_decide_eq_true_2 by done.
    exists []. split; [done|]. by intros eff ?%elem_of_nil.
  - case_bool_decide.
    + exists []. split; [done|]. by intros eff ?%elem_of_nil.
    + rewrite He, bind_emit. exists [LogsError e]. split; [done|].
      intros eff ->%list_elem_of_singleton. by exists e.
Qed.

(** C5. An unknown chain, an oracle address equal to the zero address, or an
    oracle client that cannot be built each make the function return the zero
    value [TForwardAPY{}] at once: no call reaches the oracle, and the only
    effect possible is the log of the constructor's error. *)
Theorem unavailable_oracle_returns_empty (env : Env) (vault : TVault)
    (strategies : list TStrategy) :
  (GetChain env (ChainID vault) = None ∨
   ∃ chain, GetChain env (ChainID vault) = Some chain ∧
     (APROracleContractAddress chain = zeroAddress ∨
      ∃ e, NewYVaultsV3APROracleCaller env (APROracleContractAddress chain)
             (ChainID vault) = Err e)) →
  (computeVaultV3ForwardAPY env vault strategies).1 = emptyForwardAPY ∧
  filter isOracleCall (computeVaultV3ForwardAPY env vault strategies).2 = [] ∧
  ∀ eff, eff ∈ (computeVaultV3ForwardAPY env vault strategies).2 →
    ∃ e, eff = LogsError e.
Proof.
  intros Hun.
  destruct (computeVaultV3ForwardAPY_unavailable env vault strategies Hun)
    as (log & -> & Hlog).
  simpl. split_and!; [done| |done].
  induction log as [|eff log IH]; [done|].
  destruct (Hlog eff) as [e ->]; [left|]. simpl.
  apply IH. intros eff' Hin. apply Hlog. by right.
Qed.

Lemma unavailable_oracle_returns_empty_witness :
  (computeVaultV3ForwardAPY scenarioEnv
     (vaultOn 250 VaultKindMultiple (Some 1000%Z) true) [strategyA; strategyB]).1
  = emptyForwardAPY ∧
  filter isOracleCall
    (computeVaultV3ForwardAPY scenarioEnv
       (vaultOn 250 VaultKindMultiple (Some 1000%Z) true) [strategyA; strategyB]).2
  = [].
Proof.
  refine (let H := unavailable_oracle_returns_empty scenarioEnv
                     (vaultOn 250 VaultKindMultiple (Some 1000%Z) true)
                     [strategyA; strategyB] _ in conj (proj1 H) (proj1 (proj2 H))).
  right. exists {| APROracleContractAddress := 8 |}. split; [reflexivity|].
  right. by exists "no contract code at given address".
Defined.

(** ** The result *)

Lemma computeVaultV3ForwardAPY_available env vault strategies chain oracle :
  GetChain env (ChainID vault) = Some chain →
  APROracleContractAddress chain ≠ zeroAddress →
  NewYVaultsV3APROracleCaller env (APROracleContractAddress chain)
    (ChainID vault) = Ok oracle →
  computeVaultV3ForwardAPY env vault strategies =
  (buildForwardAPY vault (oracleAPRStage oracle vault).1
     (debtRatioAPRStage oracle vault strategies).1,
   (oracleAPRStage oracle vault).2 ++ (debtRatioAPRStage oracle vault strategies).2).
Proof.
  intros Hchain Haddr Horacle. unfold computeVaultV3ForwardAPY.
  rewrite Hchain, bool_decide_eq_false_2, Horacle by done.
  unfold bind, ret. simpl. by rewrite app_nil_r.
Qed.

Lemma computeVaultV3ForwardAPY_cases env vault strategies :
  (computeVaultV3ForwardAPY env vault strategies).1 = emptyForwardAPY ∨
  ∃ oracle,
    (computeVaultV3ForwardAPY env vault strategies).1 =
    buildForwardAPY vault (oracleAPRStage oracle vault).1
      (debtRatioAPRStage oracle vault strategies).1.
Proof.
  destruct (GetChain env (ChainID vault)) as [chain|] eqn:Hchain.
  - destruct (decide (APROracleContractAddress chain = zeroAddress)) as [Hz|Hz].
    + left. edestruct computeVaultV3ForwardAPY_unavailable as (? & -> & _);
        [right; eauto|done].
    + destruct (NewYVaultsV3APROracleCaller env (APROracleContractAddress chain)
                  (ChainID vault)) as [oracle|e] eqn:Hnew.
      * right. exists oracle.
        by rewrite (computeVaultV3ForwardAPY_available _ _ _ chain oracle).
      * left. edestruct computeVaultV3ForwardAPY_unavailable as (? & -> & _);
          [right; eauto|done].
  - left. edestruct computeVaultV3ForwardAPY_unavailable as (? & -> & _);
      [left; eauto|done].
Qed.


(** C6, as stated, fails: a vault on a chain that is not configured gets the
    zero value, whose net APY is [nil] and not a compounded APR, whatever
    its flag says. *)
Lemma net_apy_missing_on_unknown_chain :
  let run := computeVaultV3ForwardAPY scenarioEnv
               (vaultOn 5 VaultKindMultiple (Some 1000%Z) true) [strategyA; strategyB] in
  NetAPY run.1 = None ∧
  V3OracleCurrentAPR (Composite run.1) = None ∧
  V3OracleStratRatioAPR (Composite run.1) = None ∧
  ¬ ∃ apr, NetAPY run.1 = Some (SetFloat64 (convertFloatAPRToAPY apr 52)).
Proof. simpl. split_and!; [done..|]. by intros [apr ?]. Qed.

(** C6, amended. When the vault's chain is known, its oracle address is not
    the zero address and the oracle client is built, the net APY is the
    compounded debt-ratio APR if [ShouldUseV2APR] is set and the compounded
    oracle APR otherwise, and the composite carries both compounded APRs.
    Compounding is lines 138-145: the APR narrowed to [float64], converted,
    and set into a [bigNumber.Float]. *)
Theorem net_apy_selection (env : Env) (vault : TVault) (strategies : list TStrategy)
    (chain : TChain) (oracle : OracleCaller) :
  GetChain env (ChainID vault) = Some chain →
  APROracleContractAddress chain ≠ zeroAddress →
  NewYVaultsV3APROracleCaller env (APROracleContractAddress chain)
    (ChainID vault) = Ok oracle →
  let oracleAPR := (oracleAPRStage oracle vault).1 in
  let debtRatioAPR := (debtRatioAPRStage oracle vault strategies).1 in
  let result := (computeVaultV3ForwardAPY env vault strategies).1 in
  NetAPY result =
    Some (SetFloat64
            (convertFloatAPRToAPY
               (Float64 (if ShouldUseV2APR (Metadata vault)
                         then debtRatioAPR else oracleAPR)) 52)) ∧
  V3OracleCurrentAPR (Composite result) =
    Some (SetFloat64 (convertFloatAPRToAPY (Float64 oracleAPR) 52)) ∧
  V3OracleStratRatioAPR (Composite result) =
    Some (SetFloat64 (convertFloatAPRToAPY (Float64 debtRatioAPR) 52)).
Proof.
  intros Hchain Haddr Horacle. simpl.
  by rewrite (computeVaultV3ForwardAPY_available _ _ _ chain oracle).
Qed.

Lemma net_apy_selection_witness :
  NetAPY (computeVaultV3ForwardAPY scenarioEnv
            (vaultOn 1 VaultKindMultiple (Some 1000%Z) true)
            [strategyA; strategyB]).1 =
  Some (SetFloat64
          (convertFloatAPRToAPY
             (Float64 (debtRatioAPRStage scenarioOracle
                         (vaultOn 1 VaultKindMultiple (Some 1000%Z) true)
                         [strategyA; strategyB]).1) 52)).
Proof.
  apply (net_apy_selection scenarioEnv
           (vaultOn 1 VaultKindMultiple (Some 1000%Z) true)
           [strategyA; strategyB] {| APROracleContractAddress := 7 |} scenarioOracle).
  - reflexivity.
  - by vm_compute.
  - reflexivity.
Defined.

(** C7, as stated, fails. Two oracle APRs above [-52], [2^60] and [2^60 + 1]
    on the 18-decimal scale, differ, but lines 138-145 narrow both to the
    same [float64] before they convert them: the vault reports the same
    APYs for the larger APR as for the smaller one. *)
Lemma narrowed_aprs_report_one_apy :
  let vault := vaultOn 1 VaultKindSingle (Some 1000%Z) false in
  let low := ToNormalizedAmount (2 ^ 60) 18 in
  let high := ToNormalizedAmount (2 ^ 60 + 1) 18 in
  (oracleAPRStage (constantOracle (2 ^ 60)) vault).1 = low ∧
  (oracleAPRStage (constantOracle (2 ^ 60 + 1)) vault).1 = high ∧
  - Qc_of_Z 52 < low ∧ low < high ∧
  Float64 low = Float64 high ∧
  convertFloatAPRToAPY (Float64 low) 52 = convertFloatAPRToAPY (Float64 high) 52 ∧
  (computeVaultV3ForwardAPY (envOf (constantOracle (2 ^ 60))) vault []).1 =
  (computeVaultV3ForwardAPY (envOf (constantOracle (2 ^ 60 + 1))) vault []).1.
Proof.
  assert (Hsame : Float64 (ToNormalizedAmount (2 ^ 60) 18) =
                  Float64 (ToNormalizedAmount (2 ^ 60 + 1) 18)).
  { apply Float64_positive_eq; by vm_compute. }
  intros vault low high.
  assert (Hlow : (oracleAPRStage (constantOracle (2 ^ 60)) vault).1 = low)
    by (by apply Qc_is_canon).
  assert (Hhigh : (oracleAPRStage (constantOracle (2 ^ 60 + 1)) vault).1 = high)
    by (by apply Qc_is_canon).
  split_and!; [done|done|by vm_compute|by vm_compute|done|..].
  - unfold low, high. rewrite Hsame. reflexivity.
  - assert (Hdebt : ∀ oracle, debtRatioAPRStage oracle vault [] = (NewFloat 0 0, []))
      by done.
    rewrite (computeVaultV3ForwardAPY_available (envOf (constantOracle (2 ^ 60)))
               vault [] {| APROracleContractAddress := 7 |} (constantOracle (2 ^ 60)))
      by done.
    rewrite (computeVaultV3ForwardAPY_available (envOf (constantOracle (2 ^ 60 + 1)))
               vault [] {| APROracleContractAddress := 7 |}
               (constantOracle (2 ^ 60 + 1))) by done.
    rewrite !Hdebt, Hlow, Hhigh. unfold low, high, buildForwardAPY.
    cbn [fst]. rewrite Hsame. reflexivity.
Qed.

(** C7, amended. Each of the three reported values is [convertFloatAPRToAPY]
    at 52 periods, applied to the APR narrowed to [float64]; that conversion
    computes [(1 + APR/52)^52 - 1] at the narrowed APR, in floating
    precision; the formula is strictly increasing on every APR above [-52],
    and the conversion after the narrowing never decreases there. *)
Theorem apr_to_apy_conversion :
  (∀ env vault strategies chain oracle,
     GetChain env (ChainID vault) = Some chain →
     APROracleContractAddress chain ≠ zeroAddress →
     NewYVaultsV3APROracleCaller env (APROracleContractAddress chain)
       (ChainID vault) = Ok oracle →
     let oracleAPR := (oracleAPRStage oracle vault).1 in
     let debtRatioAPR := (debtRatioAPRStage oracle vault strategies).1 in
     let primaryAPR :=
       if ShouldUseV2APR (Metadata vault) then debtRatioAPR else oracleAPR in
     let result := (computeVaultV3ForwardAPY env vault strategies).1 in
     NetAPY result =
       Some (SetFloat64 (convertFloatAPRToAPY (Float64 primaryAPR) 52)) ∧
     V3OracleCurrentAPR (Composite result) =
       Some (SetFloat64 (convertFloatAPRToAPY (Float64 oracleAPR) 52)) ∧
     V3OracleStratRatioAPR (Composite result) =
       Some (SetFloat64 (convertFloatAPRToAPY (Float64 debtRatioAPR) 52))) ∧
  (∀ apr, convertFloatAPRToAPY (F64 apr) 52 =
          Float64 ((1 + apr / Qc_of_Z 52) ^ 52 - 1)) ∧
  (∀ x y, - Qc_of_Z 52 < x → x < y →
     (1 + x / Qc_of_Z 52) ^ 52 - 1 < (1 + y / Qc_of_Z 52) ^ 52 - 1) ∧
  (∀ x y, - Qc_of_Z 52 < x → x ≤ y →
     float64_le (convertFloatAPRToAPY (Float64 x) 52)
                (convertFloatAPRToAPY (Float64 y) 52)).
Proof.
  split_and!.
  - intros env vault strategies chain oracle Hchain Haddr Horacle. simpl.
    by rewrite (computeVaultV3ForwardAPY_available _ _ _ chain oracle).
  - apply convertFloatAPRToAPY_52.
  - intros x y Hx Hxy.
    apply compounding_strict_mono; [by apply Qclt_le_weak|done].
  - intros x y Hx Hxy.
    apply narrowed_conversion_mono; [by apply Qclt_le_weak|done].
Qed.

Lemma apr_to_apy_conversion_witness :
  NetAPY (computeVaultV3ForwardAPY scenarioEnv
            (vaultOn 1 VaultKindMultiple (Some 1000%Z) true)
            [strategyA; strategyB]).1 =
  Some (SetFloat64 (convertFloatAPRToAPY (Float64 (NewFloat 7164 5)) 52)) ∧
  float64_le (convertFloatAPRToAPY (Float64 (NewFloat 7164 5)) 52)
             (convertFloatAPRToAPY (Float64 (NewFloat 8 2)) 52).
Proof.
  split.
  - assert (Hstage : (debtRatioAPRStage scenarioOracle
                        (vaultOn 1 VaultKindMultiple (Some 1000%Z) true)
                        [strategyA; strategyB]).1 = NewFloat 7164 5)
      by (by apply Qc_is_canon).
    rewrite <-Hstage.
    apply (proj1 apr_to_apy_conversion scenarioEnv
             (vaultOn 1 VaultKindMultiple (Some 1000%Z) true)
             [strategyA; strategyB] {| APROracleContractAddress := 7 |}
             scenarioOracle).
    + reflexivity.
    + by vm_compute.
    + reflexivity.
  - apply (proj2 (proj2 (proj2 apr_to_apy_conversion))); by vm_compute.
Defined.

End APRProps.

(** * Properties of package events *)
Module EventsProps.
Import Events.

(** ** Strings and keys *)

Lemma Split_nonempty s sep : Split s sep ≠ [].
Proof.
  induction s as [|c rest IH]; simpl; [done|].
  case_decide; [done|]. by destruct (Split rest sep).
Qed.

Lemma Split_no_sep s sep : contains sep s = false → Split s sep = [s].
Proof.
  induction s as [|c rest IH]; simpl; [done|].
  intros [Hc Hrest]%orb_false_elim. apply bool_decide_eq_false in Hc.
  rewrite decide_False by done. by rewrite IH.
Qed.

Lemma Split_app s1 s2 sep :
  contains sep s1 = false →
  Split (s1 +:+ String sep s2) sep = s1 :: Split s2 sep.
Proof.
  induction s1 as [|c rest IH]; simpl.
  - intros _. by rewrite decide_True.
  - intros [Hc Hrest]%orb_false_elim. apply bool_decide_eq_false in Hc.
    rewrite decide_False by done. by rewrite IH.
Qed.

Lemma string_of_uint_no_dash d :
  contains "-" (DecimalString.NilEmpty.string_of_uint d) = false.
Proof. induction d; simpl; done. Qed.

Lemma FormatUint_no_dash n : contains "-" (FormatUint n) = false.
Proof. apply string_of_uint_no_dash. Qed.

Lemma ParseUint_FormatUint n : (n ≤ maxUint64)%N → ParseUint (FormatUint n) = n.
Proof.
  intros Hn. unfold ParseUint, FormatUint.
  rewrite DecimalString.NilEmpty.usu, DecimalN.Unsigned.of_to. lia.
Qed.

Lemma FormatUint_inj n n' : FormatUint n = FormatUint n' → n = n'.
Proof.
  unfold FormatUint. intros Heq.
  apply (f_equal DecimalString.NilEmpty.uint_of_string) in Heq.
  rewrite !DecimalString.NilEmpty.usu in Heq.
  injection Heq as Heq. by apply DecimalN.Unsigned.to_uint_inj.
Qed.

Section WithCodec.
Context (codec : AddressCodec) (laws : AddressCodecLaws codec).

Lemma Split_eventKey a bn :
  Split (eventKey codec a bn) "-" = [Hex codec a; FormatUint bn].
Proof.
  unfold eventKey. change ("-" +:+ FormatUint bn) with (String "-" (FormatUint bn)).
  rewrite Split_app by apply laws.
  by rewrite Split_no_sep by apply FormatUint_no_dash.
Qed.

Lemma eventKey_inj a bn a' bn' :
  eventKey codec a bn = eventKey codec a' bn' → a = a' ∧ bn = bn'.
Proof.
  intros Heq. apply (f_equal (λ s, Split s "-")) in Heq.
  rewrite !Split_eventKey in Heq. injection Heq as Ha Hbn.
  split; [|by apply FormatUint_inj].
  by rewrite <-(HexToAddress_Hex codec laws a), Ha, (HexToAddress_Hex codec laws).
Qed.

(** ** The records of a log *)

Lemma recordsAt_app l1 l2 bn :
  recordsAt (l1 ++ l2) bn = recordsAt l1 bn ++ recordsAt l2 bn.
Proof. unfold recordsAt. by rewrite filter_app, fmap_app. Qed.

Lemma recordsAt_keep it bn :
  Error it = None → LogBlockNumber (Raw (Event it)) = bn →
  recordsAt [it] bn = [blockData (Event it)].
Proof. intros He Hbn. unfold recordsAt. by rewrite filter_cons_True. Qed.

Lemma recordsAt_drop it bn :
  ¬ (Error it = None ∧ LogBlockNumber (Raw (Event it)) = bn) →
  recordsAt [it] bn = [].
Proof. intros Hn. unfold recordsAt. by rewrite filter_cons_False. Qed.

Lemma recordsAt_BlockNumber log bn r : r ∈ recordsAt log bn → BlockNumber r = bn.
Proof.
  unfold recordsAt. intros (it & -> & Hit)%list_elem_of_fmap.
  by apply list_elem_of_filter in Hit as [[_ ?] _].
Qed.

Lemma recordsAt_source log bn r :
  r ∈ recordsAt log bn → ∃ it, it ∈ log ∧ LogBlockNumber (Raw (Event it)) = bn.
Proof.
  unfold recordsAt. intros (it & -> & Hit)%list_elem_of_fmap.
  apply list_elem_of_filter in Hit as [[_ ?] ?]. eauto.
Qed.

Lemma nonEmpty_Some {A} (l l' : list A) : nonEmpty l = Some l' ↔ l = l' ∧ l ≠ [].
Proof.
  destruct l as [|x l]; simpl.
  - split; [done|]. by intros [_ ?].
  - split; [by intros [= <-]|]. by intros [<- _].
Qed.

Lemma nonEmpty_snoc {A} (l : list A) x : nonEmpty (l ++ [x]) = Some (l ++ [x]).
Proof. by destruct l. Qed.

Lemma nonEmpty_append {A} (l : list A) x :
  match nonEmpty l with Some records => records ++ [x] | None => [x] end = l ++ [x].
Proof. by destruct l. Qed.

(** ** The invariant holds at the start and after every step *)

Lemma spawn_inv chain chainID vaultOrder start end_ :
  NoDup (VaultAddress <$> vaultOrder) →
  StateInv codec (spawn chain chainID vaultOrder start end_).
Proof.
  intros Hnodup. split; simpl.
  - apply Forall_fmap, Forall_forall. intros v _. split; simpl.
    + intros bn. by rewrite lookup_empty.
    + done.
  - intros key [? Hkey]. by rewrite lookup_empty in Hkey.
  - by rewrite <-list_fmap_compose.
Qed.

Lemma insert_same_address (gs : list Goroutine) i g g' :
  gs !! i = Some g → vaultAddress g' = vaultAddress g →
  vaultAddress <$> <[i := g']> gs = vaultAddress <$> gs.
Proof.
  intros Hi Ha. rewrite list_fmap_insert, Ha.
  apply list_insert_id. by rewrite list_lookup_fmap, Hi.
Qed.

Lemma elem_of_insert_same_address (gs : list Goroutine) i g g' g0 :
  gs !! i = Some g → vaultAddress g' = vaultAddress g → g0 ∈ gs →
  ∃ g1, g1 ∈ <[i := g']> gs ∧ vaultAddress g1 = vaultAddress g0.
Proof.
  intros Hi Ha [j Hj]%list_elem_of_lookup.
  destruct (decide (j = i)) as [->|Hne].
  - exists g'. split.
    + apply list_elem_of_lookup. exists i. apply list_lookup_insert_eq.
      by eapply lookup_lt_Some.
    + congruence.
  - exists g0. split; [|done].
    apply list_elem_of_lookup. exists j. by rewrite list_lookup_insert_ne.
Qed.

(** A step that leaves the shared map alone. *)
Lemma local_step_inv st i g g' :
  StateInv codec st → goroutines st !! i = Some g →
  vaultAddress g' = vaultAddress g →
  GoroutineInv codec (asyncManagementFeeUpdate st) g' →
  StateInv codec {| asyncManagementFeeUpdate := asyncManagementFeeUpdate st;
                    goroutines := <[i := g']> (goroutines st) |}.
Proof.
  intros [Hgs Hkeys Hdist] Hi Ha Hg'. split; simpl.
  - by apply Forall_insert.
  - intros key Hkey. destruct (Hkeys key Hkey) as (g0 & bn & Hg0 & ->).
    destruct (elem_of_insert_same_address _ i g g' g0 Hi Ha Hg0) as (g1 & ? & Hg1).
    exists g1, bn. by rewrite Hg1.
  - by rewrite (insert_same_address _ i g).
Qed.

Lemma store_step_inv st i g it syncMap :
  StateInv codec st → goroutines st !! i = Some g →
  log g !! position g = Some it → loaded g = Some syncMap →
  StateInv codec
    {| asyncManagementFeeUpdate :=
         <[eventKey codec (vaultAddress g) (LogBlockNumber (Raw (Event it))) :=
             match syncMap with
             | Some records => records ++ [blockData (Event it)]
             | None => [blockData (Event it)]
             end]> (asyncManagementFeeUpdate st);
       goroutines :=
         <[i := {| vaultAddress := vaultAddress g; log := log g;
                   position := S (position g); loaded := None |}]> (goroutines st) |}.
Proof.
  intros [Hgs Hkeys Hdist] Hi Hit Hld.
  pose proof (Forall_lookup_1 _ _ _ _ Hgs Hi) as [Hstored Hloaded].
  destruct (Hloaded _ Hld) as (it' & Hit' & Herr & ->).
  rewrite Hit in Hit'. injection Hit' as <-.
  rewrite Hstored, nonEmpty_append.
  set (bn := LogBlockNumber (Raw (Event it))).
  split; simpl.
  - apply Forall_lookup_2. intros j gj Hj.
    apply list_lookup_insert_Some in Hj as [(-> & <- & Hlt)|[Hne Hj]].
    + split; simpl; [|done]. intros bn'.
      rewrite (take_S_r _ _ it), recordsAt_app by done.
      destruct (decide (bn' = bn)) as [->|Hbn].
      * rewrite lookup_insert_eq, recordsAt_keep by done.
        by rewrite nonEmpty_snoc.
      * rewrite lookup_insert_ne by (intros [_ ?]%(eventKey_inj); done).
        rewrite recordsAt_drop, app_nil_r by (intros [_ ?]; done).
        apply Hstored.
    + pose proof (Forall_lookup_1 _ _ _ _ Hgs Hj) as [Hstoredj Hloadedj].
      assert (Haddr : vaultAddress gj ≠ vaultAddress g).
      { intros Heq. apply Hne. symmetry.
        apply (NoDup_lookup _ _ _ (vaultAddress g) Hdist);
          rewrite list_lookup_fmap, ?Hi, ?Hj; simpl; congruence. }
      split.
      * intros bn'.
        rewrite lookup_insert_ne by (intros [? _]%(eventKey_inj); done).
        apply Hstoredj.
      * intros syncMap Hldj. destruct (Hloadedj _ Hldj) as (itj & ? & ? & ->).
        exists itj. split_and!; [done..|].
        by rewrite lookup_insert_ne by (intros [? _]%(eventKey_inj); done).
  - intros key Hkey.
    destruct (decide (key = eventKey codec (vaultAddress g) bn)) as [->|Hne].
    + exists (Build_Goroutine (vaultAddress g) (log g) (S (position g)) None), bn.
      split; [|done].
      apply list_elem_of_lookup. exists i. apply list_lookup_insert_eq.
      by eapply lookup_lt_Some.
    + rewrite lookup_insert_ne in Hkey by done.
      destruct (Hkeys key Hkey) as (g0 & bn0 & Hg0 & ->).
      edestruct (elem_of_insert_same_address (goroutines st) i g) as (g1 & ? & Hg1);
        [done| |done|]; [|exists g1, bn0; by rewrite Hg1]. done.
  - by rewrite (insert_same_address _ i g).
Qed.

Lemma schedule_inv st i : StateInv codec st → StateInv codec (schedule codec st i).
Proof.
  intros Hinv. unfold schedule.
  destruct (goroutines st !! i) as [g|] eqn:Hi; [|done].
  destruct (goroutineStep codec (asyncManagementFeeUpdate st) g)
    as [[asyncFeeMap g']|] eqn:Hstep; [|done].
  unfold goroutineStep in Hstep.
  destruct (log g !! position g) as [it|] eqn:Hit; [|done].
  pose proof (Forall_lookup_1 _ _ _ _ (inv_goroutines _ _ Hinv) Hi)
    as [Hstored Hloaded].
  destruct (loaded g) as [syncMap|] eqn:Hld.
  - injection Hstep as <- <-. by apply store_step_inv.
  - destruct (Error it) as [e|] eqn:Herr; injection Hstep as <- <-.
    + apply (local_step_inv st i g); [done..|]. split; simpl; [|done].
      intros bn. rewrite (take_S_r _ _ it), recordsAt_app by done.
      rewrite recordsAt_drop, app_nil_r by (intros [? _]; congruence).
      apply Hstored.
    + apply (local_step_inv st i g); [done..|]. split; simpl; [done|].
      intros syncMap [= <-]. by exists it.
Qed.

Lemma runSchedule_inv st interleaving :
  StateInv codec st → StateInv codec (runSchedule codec st interleaving).
Proof.
  revert st. induction interleaving as [|i rest IH]; intros st Hinv; [done|].
  simpl. by apply IH, schedule_inv.
Qed.

(** ** What a step never changes *)

Lemma schedule_static st i :
  static <$> goroutines (schedule codec st i) = static <$> goroutines st.
Proof.
  unfold schedule.
  destruct (goroutines st !! i) as [g|] eqn:Hi; [|done].
  destruct (goroutineStep codec (asyncManagementFeeUpdate st) g)
    as [[asyncFeeMap g']|] eqn:Hstep; [|done].
  simpl. rewrite list_fmap_insert. apply list_insert_id.
  rewrite list_lookup_fmap, Hi. simpl. f_equal.
  unfold goroutineStep in Hstep.
  destruct (log g !! position g); [|done].
  destruct (loaded g); [by injection Hstep as <- <-|].
  by destruct (Error _); injection Hstep as <- <-.
Qed.

Lemma runSchedule_static st interleaving :
  static <$> goroutines (runSchedule codec st interleaving) =
  static <$> goroutines st.
Proof.
  revert st. induction interleaving as [|i rest IH]; intros st; [done|].
  change (runSchedule codec st (i :: rest))
    with (runSchedule codec (schedule codec st i) rest).
  by rewrite IH, schedule_static.
Qed.

Lemma spawn_static chain chainID vaultOrder start end_ :
  static <$> goroutines (spawn chain chainID vaultOrder start end_) =
  (λ v, (VaultAddress v, logOf chain chainID start end_ v)) <$> vaultOrder.
Proof. simpl. by rewrite <-list_fmap_compose. Qed.

(** ** The shared map once every goroutine has ended *)

Lemma keyedByAddress_values vaults v :
  keyedByAddress vaults →
  v ∈ (map_to_list vaults).*2 ↔ vaults !! VaultAddress v = Some v.
Proof.
  intros Hkeyed. rewrite list_elem_of_fmap. split.
  - intros ([a v'] & -> & Hin%elem_of_map_to_list). simpl.
    by rewrite (Hkeyed _ _ Hin).
  - intros Hv. exists (VaultAddress v, v). split; [done|].
    by apply elem_of_map_to_list.
Qed.

Lemma keyedByAddress_NoDup vaults vaultOrder :
  keyedByAddress vaults →
  vaultOrder ≡ₚ (map_to_list vaults).*2 →
  NoDup (VaultAddress <$> vaultOrder).
Proof.
  intros Hkeyed ->.
  assert (Heq : VaultAddress <$> (map_to_list vaults).*2 = (map_to_list vaults).*1).
  { rewrite <-list_fmap_compose. apply list_fmap_ext.
    intros i [a v] Hin%list_elem_of_lookup_2%elem_of_map_to_list. simpl.
    by apply Hkeyed. }
  rewrite Heq. apply NoDup_fst_map_to_list.
Qed.

Lemma ended_store chain chainID vaults vaultOrder start end_ interleaving :
  keyedByAddress vaults →
  vaultOrder ≡ₚ (map_to_list vaults).*2 →
  allEnded (runSchedule codec (spawn chain chainID vaultOrder start end_) interleaving) →
  storeSpec codec chain chainID start end_ vaults
    (asyncManagementFeeUpdate
       (runSchedule codec (spawn chain chainID vaultOrder start end_) interleaving)).
Proof.
  intros Hkeyed Horder Hended.
  set (st := runSchedule _ _ _) in *.
  assert (Hinv : StateInv codec st).
  { apply runSchedule_inv, spawn_inv. by eapply keyedByAddress_NoDup. }
  assert (Hstatic : static <$> goroutines st =
            (λ v, (VaultAddress v, logOf chain chainID start end_ v)) <$> vaultOrder).
  { unfold st. by rewrite runSchedule_static, spawn_static. }
  assert (Hg : ∀ g, g ∈ goroutines st →
            ∃ v, vaults !! vaultAddress g = Some v ∧
                 log g = logOf chain chainID start end_ v).
  { intros g Hin.
    assert (Hs : static g ∈ static <$> goroutines st)
      by (by apply list_elem_of_fmap_2).
    rewrite Hstatic in Hs. apply list_elem_of_fmap in Hs as (v & [= Ha Hl] & Hv).
    rewrite Horder in Hv. apply keyedByAddress_values in Hv; [|done].
    exists v. by rewrite Ha. }
  split.
  - intros a v bn Hv.
    assert (Hs : (VaultAddress v, logOf chain chainID start end_ v) ∈
                 static <$> goroutines st).
    { rewrite Hstatic. apply list_elem_of_fmap. exists v. split; [done|].
      rewrite Horder. apply keyedByAddress_values; [done|].
      by rewrite (Hkeyed _ _ Hv). }
    apply list_elem_of_fmap in Hs as (g & [= Ha Hl] & Hin).
    pose proof (proj1 (Forall_forall _ _) (inv_goroutines _ _ Hinv) g Hin)
      as [Hstored _].
    pose proof (proj1 (Forall_forall _ _) Hended g Hin) as Hend.
    unfold ended in Hend. apply lookup_ge_None in Hend.
    rewrite <-(Hkeyed _ _ Hv), Ha, Hl, Hstored. by rewrite take_ge.
  - intros key Hkey.
    destruct (inv_keys _ _ Hinv key Hkey) as (g & bn & Hin & ->).
    destruct (Hg g Hin) as (v & Hv & _). by exists (vaultAddress g), bn.
Qed.

Lemma storeSpec_unique chain chainID start end_ vaults m1 m2 :
  storeSpec codec chain chainID start end_ vaults m1 →
  storeSpec codec chain chainID start end_ vaults m2 →
  m1 = m2.
Proof.
  intros [H1 K1] [H2 K2]. apply map_eq. intros key.
  destruct (m1 !! key) as [l1|] eqn:E1.
  - destruct (K1 key) as (a & bn & [v Hv] & ->); [by rewrite E1|].
    rewrite (H1 _ _ _ Hv) in E1. by rewrite (H2 _ _ _ Hv).
  - destruct (m2 !! key) as [l2|] eqn:E2; [|done].
    destruct (K2 key) as (a & bn & [v Hv] & ->); [by rewrite E2|].
    rewrite (H1 _ _ _ Hv) in E1. rewrite (H2 _ _ _ Hv) in E2. congruence.
Qed.

(** ** The reshape *)

Lemma reshape_snoc entries e :
  reshape codec (entries ++ [e]) = reshapeEntry codec (reshape codec entries) e.
Proof. unfold reshape. by rewrite foldl_app. Qed.

Lemma recordsUnder_insert (h : gmap Address (gmap N (list TEventBlock)))
    a0 bn0 l0 a bn :
  recordsUnder (<[a0 := <[bn0 := l0]> (default ∅ (h !! a0))]> h) a bn =
  if decide (a = a0 ∧ bn = bn0) then Some l0 else recordsUnder h a bn.
Proof.
  unfold recordsUnder. destruct (decide (a = a0)) as [->|Ha].
  - rewrite lookup_insert_eq. simpl. destruct (decide (bn = bn0)) as [->|Hb].
    + rewrite lookup_insert_eq. by rewrite decide_True.
    + rewrite lookup_insert_ne by done.
      rewrite decide_False by (by intros [_ ?]).
      destruct (h !! a0); simpl; [done|]. by rewrite lookup_empty.
  - rewrite lookup_insert_ne by done. by rewrite decide_False by (by intros [? _]).
Qed.

Lemma reshape_spec entries :
  (∀ key l, (key, l) ∈ entries →
     ∃ a bn, key = eventKey codec a bn ∧ (bn ≤ maxUint64)%N) →
  NoDup entries.*1 →
  ∃ h, reshape codec entries = Some h ∧ historySpec codec h entries.
Proof.
  induction entries as [|[key l0] entries IH] using rev_ind; intros Hwf Hnd.
  - exists ∅. split; [done|]. split.
    + intros a bn l. unfold recordsUnder. rewrite lookup_empty. simpl.
      split; [done|]. by intros ?%elem_of_nil.
    + intros a forVault. by rewrite lookup_empty.
  - rewrite fmap_app in Hnd. apply NoDup_app in Hnd as (Hnd & Hfresh & _).
    destruct IH as (h & Hh & Hrec & Hne); [|done|].
    { intros key' l' Hin. apply (Hwf key' l'), elem_of_app. by left. }
    destruct (Hwf key l0) as (a0 & bn0 & -> & Hbn0).
    { apply elem_of_app. right. by apply list_elem_of_singleton. }
    rewrite reshape_snoc, Hh. unfold reshapeEntry. simpl.
    rewrite (Split_eventKey), (HexToAddress_Hex codec laws), ParseUint_FormatUint by done.
    eexists. split; [done|]. split.
    + intros a bn l. rewrite recordsUnder_insert. case_decide as Hd.
      * destruct Hd as [-> ->]. split.
        -- intros [= <-]. apply elem_of_app. right. by apply list_elem_of_singleton.
        -- intros [Hin|Hin%list_elem_of_singleton]%elem_of_app.
           ++ exfalso. apply (Hfresh (eventKey codec a0 bn0)).
              ** apply list_elem_of_fmap. by exists (eventKey codec a0 bn0, l).
              ** simpl. left.
           ++ by injection Hin as ->.
      * rewrite Hrec. split; [intros ?; apply elem_of_app; by left|].
        intros [Hin|Hin%list_elem_of_singleton]%elem_of_app; [done|].
        injection Hin as Hk _. apply eventKey_inj in Hk.
        by destruct Hd.
    + intros a forVault. destruct (decide (a = a0)) as [->|].
      * rewrite lookup_insert_eq. intros [= <-]. exists bn0.
        by rewrite lookup_insert_eq.
      * rewrite lookup_insert_ne by done. apply Hne.
Qed.

Lemma eventHistorySpec_unique chain chainID start end_ vaults h1 h2 :
  eventHistorySpec chain chainID start end_ vaults h1 →
  eventHistorySpec chain chainID start end_ vaults h2 →
  h1 = h2.
Proof.
  intros [R1 N1] [R2 N2].
  assert (Hsame : ∀ a bn, recordsUnder h1 a bn = recordsUnder h2 a bn).
  { intros a bn. apply option_eq. intros l. by rewrite R1, R2. }
  apply map_eq. intros a. specialize (Hsame a). unfold recordsUnder in Hsame.
  destruct (h1 !! a) as [m1|] eqn:E1, (h2 !! a) as [m2|] eqn:E2; simpl in Hsame.
  - f_equal. by apply map_eq.
  - destruct (N1 a m1 E1) as [bn [l Hl]]. specialize (Hsame bn). congruence.
  - destruct (N2 a m2 E2) as [bn [l Hl]]. specialize (Hsame bn). congruence.
  - done.
Qed.

Lemma logOf_uint64 chain chainID start end_ v it :
  blockNumbersAreUint64 chain →
  it ∈ logOf chain chainID start end_ v →
  (LogBlockNumber (Raw (Event it)) ≤ maxUint64)%N.
Proof.
  intros Huint. unfold logOf, filterUpdateManagementFee. simpl.
  destruct (chain chainID (VaultAddress v) (filterOptsFor start end_ v))
    as [l|e] eqn:Hq; [|by intros ?%elem_of_nil].
  intros Hin. by eapply Huint.
Qed.

Lemma storeSpec_history chain chainID start end_ vaults asyncFeeMap entries :
  blockNumbersAreUint64 chain →
  storeSpec codec chain chainID start end_ vaults asyncFeeMap →
  entries ≡ₚ map_to_list asyncFeeMap →
  ∃ h, reshape codec entries = Some h ∧
       eventHistorySpec chain chainID start end_ vaults h.
Proof.
  intros Huint [Hstore Hkeys] Hentries.
  assert (Hin : ∀ key l, (key, l) ∈ entries ↔ asyncFeeMap !! key = Some l).
  { intros key l. by rewrite Hentries, elem_of_map_to_list. }
  destruct (reshape_spec entries) as (h & Hh & Hrec & Hne).
  - intros key l Hkl%Hin.
    destruct (Hkeys key) as (a & bn & [v Hv] & ->); [by rewrite Hkl|].
    exists a, bn. split; [done|].
    rewrite (Hstore _ _ _ Hv) in Hkl. apply nonEmpty_Some in Hkl as [<- Hl].
    destruct (recordsAt (logOf chain chainID start end_ v) bn) as [|r rs] eqn:Hr;
      [done|].
    destruct (recordsAt_source (logOf chain chainID start end_ v) bn r)
      as (it & Hit & <-); [rewrite Hr; left|].
    by eapply logOf_uint64.
  - rewrite Hentries. apply NoDup_fst_map_to_list.
  - exists h. split; [done|]. split; [|done].
    intros a bn l. rewrite Hrec, Hin. split.
    + intros Hl. destruct (Hkeys (eventKey codec a bn)) as (a' & bn' & [v Hv] & Heq);
        [by rewrite Hl|].
      apply eventKey_inj in Heq as [<- <-].
      exists v. split; [done|]. by rewrite <-(Hstore _ _ _ Hv).
    + intros (v & Hv & Hl). by rewrite (Hstore _ _ _ Hv).
Qed.

(** Whatever the order of the vaults, the interleaving of the goroutines
    and the order of [Range], the function returns the event history of the
    vaults. *)
Lemma Handle_spec chain chainID vaults start end_ result :
  blockNumbersAreUint64 chain →
  keyedByAddress vaults →
  HandleUpdateManagementFee codec chain chainID vaults start end_ result →
  ∃ h, result = Some h ∧ eventHistorySpec chain chainID start end_ vaults h.
Proof.
  intros Huint Hkeyed Hrun.
  destruct Hrun as [vaultOrder interleaving entries Horder Hended Hentries].
  eapply storeSpec_history; [done| |done].
  by apply ended_store.
Qed.

(** ** Every goroutine ends *)

Lemma sum_list_insert_lt (l : list nat) i x y :
  l !! i = Some x → (y < x)%nat →
  (sum_list (<[i := y]> l) < sum_list l)%nat.
Proof.
  revert i. induction l as [|z l IH]; intros [|i] Hi Hlt; simpl in *; try done.
  - injection Hi as ->. lia.
  - specialize (IH i Hi Hlt). lia.
Qed.

Lemma schedule_decreases st i g :
  goroutines st !! i = Some g → ¬ ended g →
  (sum_list (remaining <$> goroutines (schedule codec st i)) <
   sum_list (remaining <$> goroutines st))%nat.
Proof.
  intros Hi Hnot. unfold schedule, goroutineStep. rewrite Hi.
  unfold ended in Hnot.
  destruct (log g !! position g) as [it|] eqn:Hit; [|done].
  apply lookup_lt_Some in Hit.
  assert (Hlt : ∀ g', (remaining g' < remaining g)%nat →
            (sum_list (remaining <$> <[i := g']> (goroutines st)) <
             sum_list (remaining <$> goroutines st))%nat).
  { intros g' Hg'. rewrite list_fmap_insert.
    apply (sum_list_insert_lt _ _ (remaining g)); [|done].
    by rewrite list_lookup_fmap, Hi. }
  destruct (loaded g) as [syncMap|] eqn:Hld; simpl.
  - apply Hlt. unfold remaining. simpl. rewrite Hld. lia.
  - destruct (Error it); simpl; apply Hlt; unfold remaining; simpl;
      rewrite Hld; lia.
Qed.

Global Instance ended_dec g : Decision (ended g).
Proof.
  unfold ended. destruct (log g !! position g); [by right|by left].
Defined.

Lemma every_goroutine_ends st :
  ∃ interleaving, allEnded (runSchedule codec st interleaving).
Proof.
  assert (Hn : ∀ n st, (sum_list (remaining <$> goroutines st) < n)%nat →
            ∃ interleaving, allEnded (runSchedule codec st interleaving)).
  { clear st. induction n as [|n IH]; intros st Hsum; [lia|].
    destruct (decide (Forall ended (goroutines st))) as [Hall|Hnot].
    - by exists [].
    - apply not_Forall_Exists in Hnot; [|apply _].
      apply Exists_exists in Hnot as (g & [i Hi]%list_elem_of_lookup & Hg).
      destruct (IH (schedule codec st i)) as [interleaving Hended].
      + pose proof (schedule_decreases st i g Hi Hg). lia.
      + by exists (i :: interleaving). }
  by apply (Hn (S (sum_list (remaining <$> goroutines st)))), Nat.lt_succ_diag_r.
Qed.

Lemma Handle_returns_some chain chainID vaults start end_ :
  ∃ result, HandleUpdateManagementFee codec chain chainID vaults start end_ result.
Proof.
  destruct (every_goroutine_ends
              (spawn chain chainID (map_to_list vaults).*2 start end_))
    as [interleaving Hended].
  eexists. by eapply (Handle_returns _ _ _ _ _ _ _ interleaving).
Qed.

(** ** Keys and block numbers, whatever the vaults *)

Lemma spawn_keyInv chain chainID vaultOrder start end_ :
  blockNumbersAreUint64 chain →
  KeyInv codec (spawn chain chainID vaultOrder start end_).
Proof.
  intros Huint. split; simpl.
  - intros key records. by rewrite lookup_empty.
  - intros g records (v & -> & _)%list_elem_of_fmap. done.
  - intros g it (v & -> & _)%list_elem_of_fmap Hit.
    by apply (logOf_uint64 chain chainID start end_ v).
Qed.

Lemma elem_of_insert_inv (gs : list Goroutine) i g' g0 :
  g0 ∈ <[i := g']> gs → g0 = g' ∨ g0 ∈ gs.
Proof.
  intros [j Hj]%list_elem_of_lookup.
  apply list_lookup_insert_Some in Hj as [(_ & -> & _)|[_ Hj]]; [by left|].
  right. by eapply list_elem_of_lookup_2.
Qed.

Lemma schedule_keyInv st i : KeyInv codec st → KeyInv codec (schedule codec st i).
Proof.
  intros [Hstored Hloaded Huint]. unfold schedule.
  destruct (goroutines st !! i) as [g|] eqn:Hi; [|done].
  assert (Hg : g ∈ goroutines st) by (by eapply list_elem_of_lookup_2).
  destruct (goroutineStep codec (asyncManagementFeeUpdate st) g)
    as [[asyncFeeMap g']|] eqn:Hstep; [|done].
  unfold goroutineStep in Hstep.
  destruct (log g !! position g) as [it|] eqn:Hit; [|done].
  assert (Hbn : (LogBlockNumber (Raw (Event it)) ≤ maxUint64)%N).
  { apply (Huint g); [done|]. by eapply list_elem_of_lookup_2. }
  destruct (loaded g) as [syncMap|] eqn:Hld.
  - injection Hstep as <- <-. split; simpl.
    + intros key records Hkey.
      apply lookup_insert_Some in Hkey as [[<- <-]|[_ Hkey]]; [|by apply Hstored].
      assert (Hnew : keyedBy codec
                (eventKey codec (vaultAddress g) (LogBlockNumber (Raw (Event it))))
                [blockData (Event it)]).
      { split; [done|]. intros r ->%list_elem_of_singleton. simpl. eauto. }
      destruct syncMap as [records|]; [|done].
      destruct (Hloaded g records Hg Hld) as (it' & Hit' & _ & Hrecords).
      rewrite Hit in Hit'. injection Hit' as <-.
      split; [by destruct records|].
      intros r [Hr|Hr]%elem_of_app; [by apply Hrecords|by apply Hnew].
    + intros g0 records [->|Hg0]%elem_of_insert_inv; [done|by apply Hloaded].
    + intros g0 it0 [->|Hg0]%elem_of_insert_inv; [by apply (Huint g)|by apply Huint].
  - destruct (Error it) as [e|] eqn:Herr; injection Hstep as <- <-;
      (split; simpl; [done| |]).
    + intros g0 records [->|Hg0]%elem_of_insert_inv; [done|by apply Hloaded].
    + intros g0 it0 [->|Hg0]%elem_of_insert_inv; [by apply (Huint g)|by apply Huint].
    + intros g0 records [->|Hg0]%elem_of_insert_inv; [|by apply Hloaded].
      simpl. intros [= Hl]. exists it. split; [done|]. by apply Hstored.
    + intros g0 it0 [->|Hg0]%elem_of_insert_inv; [by apply (Huint g)|by apply Huint].
Qed.

Lemma runSchedule_keyInv st interleaving :
  KeyInv codec st → KeyInv codec (runSchedule codec st interleaving).
Proof.
  revert st. induction interleaving as [|i rest IH]; intros st Hinv; [done|].
  simpl. by apply IH, schedule_keyInv.
Qed.

Lemma keyed_history asyncFeeMap entries :
  (∀ key records, asyncFeeMap !! key = Some records → keyedBy codec key records) →
  entries ≡ₚ map_to_list asyncFeeMap →
  ∃ h, reshape codec entries = Some h ∧
       ∀ a bn records r,
         recordsUnder h a bn = Some records → r ∈ records → BlockNumber r = bn.
Proof.
  intros Hkeyed Hentries.
  assert (Hin : ∀ key l, (key, l) ∈ entries ↔ asyncFeeMap !! key = Some l).
  { intros key l. by rewrite Hentries, elem_of_map_to_list. }
  destruct (reshape_spec entries) as (h & Hh & Hrec & _).
  - intros key l Hkl%Hin. destruct (Hkeyed key l Hkl) as [Hne Hall].
    destruct l as [|r l]; [done|].
    destruct (Hall r) as (Hbn & a & ->); [left|]. eauto.
  - rewrite Hentries. apply NoDup_fst_map_to_list.
  - exists h. split; [done|].
    intros a bn records r Hrecords%Hrec%Hin Hr.
    destruct (Hkeyed _ _ Hrecords) as [_ Hall].
    destruct (Hall r Hr) as (_ & a' & Heq).
    by apply eventKey_inj in Heq as [_ ->].
Qed.

End WithCodec.

(** ** The example codec and chain *)

Lemma hex_string_no_dash d :
  contains "-" (HexadecimalString.NilEmpty.string_of_uint d) = false.
Proof. induction d; simpl; done. Qed.

Lemma lowerHex_laws : AddressCodecLaws lowerHex.
Proof.
  split; intros a; cbn [lowerHex Hex HexToAddress].
  - change ("0x" +:+ ?s) with (String "0" (String "x" s)). cbv beta iota.
    by rewrite HexadecimalString.NilEmpty.usu, HexadecimalN.Unsigned.of_to.
  - apply hex_string_no_dash.
Qed.

Lemma exampleChain_uint64 : blockNumbersAreUint64 exampleChain.
Proof.
  intros chainID a opts log it. unfold exampleChain.
  destruct ((chainID =? 1)%N && (a =? 161)%N);
    [|destruct ((chainID =? 1)%N && (a =? 178)%N); [|done]];
    intros [= <-] Hit;
    repeat (apply elem_of_cons in Hit as [->|Hit]; [by vm_compute|]);
    by apply elem_of_nil in Hit.
Qed.

Lemma exampleVaults_keyed : keyedByAddress exampleVaults.
Proof.
  intros a v. unfold exampleVaults.
  rewrite !lookup_insert_Some, lookup_empty.
  by intros [[<- <-]|[_ [[<- <-]|[_ [[<- <-]|[_ ?]]]]]].
Qed.

(** Why the vaults must be held under their own addresses: when two
    entries of the map carry the same address, two goroutines write under the
    same keys, a [Load] of one can fall between the [Load] and the [Store] of
    the other, and the record of the first is lost. *)
Example shared_address_loses_updates :
  let vaults : gmap Address TVault :=
    <[161%N := exampleVault 161]> (<[178%N := exampleVault 161]> ∅) in
  ¬ keyedByAddress vaults ∧
  ∃ result1 result2,
    HandleUpdateManagementFee lowerHex exampleChain 1 vaults 0 None result1 ∧
    HandleUpdateManagementFee lowerHex exampleChain 1 vaults 0 None result2 ∧
    result1 ≠ result2.
Proof.
  intros vaults. split.
  - intros Hkeyed. by specialize (Hkeyed 178%N (exampleVault 161) eq_refl).
  - eexists _, _. split_and!.
    + apply (Handle_returns lowerHex exampleChain 1 vaults 0 None
               [exampleVault 161; exampleVault 161]
               [0; 0; 0; 0; 0; 0; 1; 1; 1; 1; 1; 1]).
      * apply (bool_decide_unpack _). by vm_compute.
      * apply (bool_decide_unpack _). by vm_compute.
      * reflexivity.
    + apply (Handle_returns lowerHex exampleChain 1 vaults 0 None
               [exampleVault 161; exampleVault 161]
               [0; 1; 0; 1; 0; 1; 0; 1; 0; 1; 0; 1]).
      * apply (bool_decide_unpack _). by vm_compute.
      * apply (bool_decide_unpack _). by vm_compute.
      * reflexivity.
    + intros Heq. apply (bool_decide_pack _) in Heq. by vm_compute in Heq.
Qed.

(** ** The claims on the event history *)

(** C4. Whatever the order in which the vaults are ranged over, the way the
    goroutines interleave and the order in which [Range] visits the shared
    map, the function returns the same event history: two runs on the same
    vaults give equal results. The vaults are held under their own
    addresses. *)
Theorem event_history_order_independent (codec : AddressCodec)
    (chain : ChainLogs) (chainID : N) (vaults : gmap Address TVault)
    (start : N) (end_ : option N) (result1 result2 : option EventHistory) :
  AddressCodecLaws codec →
  blockNumbersAreUint64 chain →
  keyedByAddress vaults →
  HandleUpdateManagementFee codec chain chainID vaults start end_ result1 →
  HandleUpdateManagementFee codec chain chainID vaults start end_ result2 →
  result1 = result2 ∧
  ∃ h, result1 = Some h ∧ eventHistorySpec chain chainID start end_ vaults h.
Proof.
  intros laws Huint Hkeyed Hrun1 Hrun2.
  destruct (Handle_spec codec laws _ _ _ _ _ _ Huint Hkeyed Hrun1) as (h1 & -> & Hh1).
  destruct (Handle_spec codec laws _ _ _ _ _ _ Huint Hkeyed Hrun2) as (h2 & -> & Hh2).
  split; [|by exists h1]. f_equal. by eapply eventHistorySpec_unique.
Qed.

Lemma event_history_order_independent_witness :
  reshape lowerHex
    (map_to_list (asyncManagementFeeUpdate
       (runSchedule lowerHex
          (spawn exampleChain 1
             [exampleVault 161; exampleVault 178; exampleVault 195] 0 None)
          [0; 0; 0; 0; 0; 0; 1; 1]))) =
  reshape lowerHex
    (reverse (map_to_list (asyncManagementFeeUpdate
       (runSchedule lowerHex
          (spawn exampleChain 1
             [exampleVault 195; exampleVault 178; exampleVault 161] 0 None)
          [2; 1; 2; 1; 2; 2; 2; 2; 0])))).
Proof.
  refine (proj1 (event_history_order_independent lowerHex exampleChain 1
            exampleVaults 0 None _ _ lowerHex_laws exampleChain_uint64
            exampleVaults_keyed _ _)).
  - apply (Handle_returns lowerHex exampleChain 1 exampleVaults 0 None
             [exampleVault 161; exampleVault 178; exampleVault 195]
             [0; 0; 0; 0; 0; 0; 1; 1]).
    + apply (bool_decide_unpack _). by vm_compute.
    + apply (bool_decide_unpack _). by vm_compute.
    + reflexivity.
  - apply (Handle_returns lowerHex exampleChain 1 exampleVaults 0 None
             [exampleVault 195; exampleVault 178; exampleVault 161]
             [2; 1; 2; 1; 2; 2; 2; 2; 0]).
    + apply (bool_decide_unpack _). by vm_compute.
    + apply (bool_decide_unpack _). by vm_compute.
    + apply reverse_Permutation.
Defined.

(** C8. Every record of the shared map sits under a key made from its own
    block number, at every moment of every run; and in the history
    returned, every record under (vaultAddress, blockNumber) has that
    block number. *)
Theorem block_number_matches_key (codec : AddressCodec) (chain : ChainLogs)
    (chainID : N) (vaults : gmap Address TVault) (start : N) (end_ : option N) :
  AddressCodecLaws codec →
  blockNumbersAreUint64 chain →
  (∀ vaultOrder interleaving key records r,
     asyncManagementFeeUpdate
       (runSchedule codec (spawn chain chainID vaultOrder start end_) interleaving)
       !! key = Some records →
     r ∈ records →
     ∃ a, key = eventKey codec a (BlockNumber r)) ∧
  (∀ result,
     HandleUpdateManagementFee codec chain chainID vaults start end_ result →
     ∃ h, result = Some h ∧
          ∀ a bn records r,
            recordsUnder h a bn = Some records → r ∈ records →
            BlockNumber r = bn).
Proof.
  intros laws Huint.
  assert (Hinv : ∀ vaultOrder interleaving,
    KeyInv codec
      (runSchedule codec (spawn chain chainID vaultOrder start end_) interleaving)).
  { intros. by apply runSchedule_keyInv, spawn_keyInv. }
  split.
  - intros vaultOrder interleaving key records r Hkey Hr.
    destruct (key_stored _ _ (Hinv vaultOrder interleaving) key records Hkey)
      as [_ Hall].
    by destruct (Hall r Hr) as [_ ?].
  - intros result [vaultOrder interleaving entries _ _ Hentries].
    eapply (keyed_history codec laws); [|done].
    apply (key_stored _ _ (Hinv vaultOrder interleaving)).
Qed.

Lemma block_number_matches_key_witness :
  ∃ a, "0xa1-12"%string =
       eventKey lowerHex a (BlockNumber (blockData (Event (feeEvent 12 3 100)))).
Proof.
  refine (proj1 (block_number_matches_key lowerHex exampleChain 1 exampleVaults
                   0 None lowerHex_laws exampleChain_uint64)
            [exampleVault 161; exampleVault 178] [0; 1; 0; 1; 0; 0]
            "0xa1-12"%string _ _ _ _).
  - vm_compute. reflexivity.
  - right. left.
Defined.

(** C9. The call always returns an event history, never an error. A vault
    whose log query fails has no entry in it, and the history is the one
    the other vaults alone would give. *)
Theorem failed_query_contributes_nothing (codec : AddressCodec)
    (chain : ChainLogs) (chainID : N) (vaults : gmap Address TVault)
    (start : N) (end_ : option N) :
  AddressCodecLaws codec →
  blockNumbersAreUint64 chain →
  keyedByAddress vaults →
  (∃ result, HandleUpdateManagementFee codec chain chainID vaults start end_ result) ∧
  ∀ result,
    HandleUpdateManagementFee codec chain chainID vaults start end_ result →
    ∃ h, result = Some h ∧
      ∀ a v e,
        vaults !! a = Some v →
        chain chainID a (filterOptsFor start end_ v) = Err e →
        h !! a = None ∧
        (∀ a' v' bn, a' ≠ a → vaults !! a' = Some v' →
           recordsUnder h a' bn =
           nonEmpty (recordsAt (logOf chain chainID start end_ v') bn)) ∧
        HandleUpdateManagementFee codec chain chainID (delete a vaults) start end_
          (Some h).
Proof.
  intros laws Huint Hkeyed. split; [apply Handle_returns_some|].
  intros result Hrun.
  destruct (Handle_spec codec laws _ _ _ _ _ _ Huint Hkeyed Hrun)
    as (h & -> & Hrec & Hne).
  exists h. split; [done|]. intros a v e Hv Hfail.
  assert (Hlog : logOf chain chainID start end_ v = []).
  { unfold logOf, filterUpdateManagementFee. simpl.
    by rewrite (Hkeyed _ _ Hv), Hfail. }
  assert (Hnone : h !! a = None).
  { destruct (h !! a) as [forVault|] eqn:Ha; [|done].
    destruct (Hne a forVault Ha) as [bn [l Hl]].
    assert (Hunder : recordsUnder h a bn = Some l)
      by (unfold recordsUnder; by rewrite Ha).
    apply Hrec in Hunder as (v' & Hv' & Hl').
    rewrite Hv in Hv'. injection Hv' as <-. by rewrite Hlog in Hl'. }
  split_and!; [done| |].
  - intros a' v' bn Hneq Hv'. apply option_eq. intros l. rewrite Hrec.
    split; [intros (v'' & Hv'' & ?); congruence|eauto].
  - assert (Hkeyed' : keyedByAddress (delete a vaults)).
    { intros a' v' [_ ?]%lookup_delete_Some. by apply Hkeyed. }
    destruct (Handle_returns_some codec chain chainID (delete a vaults) start end_)
      as [result' Hrun'].
    destruct (Handle_spec codec laws _ _ _ _ _ _ Huint Hkeyed' Hrun')
      as (h' & -> & Hspec').
    replace h with h'; [done|].
    eapply eventHistorySpec_unique; [done|]. split; [|done].
    intros a' bn l. rewrite Hrec. split.
    + intros (v' & Hv' & Hl). exists v'. split; [|done].
      apply lookup_delete_Some. split; [|done].
      intros <-. rewrite Hv in Hv'. injection Hv' as <-. by rewrite Hlog in Hl.
    + intros (v' & [_ Hv']%lookup_delete_Some & Hl). eauto.
Qed.

Lemma failed_query_contributes_nothing_witness :
  ∃ h,
    reshape lowerHex
      (map_to_list (asyncManagementFeeUpdate
         (runSchedule lowerHex
            (spawn exampleChain 1
               [exampleVault 161; exampleVault 178; exampleVault 195] 0 None)
            [0; 1; 0; 1; 0; 0; 0; 0]))) = Some h ∧
    h !! 195%N = None.
Proof.
  destruct (proj2 (failed_query_contributes_nothing lowerHex exampleChain 1
                     exampleVaults 0 None lowerHex_laws exampleChain_uint64
                     exampleVaults_keyed)
              (reshape lowerHex
                 (map_to_list (asyncManagementFeeUpdate
                    (runSchedule lowerHex
                       (spawn exampleChain 1
                          [exampleVault 161; exampleVault 178; exampleVault 195]
                          0 None)
                       [0; 1; 0; 1; 0; 0; 0; 0])))))
    as (h & Hh & Hfailed).
  - apply (Handle_returns lowerHex exampleChain 1 exampleVaults 0 None
             [exampleVault 161; exampleVault 178; exampleVault 195]
             [0; 1; 0; 1; 0; 0; 0; 0]).
    + apply (bool_decide_unpack _). by vm_compute.
    + apply (bool_decide_unpack _). by vm_compute.
    + reflexivity.
  - exists h. split; [exact Hh|].
    exact (proj1 (Hfailed 195%N (exampleVault 195) "429 Too Many Requests"
                    eq_refl eq_refl)).
Defined.

(** ** Further properties of the event history *)

Lemma Split_sep s sep :
  contains sep s = true → ∃ p1 p2 rest, Split s sep = p1 :: p2 :: rest.
Proof.
  induction s as [|c s IH]; simpl; [done|].
  destruct (decide (c = sep)) as [->|Hne].
  - intros _. destruct (Split s sep) as [|p ps] eqn:Hs.
    + by apply Split_nonempty in Hs.
    + by exists EmptyString, p, ps.
  - rewrite bool_decide_eq_false_2 by done. simpl. intros Hc.
    destruct (IH Hc) as (p1 & p2 & rest & ->). by eexists _, _, _.
Qed.

(** X1. The key of line 48 is read back by lines 118-120: for a block number
    within [uint64], the callback of [Range] files the records of the key
    [Hex(a)-blockNumber] under exactly [a] and [blockNumber]; and two keys are
    equal only when made from the same address and block number. *)
Theorem event_key_round_trip (codec : AddressCodec) (a : Address) (bn : N)
    (h : gmap Address (gmap N (list TEventBlock))) (records : list TEventBlock) :
  AddressCodecLaws codec →
  (bn ≤ maxUint64)%N →
  reshapeEntry codec (Some h) (eventKey codec a bn, records) =
    Some (<[a := <[bn := records]> (default ∅ (h !! a))]> h) ∧
  ∀ a' bn', eventKey codec a bn = eventKey codec a' bn' → a = a' ∧ bn = bn'.
Proof.
  intros laws Hbn. split.
  - unfold reshapeEntry. simpl.
    by rewrite (Split_eventKey codec laws), (HexToAddress_Hex codec laws),
      ParseUint_FormatUint.
  - intros a' bn'. by apply eventKey_inj.
Qed.

Lemma event_key_round_trip_witness :
  reshapeEntry lowerHex (Some ∅) (eventKey lowerHex 161 12, []) =
  Some (<[161%N := <[12%N := []]>
                     (default ∅ ((∅ : gmap Address (gmap N (list TEventBlock)))
                                 !! 161%N))]> ∅).
Proof.
  refine (proj1 (event_key_round_trip lowerHex 161 12 ∅ [] lowerHex_laws _)).
  by vm_compute.
Defined.

(** X2. The callback of [Range] panics, on [eventKey[1]], exactly when the
    key holds no [-]; with a [-] in the key it always files the entry. *)
Theorem reshape_panics_without_dash (codec : AddressCodec)
    (h : gmap Address (gmap N (list TEventBlock))) (key : string)
    (records : list TEventBlock) :
  reshapeEntry codec (Some h) (key, records) = None ↔ contains "-" key = false.
Proof.
  unfold reshapeEntry. simpl. split.
  - intros Hnone. destruct (contains "-" key) eqn:Hc; [|done].
    destruct (Split_sep key "-" Hc) as (p1 & p2 & rest & Hs).
    by rewrite Hs in Hnone.
  - intros Hc. by rewrite Split_no_sep.
Qed.

(** X3. Nothing is lost and nothing is invented: every entry of a vault's
    log that was read without error is in the history under its vault and
    block, and every record of the history is such an entry of that vault's
    log, with that block number. *)
Theorem history_holds_the_events (codec : AddressCodec) (chain : ChainLogs)
    (chainID : N) (vaults : gmap Address TVault) (start : N) (end_ : option N)
    (result : option (gmap Address (gmap N (list TEventBlock)))) :
  AddressCodecLaws codec →
  blockNumbersAreUint64 chain →
  keyedByAddress vaults →
  HandleUpdateManagementFee codec chain chainID vaults start end_ result →
  ∃ h, result = Some h ∧
    (∀ a v it,
       vaults !! a = Some v →
       it ∈ logOf chain chainID start end_ v → Error it = None →
       ∃ records,
         recordsUnder h a (LogBlockNumber (Raw (Event it))) = Some records ∧
         blockData (Event it) ∈ records) ∧
    (∀ a bn records r,
       recordsUnder h a bn = Some records → r ∈ records →
       ∃ v it,
         vaults !! a = Some v ∧ it ∈ logOf chain chainID start end_ v ∧
         Error it = None ∧ LogBlockNumber (Raw (Event it)) = bn ∧
         r = blockData (Event it)).
Proof.
  intros laws Huint Hkeyed Hrun.
  destruct (Handle_spec codec laws _ _ _ _ _ _ Huint Hkeyed Hrun)
    as (h & -> & Hrec & _).
  exists h. split; [done|]. split.
  - intros a v it Hv Hit Herr.
    assert (Hin : blockData (Event it) ∈
              recordsAt (logOf chain chainID start end_ v)
                (LogBlockNumber (Raw (Event it)))).
    { unfold recordsAt. apply list_elem_of_fmap. exists it. split; [done|].
      by apply list_elem_of_filter. }
    exists (recordsAt (logOf chain chainID start end_ v)
              (LogBlockNumber (Raw (Event it)))).
    split; [|done]. apply Hrec. exists v. split; [done|].
    apply nonEmpty_Some. split; [done|]. intros Hnil. rewrite Hnil in Hin.
    by apply elem_of_nil in Hin.
  - intros a bn records r Hunder Hr.
    apply Hrec in Hunder as (v & Hv & [<- _]%nonEmpty_Some).
    unfold recordsAt in Hr. apply list_elem_of_fmap in Hr as (it & -> & Hit).
    apply list_elem_of_filter in Hit as [[Herr Hbn] Hit].
    by exists v, it.
Qed.

Lemma history_holds_the_events_witness :
  ∃ h,
    reshape lowerHex
      (map_to_list (asyncManagementFeeUpdate
         (runSchedule lowerHex
            (spawn exampleChain 1
               [exampleVault 178; exampleVault 161; exampleVault 195] 0 None)
            [1; 0; 1; 0; 1; 1; 1; 1]))) = Some h ∧
    ∃ records, recordsUnder h 161%N 12%N = Some records ∧
               blockData (Event (feeEvent 12 3 100)) ∈ records.
Proof.
  destruct (history_holds_the_events lowerHex exampleChain 1 exampleVaults
              0 None
              (reshape lowerHex
                 (map_to_list (asyncManagementFeeUpdate
                    (runSchedule lowerHex
                       (spawn exampleChain 1
                          [exampleVault 178; exampleVault 161; exampleVault 195]
                          0 None)
                       [1; 0; 1; 0; 1; 1; 1; 1]))))
              lowerHex_laws exampleChain_uint64 exampleVaults_keyed)
    as (h & Hh & Hall & _).
  - apply (Handle_returns lowerHex exampleChain 1 exampleVaults 0 None
             [exampleVault 178; exampleVault 161; exampleVault 195]
             [1; 0; 1; 0; 1; 1; 1; 1]).
    + apply (bool_decide_unpack _). by vm_compute.
    + apply (bool_decide_unpack _). by vm_compute.
    + reflexivity.
  - exists h. split; [exact Hh|].
    apply (Hall 161%N (exampleVault 161) (feeEvent 12 3 100) eq_refl);
      [|reflexivity].
    right. left.
Defined.

(** X4. The history has no entry for an address exactly when no entry of
    that vault's log was read without error: the address is not among the
    vaults, its query failed, its log is empty, or every iterator state
    carried an error. A caller cannot tell these apart. *)
Theorem vault_absent_from_history (codec : AddressCodec) (chain : ChainLogs)
    (chainID : N) (vaults : gmap Address TVault) (start : N) (end_ : option N)
    (result : option (gmap Address (gmap N (list TEventBlock)))) :
  AddressCodecLaws codec →
  blockNumbersAreUint64 chain →
  keyedByAddress vaults →
  HandleUpdateManagementFee codec chain chainID vaults start end_ result →
  ∃ h, result = Some h ∧
    ∀ a, h !! a = None ↔
         ∀ v it, vaults !! a = Some v →
                 it ∈ logOf chain chainID start end_ v → Error it ≠ None.
Proof.
  intros laws Huint Hkeyed Hrun.
  destruct (Handle_spec codec laws _ _ _ _ _ _ Huint Hkeyed Hrun)
    as (h & -> & Hrec & Hne).
  exists h. split; [done|]. intros a. split.
  - intros Hnone v it Hv Hit Herr.
    assert (Hin : blockData (Event it) ∈
              recordsAt (logOf chain chainID start end_ v)
                (LogBlockNumber (Raw (Event it)))).
    { unfold recordsAt. apply list_elem_of_fmap. exists it. split; [done|].
      by apply list_elem_of_filter. }
    assert (Hunder : recordsUnder h a (LogBlockNumber (Raw (Event it))) =
              Some (recordsAt (logOf chain chainID start end_ v)
                      (LogBlockNumber (Raw (Event it))))).
    { apply Hrec. exists v. split; [done|]. apply nonEmpty_Some.
      split; [done|]. intros Hnil. rewrite Hnil in Hin.
      by apply elem_of_nil in Hin. }
    unfold recordsUnder in Hunder. by rewrite Hnone in Hunder.
  - intros Hall. destruct (h !! a) as [forVault|] eqn:Ha; [|done].
    destruct (Hne a forVault Ha) as [bn [records Hrecords]].
    assert (Hunder : recordsUnder h a bn = Some records)
      by (unfold recordsUnder; by rewrite Ha).
    apply Hrec in Hunder as (v & Hv & [<- Hnil]%nonEmpty_Some).
    destruct (recordsAt (logOf chain chainID start end_ v) bn) as [|r rs] eqn:Hr;
      [done|].
    assert (Hin : r ∈ recordsAt (logOf chain chainID start end_ v) bn)
      by (rewrite Hr; left).
    unfold recordsAt in Hin. apply list_elem_of_fmap in Hin as (it & _ & Hit).
    apply list_elem_of_filter in Hit as [[Herr _] Hit].
    by destruct (Hall v it Hv Hit).
Qed.

Lemma vault_absent_from_history_witness :
  ∃ h,
    reshape lowerHex
      (map_to_list (asyncManagementFeeUpdate
         (runSchedule lowerHex
            (spawn exampleChain 1
               [exampleVault 195; exampleVault 161; exampleVault 178] 0 None)
            [2; 1; 1; 2; 1; 1; 1; 1]))) = Some h ∧
    h !! 161%N ≠ None.
Proof.
  destruct (vault_absent_from_history lowerHex exampleChain 1 exampleVaults
              0 None
              (reshape lowerHex
                 (map_to_list (asyncManagementFeeUpdate
                    (runSchedule lowerHex
                       (spawn exampleChain 1
                          [exampleVault 195; exampleVault 161; exampleVault 178]
                          0 None)
                       [2; 1; 1; 2; 1; 1; 1; 1]))))
              lowerHex_laws exampleChain_uint64 exampleVaults_keyed)
    as (h & Hh & Hall).
  - apply (Handle_returns lowerHex exampleChain 1 exampleVaults 0 None
             [exampleVault 195; exampleVault 161; exampleVault 178]
             [2; 1; 1; 2; 1; 1; 1; 1]).
    + apply (bool_decide_unpack _). by vm_compute.
    + apply (bool_decide_unpack _). by vm_compute.
    + reflexivity.
  - exists h. split; [exact Hh|]. intros Hnone.
    apply (proj1 (Hall 161%N) Hnone (exampleVault 161) (feeEvent 12 0 200) eq_refl);
      [left|reflexivity].
Defined.

Lemma ended_schedule codec st i g :
  goroutines st !! i = Some g → ended g → schedule codec st i = st.
Proof.
  intros Hi Hg. unfold schedule, goroutineStep. rewrite Hi.
  unfold ended in Hg. by rewrite Hg.
Qed.

Lemma allEnded_schedule codec st i : allEnded st → schedule codec st i = st.
Proof.
  intros Hall. destruct (goroutines st !! i) as [g|] eqn:Hi.
  - apply (ended_schedule codec st i g Hi).
    by apply (proj1 (Forall_lookup _ _) Hall i g).
  - unfold schedule. by rewrite Hi.
Qed.

Lemma bounded_interleaving codec n st :
  (sum_list (remaining <$> goroutines st) ≤ n)%nat →
  ∃ interleaving,
    (length interleaving ≤ n)%nat ∧ allEnded (runSchedule codec st interleaving).
Proof.
  revert st. induction n as [|n IH]; intros st Hsum.
  - exists []. split; [done|]. simpl.
    destruct (decide (Forall ended (goroutines st))) as [Hall|Hnot]; [done|].
    apply not_Forall_Exists in Hnot; [|apply _].
    apply Exists_exists in Hnot as (g & [i Hi]%list_elem_of_lookup & Hg).
    pose proof (schedule_decreases codec st i g Hi Hg). lia.
  - destruct (decide (Forall ended (goroutines st))) as [Hall|Hnot].
    + exists []. split; [simpl; lia|done].
    + apply not_Forall_Exists in Hnot; [|apply _].
      apply Exists_exists in Hnot as (g & [i Hi]%list_elem_of_lookup & Hg).
      destruct (IH (schedule codec st i)) as (interleaving & Hlen & Hended).
      * pose proof (schedule_decreases codec st i g Hi Hg). lia.
      * exists (i :: interleaving). split; [simpl; lia|done].
Qed.

(** X5. The barrier is reached and is final. A step of a goroutine that has
    not ended uses up one of the steps left (two per unread iterator state);
    so some interleaving no longer than the steps left ends every
    goroutine, and once all have ended no step changes the shared map or
    any goroutine. *)
Theorem barrier_is_reached_and_final (codec : AddressCodec) (st : State) :
  (∀ i g, goroutines st !! i = Some g → ¬ ended g →
     (totalRemaining (schedule codec st i) < totalRemaining st)%nat) ∧
  (∃ interleaving,
     (length interleaving ≤ totalRemaining st)%nat ∧
     allEnded (runSchedule codec st interleaving)) ∧
  (allEnded st → ∀ interleaving, runSchedule codec st interleaving = st).
Proof.
  split_and!.
  - intros i g. apply schedule_decreases.
  - by apply bounded_interleaving.
  - intros Hall interleaving.
    induction interleaving as [|i rest IH]; [done|].
    change (runSchedule codec st (i :: rest))
      with (runSchedule codec (schedule codec st i) rest).
    by rewrite allEnded_schedule.
Qed.

Lemma schedule_load codec st i g it :
  goroutines st !! i = Some g → log g !! position g = Some it →
  loaded g = None → Error it = None →
  schedule codec st i =
  {| asyncManagementFeeUpdate := asyncManagementFeeUpdate st;
     goroutines :=
       <[i := {| vaultAddress := vaultAddress g; log := log g;
                 position := position g;
                 loaded := Some (asyncManagementFeeUpdate st !!
                   eventKey codec (vaultAddress g)
                     (LogBlockNumber (Raw (Event it)))) |}]> (goroutines st) |}.
Proof.
  intros Hi Hit Hld Herr. unfold schedule, goroutineStep.
  by rewrite Hi, Hit, Hld, Herr.
Qed.

Lemma schedule_store codec st i g it syncMap :
  goroutines st !! i = Some g → log g !! position g = Some it →
  loaded g = Some syncMap →
  schedule codec st i =
  {| asyncManagementFeeUpdate :=
       <[eventKey codec (vaultAddress g) (LogBlockNumber (Raw (Event it))) :=
           match syncMap with
           | Some records => records ++ [blockData (Event it)]
           | None => [blockData (Event it)]
           end]> (asyncManagementFeeUpdate st);
     goroutines :=
       <[i := {| vaultAddress := vaultAddress g; log := log g;
                 position := S (position g); loaded := None |}]> (goroutines st) |}.
Proof.
  intros Hi Hit Hld. unfold schedule, goroutineStep.
  by rewrite Hi, Hit, Hld.
Qed.

(** X6. [Load] and [Store] of lines 58-63 are two accesses, and nothing
    holds the key between them. When two goroutines work for the same
    address on entries of the same block, the record of the first survives
    if it stores before the second loads, and is overwritten if the second
    loads before the first stores. *)
Theorem load_store_is_not_atomic (codec : AddressCodec)
    (asyncFeeMap : gmap string (list TEventBlock)) (g0 g1 : Goroutine)
    (it0 it1 : IteratorState) :
  vaultAddress g0 = vaultAddress g1 →
  log g0 !! position g0 = Some it0 →
  log g1 !! position g1 = Some it1 →
  Error it0 = None → Error it1 = None →
  LogBlockNumber (Raw (Event it0)) = LogBlockNumber (Raw (Event it1)) →
  loaded g0 = None → loaded g1 = None →
  recordsAtKey
    (asyncManagementFeeUpdate
       (runSchedule codec
          {| asyncManagementFeeUpdate := asyncFeeMap; goroutines := [g0; g1] |}
          [0; 0; 1; 1]))
    (eventKey codec (vaultAddress g0) (LogBlockNumber (Raw (Event it0)))) =
  recordsAtKey asyncFeeMap
    (eventKey codec (vaultAddress g0) (LogBlockNumber (Raw (Event it0)))) ++
  [blockData (Event it0); blockData (Event it1)] ∧
  recordsAtKey
    (asyncManagementFeeUpdate
       (runSchedule codec
          {| asyncManagementFeeUpdate := asyncFeeMap; goroutines := [g0; g1] |}
          [0; 1; 0; 1]))
    (eventKey codec (vaultAddress g0) (LogBlockNumber (Raw (Event it0)))) =
  recordsAtKey asyncFeeMap
    (eventKey codec (vaultAddress g0) (LogBlockNumber (Raw (Event it0)))) ++
  [blockData (Event it1)].
Proof.
  intros Ha H0 H1 He0 He1 Hbn Hl0 Hl1.
  set (key := eventKey codec (vaultAddress g0) (LogBlockNumber (Raw (Event it0)))).
  assert (Hkey1 : eventKey codec (vaultAddress g1)
                    (LogBlockNumber (Raw (Event it1))) = key).
  { unfold key. by rewrite Ha, Hbn. }
  unfold runSchedule, recordsAtKey. simpl. split.
  - erewrite (schedule_load codec (Build_State _ _) 0 g0 it0); [|reflexivity|done..]. simpl.
    erewrite (schedule_store codec (Build_State _ _) 0 _ it0 (asyncFeeMap !! key));
      [|reflexivity|done..]. simpl.
    erewrite (schedule_load codec (Build_State _ _) 1 g1 it1); [|reflexivity|done..]. simpl.
    erewrite (schedule_store codec (Build_State _ _) 1 _ it1); [|reflexivity|done..]. simpl.
    rewrite Hkey1. rewrite !lookup_insert_eq. simpl.
    destruct (asyncFeeMap !! key); simpl; [by rewrite <-app_assoc|done].
  - erewrite (schedule_load codec (Build_State _ _) 0 g0 it0); [|reflexivity|done..]. simpl.
    erewrite (schedule_load codec (Build_State _ _) 1 g1 it1); [|reflexivity|done..]. simpl.
    erewrite (schedule_store codec (Build_State _ _) 0 _ it0 (asyncFeeMap !! key));
      [|reflexivity|done..]. simpl.
    erewrite (schedule_store codec (Build_State _ _) 1 _ it1); [|reflexivity|done..]. simpl.
    rewrite Hkey1. rewrite !lookup_insert_eq. simpl.
    by destruct (asyncFeeMap !! key).
Qed.

Lemma load_store_is_not_atomic_witness :
  recordsAtKey
    (asyncManagementFeeUpdate
       (runSchedule lowerHex
          (spawn exampleChain 1 [exampleVault 178; exampleVault 178] 0 None)
          [0; 1; 0; 1]))
    (eventKey lowerHex 178 12) =
  recordsAtKey ∅ (eventKey lowerHex 178 12) ++ [blockData (Event (feeEvent 12 7 300))].
Proof.
  exact (proj2 (load_store_is_not_atomic lowerHex ∅
                  (filterUpdateManagementFee exampleChain 1 178
                     (filterOptsFor 0 None (exampleVault 178)))
                  (filterUpdateManagementFee exampleChain 1 178
                     (filterOptsFor 0 None (exampleVault 178)))
                  (feeEvent 12 7 300) (feeEvent 12 7 300)
                  eq_refl eq_refl eq_refl eq_refl eq_refl eq_refl eq_refl eq_refl)).
Defined.

(** X7. A goroutine writes only under keys of its own vault: a step of
    goroutine [i] leaves every entry of the shared map alone except the one
    under the key of its vault's address and the block of the entry it is
    at; in particular it never touches a key made from another address. *)
Theorem goroutine_keeps_to_its_keys (codec : AddressCodec) (st : State)
    (i : nat) (key : string) :
  asyncManagementFeeUpdate (schedule codec st i) !! key ≠
    asyncManagementFeeUpdate st !! key →
  ∃ g it,
    goroutines st !! i = Some g ∧ log g !! position g = Some it ∧
    key = eventKey codec (vaultAddress g) (LogBlockNumber (Raw (Event it))) ∧
    (AddressCodecLaws codec →
     ∀ a bn, key = eventKey codec a bn → a = vaultAddress g).
Proof.
  unfold schedule, goroutineStep. intros Hchange.
  destruct (goroutines st !! i) as [g|] eqn:Hi; [|done].
  destruct (log g !! position g) as [it|] eqn:Hit; [|done].
  exists g, it. split; [done|]. split; [done|].
  assert (Hkey : key = eventKey codec (vaultAddress g)
                         (LogBlockNumber (Raw (Event it)))).
  { destruct (loaded g) as [syncMap|]; simpl in Hchange.
    - destruct (decide (key = eventKey codec (vaultAddress g)
                              (LogBlockNumber (Raw (Event it))))); [done|].
      by rewrite lookup_insert_ne in Hchange.
    - by destruct (Error it). }
  split; [done|]. intros laws a bn Heq. rewrite Hkey in Heq.
  symmetry. by apply (eventKey_inj codec laws) in Heq as [? _].
Qed.

Lemma goroutine_keeps_to_its_keys_witness :
  ∃ g it,
    goroutines
      (runSchedule lowerHex
         (spawn exampleChain 1 [exampleVault 161; exampleVault 178] 0 None) [1])
      !! 1%nat = Some g ∧
    log g !! position g = Some it ∧
    "0xb2-12"%string =
      eventKey lowerHex (vaultAddress g) (LogBlockNumber (Raw (Event it))) ∧
    (AddressCodecLaws lowerHex →
     ∀ a bn, "0xb2-12"%string = eventKey lowerHex a bn → a = vaultAddress g).
Proof.
  apply (goroutine_keeps_to_its_keys lowerHex
           (runSchedule lowerHex
              (spawn exampleChain 1 [exampleVault 161; exampleVault 178] 0 None)
              [1])
           1 "0xb2-12"%string).
  by vm_compute.
Defined.

(** X8. With the vaults held under their own addresses, records are only
    ever appended: in every state a call can be in, a step leaves the
    records under each key as they are or adds one record at their end. *)
Theorem records_are_only_appended (codec : AddressCodec) (chain : ChainLogs)
    (chainID : N) (vaults : gmap Address TVault) (start : N) (end_ : option N)
    (st : State) (i : nat) (key : string) :
  AddressCodecLaws codec →
  keyedByAddress vaults →
  reachable codec chain chainID vaults start end_ st →
  ∃ added,
    recordsAtKey (asyncManagementFeeUpdate (schedule codec st i)) key =
    recordsAtKey (asyncManagementFeeUpdate st) key ++ added ∧
    (length added ≤ 1)%nat.
Proof.
  intros laws Hkeyed (vaultOrder & interleaving & Horder & ->).
  set (st := runSchedule _ _ _).
  assert (Hinv : StateInv codec st).
  { apply (runSchedule_inv codec laws), spawn_inv.
    by eapply keyedByAddress_NoDup. }
  assert (Hsame : ∀ st', asyncManagementFeeUpdate st' = asyncManagementFeeUpdate st →
            ∃ added,
              recordsAtKey (asyncManagementFeeUpdate st') key =
              recordsAtKey (asyncManagementFeeUpdate st) key ++ added ∧
              (length added ≤ 1)%nat).
  { intros st' ->. exists []. split; [by rewrite app_nil_r|simpl; lia]. }
  destruct (goroutines st !! i) as [g|] eqn:Hi;
    [|apply Hsame; unfold schedule; by rewrite Hi].
  destruct (log g !! position g) as [it|] eqn:Hit;
    [|apply Hsame; unfold schedule, goroutineStep; by rewrite Hi, Hit].
  destruct (loaded g) as [syncMap|] eqn:Hld.
  - rewrite (schedule_store codec st i g it syncMap) by done. simpl.
    pose proof (Forall_lookup_1 _ _ _ _ (inv_goroutines _ _ Hinv) Hi)
      as [_ Hloaded].
    destruct (Hloaded _ Hld) as (it' & Hit' & _ & ->).
    rewrite Hit in Hit'. injection Hit' as <-.
    unfold recordsAtKey.
    destruct (decide (key = eventKey codec (vaultAddress g)
                              (LogBlockNumber (Raw (Event it))))) as [->|Hne].
    + rewrite lookup_insert_eq. exists [blockData (Event it)].
      split; [|done]. by destruct (asyncManagementFeeUpdate st !! _).
    + rewrite lookup_insert_ne by done. exists [].
      split; [by rewrite app_nil_r|simpl; lia].
  - apply Hsame. unfold schedule, goroutineStep. rewrite Hi, Hit, Hld.
    by destruct (Error it).
Qed.

Lemma records_are_only_appended_witness :
  ∃ added,
    recordsAtKey
      (asyncManagementFeeUpdate
         (schedule lowerHex
            (runSchedule lowerHex
               (spawn exampleChain 1
                  [exampleVault 161; exampleVault 178; exampleVault 195] 0 None)
               [0; 0; 0]) 0))
      "0xa1-12" =
    recordsAtKey
      (asyncManagementFeeUpdate
         (runSchedule lowerHex
            (spawn exampleChain 1
               [exampleVault 161; exampleVault 178; exampleVault 195] 0 None)
            [0; 0; 0]))
      "0xa1-12" ++ added ∧
    (length added ≤ 1)%nat.
Proof.
  apply (records_are_only_appended lowerHex exampleChain 1 exampleVaults 0 None
           _ 0 "0xa1-12" lowerHex_laws exampleVaults_keyed).
  exists [exampleVault 161; exampleVault 178; exampleVault 195], [0; 0; 0]%nat.
  split; [|reflexivity].
  apply (bool_decide_unpack _). by vm_compute.
Defined.

End EventsProps.

(** * Further properties of package apr *)
Module APRExtra.
Import APR APRProps APRVersion APRSpec.
Local Open Scope Qc_scope.

(** ** isV3Vault *)

Lemma Split_cons s sep p ps :
  Events.Split s sep = p :: ps →
  Events.contains sep p = false ∧
  ((ps = [] ∧ s = p) ∨ ∃ rest, s = p +:+ String sep rest).
Proof.
  revert p ps. induction s as [|c s IH]; intros p ps; simpl.
  - intros [= <- <-]. split; [done|by left].
  - destruct (decide (c = sep)) as [->|Hne].
    + intros [= <- <-]. split; [done|]. right. by exists s.
    + destruct (Events.Split s sep) as [|q qs] eqn:Hs.
      { by apply EventsProps.Split_nonempty in Hs. }
      intros [= <- <-]. destruct (IH q qs eq_refl) as [Hq Hcases]. split.
      * simpl. by rewrite bool_decide_eq_false_2.
      * destruct Hcases as [[-> ->]|[rest ->]]; [by left|].
        right. by exists rest.
Qed.

(** X9. [isV3Vault] never panics; it holds for every vault of kind Multiple
    or Single whatever its version; and for a vault of another kind it holds
    exactly when the version is [3] or [~3] alone or followed by a dot. *)
Theorem isV3Vault_by_kind_or_major_version (vault : TVault) :
  (∃ b, isV3Vault vault = Some b) ∧
  (Kind vault = VaultKindMultiple ∨ Kind vault = VaultKindSingle →
   isV3Vault vault = Some true) ∧
  (Kind vault = VaultKindOther →
   (isV3Vault vault = Some true ↔
    Version vault = "3" ∨ Version vault = "~3" ∨
    ∃ rest, Version vault = "3." +:+ rest ∨ Version vault = "~3." +:+ rest)).
Proof.
  unfold isV3Vault.
  destruct (Events.Split (Version vault) ".") as [|major pieces] eqn:Hs.
  { by apply EventsProps.Split_nonempty in Hs. }
  split_and!.
  - by eexists.
  - by intros [->| ->].
  - intros ->. simpl.
    destruct (Split_cons _ _ _ _ Hs) as [Hmajor Hcases]. split.
    + intros [= Hb]. apply orb_true_iff in Hb as [Hb|Hb];
        apply bool_decide_eq_true in Hb as ->;
        (destruct Hcases as [[_ ->]|[rest ->]];
         [by auto|right; right; exists rest; by auto]).
    + intros Hv. f_equal. apply orb_true_iff.
      destruct Hv as [Hv|[Hv|[rest [Hv|Hv]]]]; rewrite Hv in Hs;
        [left|right|left|right]; apply bool_decide_eq_true.
      * by injection Hs as <-.
      * by injection Hs as <-.
      * change ("3." +:+ rest) with ("3" +:+ String "." rest) in Hs.
        rewrite EventsProps.Split_app in Hs by done. by injection Hs as <-.
      * change ("~3." +:+ rest) with ("~3" +:+ String "." rest) in Hs.
        rewrite EventsProps.Split_app in Hs by done. by injection Hs as <-.
Qed.

(** ** Vaults of other kinds *)

Lemma convertFloatAPRToAPY_0 :
  SetFloat64 (convertFloatAPRToAPY (Float64 0) 52) = Rational 0.
Proof.
  change (Float64 0) with (F64 0). rewrite convertFloatAPRToAPY_52.
  assert (H0 : (1 + 0 / Qc_of_Z 52) ^ 52 - 1 = 0) by (by apply Qc_is_canon).
  by rewrite H0.
Qed.

(** X10. For a vault that is not of kind Multiple no strategy is queried
    and the debt-ratio APR is zero: the composite reports a debt-ratio APY
    of zero, and when the vault is flagged [ShouldUseV2APR] its net APY is
    zero whatever the oracle answers. *)
Theorem other_kinds_report_zero_debt_ratio_apy (env : Env) (vault : TVault)
    (strategies : list TStrategy) (chain : TChain) (oracle : OracleCaller) :
  GetChain env (ChainID vault) = Some chain →
  APROracleContractAddress chain ≠ zeroAddress →
  NewYVaultsV3APROracleCaller env (APROracleContractAddress chain)
    (ChainID vault) = Ok oracle →
  Kind vault ≠ VaultKindMultiple →
  (computeVaultV3ForwardAPY env vault strategies).2 =
    (oracleAPRStage oracle vault).2 ∧
  V3OracleStratRatioAPR
    (Composite (computeVaultV3ForwardAPY env vault strategies).1) =
    Some (Rational 0) ∧
  (ShouldUseV2APR (Metadata vault) = true →
   NetAPY (computeVaultV3ForwardAPY env vault strategies).1 = Some (Rational 0)).
Proof.
  intros Hchain Haddr Horacle Hkind.
  rewrite (computeVaultV3ForwardAPY_available _ _ _ chain oracle) by done.
  assert (Hstage : debtRatioAPRStage oracle vault strategies = (0, [])).
  { unfold debtRatioAPRStage. rewrite bool_decide_eq_false_2 by done.
    by rewrite NewFloat_0. }
  rewrite Hstage. unfold buildForwardAPY.
  cbn [fst snd NetAPY Composite V3OracleStratRatioAPR]. split_and!.
  - by rewrite app_nil_r.
  - by rewrite convertFloatAPRToAPY_0.
  - intros ->. cbv iota. by rewrite convertFloatAPRToAPY_0.
Qed.

Lemma other_kinds_report_zero_debt_ratio_apy_witness :
  NetAPY (computeVaultV3ForwardAPY scenarioEnv
            (vaultOn 1 VaultKindSingle (Some 1000%Z) true)
            [strategyA; strategyB]).1 = Some (Rational 0).
Proof.
  refine (proj2 (proj2 (other_kinds_report_zero_debt_ratio_apy scenarioEnv
            (vaultOn 1 VaultKindSingle (Some 1000%Z) true)
            [strategyA; strategyB] {| APROracleContractAddress := 7 |}
            scenarioOracle _ _ _ _)) _); by vm_compute.
Defined.

(** ** When the result is empty *)

(** X11. The function returns the zero value [TForwardAPY{}] exactly when
    the chain is unknown, its oracle address is the zero address, or the
    oracle client cannot be built; in every other case the result carries
    the type [v3:onchainOracle] and all three APYs. *)
Theorem result_is_empty_iff_no_oracle (env : Env) (vault : TVault)
    (strategies : list TStrategy) :
  ((computeVaultV3ForwardAPY env vault strategies).1 = emptyForwardAPY ↔
   GetChain env (ChainID vault) = None ∨
   ∃ chain, GetChain env (ChainID vault) = Some chain ∧
     (APROracleContractAddress chain = zeroAddress ∨
      ∃ e, NewYVaultsV3APROracleCaller env (APROracleContractAddress chain)
             (ChainID vault) = Err e)) ∧
  ((computeVaultV3ForwardAPY env vault strategies).1 ≠ emptyForwardAPY →
   Type_ (computeVaultV3ForwardAPY env vault strategies).1 = "v3:onchainOracle" ∧
   is_Some (NetAPY (computeVaultV3ForwardAPY env vault strategies).1) ∧
   is_Some (V3OracleCurrentAPR
              (Composite (computeVaultV3ForwardAPY env vault strategies).1)) ∧
   is_Some (V3OracleStratRatioAPR
              (Composite (computeVaultV3ForwardAPY env vault strategies).1))).
Proof.
  split.
  - split.
    + intros Hempty.
      destruct (GetChain env (ChainID vault)) as [chain|] eqn:Hchain; [|by left].
      right. exists chain. split; [done|].
      destruct (decide (APROracleContractAddress chain = zeroAddress)) as [|Hz];
        [by left|right].
      destruct (NewYVaultsV3APROracleCaller env (APROracleContractAddress chain)
                  (ChainID vault)) as [oracle|e] eqn:Hnew; [|by exists e].
      by rewrite (computeVaultV3ForwardAPY_available _ _ _ chain oracle) in Hempty.
    + intros Hun.
      by destruct (computeVaultV3ForwardAPY_unavailable env vault strategies Hun)
        as (log & -> & _).
  - intros Hne.
    destruct (computeVaultV3ForwardAPY_cases env vault strategies)
      as [Hempty|[oracle ->]]; [done|].
    simpl. by split_and!.
Qed.

(** ** The oracle APR *)

(** X12. When the first call fails or answers zero, the oracle APR is what
    [GetCurrentApr] answers, normalised at 18 decimals, and zero when that
    call fails: an answer of zero from [GetStrategyApr] is never reported as
    such when [GetCurrentApr] has another. *)
Theorem fallback_answer_is_the_oracle_apr (oracle : OracleCaller) (vault : TVault) :
  (∃ e, GetStrategyApr oracle (VaultAddress vault) 0 = Err e) ∨
  GetStrategyApr oracle (VaultAddress vault) 0 = Ok 0%Z →
  (∀ fallback, GetCurrentApr oracle (VaultAddress vault) = Ok fallback →
     (oracleAPRStage oracle vault).1 = ToNormalizedAmount fallback 18) ∧
  (∀ e, GetCurrentApr oracle (VaultAddress vault) = Err e →
     (oracleAPRStage oracle vault).1 = 0).
Proof.
  intros Hfirst. rewrite oracleAPRStage_fallback by done. simpl.
  split; by intros ? ->.
Qed.

Lemma fallback_answer_is_the_oracle_apr_witness :
  (oracleAPRStage
     {| GetStrategyApr := λ _ _, Ok 0%Z; GetCurrentApr := λ _, Ok (5 * 10 ^ 16)%Z |}
     (vaultOn 1 VaultKindSingle None false)).1 =
  ToNormalizedAmount (5 * 10 ^ 16) 18.
Proof.
  refine (proj1 (fallback_answer_is_the_oracle_apr
            {| GetStrategyApr := λ _ _, Ok 0%Z;
               GetCurrentApr := λ _, Ok (5 * 10 ^ 16)%Z |}
            (vaultOn 1 VaultKindSingle None false) _) (5 * 10 ^ 16)%Z _).
  - by right.
  - reflexivity.
Defined.

(** ** The queries of the loop over the strategies *)

Lemma debtRatioLoop_effects oracle strategies debtRatioAPR :
  filter isOracleCall (debtRatioLoop oracle strategies debtRatioAPR).2 =
    queriesFor (filter hasDebt strategies) ∧
  filter (λ e, isOracleCall e = false)
    (debtRatioLoop oracle strategies debtRatioAPR).2 =
    queryErrors oracle (filter hasDebt strategies).
Proof.
  revert debtRatioAPR.
  induction strategies as [|s rest IH]; intros acc; [done|].
  simpl. rewrite filter_cons.
  destruct (decide (hasDebt s)) as [Hs|Hs].
  - unfold hasDebt, isNilOrZero in Hs.
    destruct (LastDebtRatio s) as [d|] eqn:Hd; [|done].
    rewrite Hs. rewrite bind_call_strategy. simpl.
    rewrite filter_cons_True by done.
    rewrite (filter_cons_False (λ e, isOracleCall e = false)) by done.
    destruct (GetStrategyApr oracle (StrategyAddress s) 0) as [x|e] eqn:Hcall.
    + destruct (IH (acc + ToNormalizedAmount x 18 * ToNormalizedAmount d 4 *
                          performanceFeeRatio s)) as [IH1 IH2].
      rewrite IH1, IH2. split; [done|]. unfold queryErrors. simpl.
      by rewrite ?Hcall.
    + rewrite bind_emit. simpl. destruct (IH acc) as [IH1 IH2].
      rewrite filter_cons_False by (by intros ?).
      rewrite (filter_cons_True (λ e, isOracleCall e = false)) by done.
      rewrite IH1, IH2. split; [done|]. unfold queryErrors. simpl.
      by rewrite ?Hcall.
  - unfold hasDebt, isNilOrZero in Hs.
    destruct (LastDebtRatio s) as [d|] eqn:Hd; [|apply IH].
    apply not_false_is_true in Hs. rewrite Hs. apply IH.
Qed.

(** X13. In a vault of kind Multiple with assets, the strategies queried
    are those whose debt ratio is neither null nor zero, each once, in the
    order of the loop; a strategy with a null or zero debt ratio is never
    queried. Each query that fails logs its error once, and the loop goes
    on. *)
Theorem strategies_queried_with_assets (oracle : OracleCaller) (vault : TVault)
    (strategies : list TStrategy) :
  Kind vault = VaultKindMultiple →
  isNilOrZero (LastTotalAssets vault) = false →
  filter isOracleCall (debtRatioAPRStage oracle vault strategies).2 =
    queriesFor (filter hasDebt strategies) ∧
  filter (λ e, isOracleCall e = false)
    (debtRatioAPRStage oracle vault strategies).2 =
    queryErrors oracle (filter hasDebt strategies).
Proof.
  intros Hkind Hassets. unfold debtRatioAPRStage.
  rewrite bool_decide_eq_true_2, Hassets by done.
  rewrite bind_snd. simpl. rewrite app_nil_r.
  apply debtRatioLoop_effects.
Qed.

Lemma strategies_queried_with_assets_witness :
  filter isOracleCall
    (debtRatioAPRStage scenarioOracle
       (vaultOn 1 VaultKindMultiple (Some 1000%Z) false)
       [strategyA;
        {| StrategyAddress := 3; LastDebtRatio := Some 0%Z; LastPerformanceFee := 0 |};
        strategyB]).2 =
  queriesFor [strategyA; strategyB].
Proof.
  exact (proj1 (strategies_queried_with_assets scenarioOracle
                  (vaultOn 1 VaultKindMultiple (Some 1000%Z) false)
                  [strategyA;
                   {| StrategyAddress := 3; LastDebtRatio := Some 0%Z;
                      LastPerformanceFee := 0 |};
                   strategyB] eq_refl eq_refl)).
Defined.

(** ** The number of calls *)

Lemma emptyVaultLoop_calls oracle strategies debtRatioAPR :
  (length (filter isOracleCall (emptyVaultLoop oracle strategies debtRatioAPR).2)
   ≤ length strategies)%nat.
Proof.
  induction strategies as [|s rest IH]; [done|].
  simpl. rewrite bind_call_strategy.
  destruct (GetStrategyApr oracle (StrategyAddress s) 0) as [x|e].
  - simpl. lia.
  - rewrite bind_emit. cbn [fst snd].
    rewrite filter_cons_True by done. rewrite filter_cons_False by (by intros ?).
    simpl. lia.
Qed.

Lemma debtRatioAPRStage_calls oracle vault strategies :
  (length (filter isOracleCall (debtRatioAPRStage oracle vault strategies).2)
   ≤ length strategies)%nat.
Proof.
  unfold debtRatioAPRStage. case_bool_decide; [|simpl; lia].
  destruct (isNilOrZero (LastTotalAssets vault)).
  - case_bool_decide; [apply emptyVaultLoop_calls|simpl; lia].
  - rewrite bind_snd. simpl. rewrite app_nil_r.
    rewrite (proj1 (debtRatioLoop_effects _ _ _)). unfold queriesFor.
    rewrite length_fmap. apply length_filter.
Qed.

Lemma oracleAPRStage_calls oracle vault :
  ∃ rest, (oracleAPRStage oracle vault).2 =
            CallGetStrategyApr (VaultAddress vault) 0 :: rest ∧
          (length rest ≤ 1)%nat ∧ Forall (λ e, isOracleCall e = true) rest.
Proof.
  destruct (GetStrategyApr oracle (VaultAddress vault) 0) as [x|e] eqn:Hfirst.
  - destruct (decide (x = 0%Z)) as [->|Hx].
    + rewrite oracleAPRStage_fallback by (by right).
      exists [CallGetCurrentApr (VaultAddress vault)]. split_and!; [done|simpl; lia|].
      by repeat constructor.
    + rewrite (oracleAPRStage_ok_nonzero _ _ x) by done.
      exists []. split_and!; [done|simpl; lia|done].
  - rewrite oracleAPRStage_fallback by (left; by exists e).
    exists [CallGetCurrentApr (VaultAddress vault)]. split_and!; [done|simpl; lia|].
    by repeat constructor.
Qed.

Lemma logs_are_no_calls (log : list Effect) :
  (∀ eff, eff ∈ log → ∃ e, eff = LogsError e) → filter isOracleCall log = [].
Proof.
  induction log as [|eff log IH]; intros Hlog; [done|].
  destruct (Hlog eff) as [e ->]; [left|].
  rewrite filter_cons_False by (by intros ?).
  apply IH. intros eff' Hin. apply Hlog. by right.
Qed.

(** X14. One computation makes at most two oracle calls for the vault and
    at most one per strategy: no more than [2 + len(allStrategiesForVault)]
    calls in all. Whenever the oracle is there, the first of them is
    [GetStrategyApr] at the vault's own address. *)
Theorem oracle_call_budget (env : Env) (vault : TVault)
    (strategies : list TStrategy) :
  (length (filter isOracleCall (computeVaultV3ForwardAPY env vault strategies).2)
   ≤ 2 + length strategies)%nat ∧
  ((computeVaultV3ForwardAPY env vault strategies).1 ≠ emptyForwardAPY →
   ∃ rest, (computeVaultV3ForwardAPY env vault strategies).2 =
           CallGetStrategyApr (VaultAddress vault) 0 :: rest).
Proof.
  destruct (GetChain env (ChainID vault)) as [chain|] eqn:Hchain.
  2:{ edestruct computeVaultV3ForwardAPY_unavailable as (log & Heq & Hlog);
        [left; eauto|].
      rewrite Heq. split; [|done]. simpl.
      rewrite logs_are_no_calls by done. simpl. lia. }
  destruct (decide (APROracleContractAddress chain = zeroAddress)) as [Hz|Hz].
  { edestruct computeVaultV3ForwardAPY_unavailable as (log & Heq & Hlog);
      [right; eauto|].
    rewrite Heq. split; [|done]. simpl.
    rewrite logs_are_no_calls by done. simpl. lia. }
  destruct (NewYVaultsV3APROracleCaller env (APROracleContractAddress chain)
              (ChainID vault)) as [oracle|e] eqn:Hnew.
  2:{ edestruct computeVaultV3ForwardAPY_unavailable as (log & Heq & Hlog);
        [right; eauto|].
      rewrite Heq. split; [|done]. simpl.
      rewrite logs_are_no_calls by done. simpl. lia. }
  rewrite (computeVaultV3ForwardAPY_available _ _ _ chain oracle) by done. simpl.
  destruct (oracleAPRStage_calls oracle vault) as (rest & -> & Hlen & Hcalls).
  split.
  - rewrite filter_app, length_app, filter_cons_True by done. cbn [length].
    pose proof (debtRatioAPRStage_calls oracle vault strategies).
    pose proof (length_filter (λ e : Effect, Is_true (isOracleCall e)) rest). lia.
  - intros _. by eexists.
Qed.

(** ** Strategies that contribute nothing *)

(** X15. In a vault of kind Multiple with assets, a strategy whose debt
    ratio is null or zero, or whose query fails, changes nothing: the
    debt-ratio APR is the one of the other strategies alone. *)
Theorem strategy_that_does_not_qualify_is_skipped (oracle : OracleCaller)
    (vault : TVault) (before after : list TStrategy) (s : TStrategy) :
  Kind vault = VaultKindMultiple →
  isNilOrZero (LastTotalAssets vault) = false →
  isNilOrZero (LastDebtRatio s) = true ∨ queryFails oracle s →
  (debtRatioAPRStage oracle vault (before ++ s :: after)).1 =
  (debtRatioAPRStage oracle vault (before ++ after)).1.
Proof.
  intros Hkind Hassets Hs.
  rewrite !debtRatioAPRStage_with_assets by done.
  rewrite !filter_app, filter_cons_False; [done|].
  intros (d & x & Hd & Hz & Hcall)%qualifies_true.
  destruct Hs as [Hs|[e He]]; [|congruence].
  rewrite Hd in Hs. simpl in Hs. by apply bool_decide_eq_true in Hs.
Qed.

Lemma strategy_that_does_not_qualify_is_skipped_witness :
  (debtRatioAPRStage scenarioOracle
     (vaultOn 1 VaultKindMultiple (Some 1000%Z) true)
     ([strategyA] ++
      {| StrategyAddress := 9; LastDebtRatio := Some 5000%Z;
         LastPerformanceFee := 0 |} :: [strategyB])).1 =
  (debtRatioAPRStage scenarioOracle
     (vaultOn 1 VaultKindMultiple (Some 1000%Z) true)
     ([strategyA] ++ [strategyB])).1.
Proof.
  apply (strategy_that_does_not_qualify_is_skipped scenarioOracle
           (vaultOn 1 VaultKindMultiple (Some 1000%Z) true)
           [strategyA] [strategyB]
           {| StrategyAddress := 9; LastDebtRatio := Some 5000%Z;
              LastPerformanceFee := 0 |}).
  - reflexivity.
  - reflexivity.
  - right. by exists "execution reverted".
Defined.

(** ** A bound on the debt-ratio APR *)

Lemma Qc_of_Z_nonneg (z : Z) : (0 ≤ z)%Z → 0 ≤ Qc_of_Z z.
Proof. intros Hz. apply Z2Qc_inj_le in Hz. by rewrite Z2Qc_inj_0 in Hz. Qed.

Lemma Qc_ratio_nonneg (z : Z) : (0 ≤ z)%Z → 0 ≤ Qc_of_Z z / Qc_of_Z 10000.
Proof.
  intros Hz. unfold Qcdiv. apply Qcmult_nonneg_nonneg; [by apply Qc_of_Z_nonneg|].
  apply Qclt_le_weak, Qcinv_pos, Qc_of_Z_pos. lia.
Qed.

Lemma Qc_one_minus_ratio (z : Z) :
  1 - Qc_of_Z z / Qc_of_Z 10000 = Qc_of_Z (10000 - z) / Qc_of_Z 10000.
Proof.
  rewrite Z2Qc_inj_sub. field. apply Qc_of_Z_ne_0. lia.
Qed.

Lemma weightedStrategyAPR_bounds oracle s bound debtRatio expected :
  LastDebtRatio s = Some debtRatio →
  GetStrategyApr oracle (StrategyAddress s) 0 = Ok expected →
  (0 ≤ debtRatio)%Z → (0 ≤ LastPerformanceFee s ≤ 10000)%Z →
  0 ≤ ToNormalizedAmount expected 18 → ToNormalizedAmount expected 18 ≤ bound →
  0 ≤ weightedStrategyAPR oracle s ∧
  weightedStrategyAPR oracle s ≤ bound * (Qc_of_Z debtRatio / Qc_of_Z 10000).
Proof.
  intros Hd Hcall Hdr [Hfee0 Hfee1] Hapr0 Hapr1.
  unfold weightedStrategyAPR. rewrite Hcall, Hd.
  change (Qc_of_Z expected / Qc_of_Z (10 ^ 18)) with (ToNormalizedAmount expected 18).
  set (A := ToNormalizedAmount expected 18) in *.
  set (D := Qc_of_Z debtRatio / Qc_of_Z 10000).
  assert (HD : 0 ≤ D) by (by apply Qc_ratio_nonneg).
  assert (HF : 0 ≤ 1 - Qc_of_Z (LastPerformanceFee s) / Qc_of_Z 10000).
  { rewrite Qc_one_minus_ratio. apply Qc_ratio_nonneg. lia. }
  assert (HG : 0 ≤ Qc_of_Z (LastPerformanceFee s) / Qc_of_Z 10000)
    by (by apply Qc_ratio_nonneg).
  set (G := Qc_of_Z (LastPerformanceFee s) / Qc_of_Z 10000) in *.
  split.
  - apply Qcmult_nonneg_nonneg; [apply Qcmult_nonneg_nonneg|]; done.
  - apply Qcle_minus_iff.
    replace (bound * D + - (A * D * (1 - G)))
      with (D * ((bound + - A) + A * G)) by ring.
    apply Qcmult_nonneg_nonneg; [done|].
    apply Qcplus_nonneg_nonneg; [by apply (proj1 (Qcle_minus_iff A bound))|].
    by apply Qcmult_nonneg_nonneg.
Qed.

Lemma weighted_sum_bounds oracle (l : list TStrategy) bound :
  (∀ s debtRatio expected,
     s ∈ l → LastDebtRatio s = Some debtRatio →
     GetStrategyApr oracle (StrategyAddress s) 0 = Ok expected →
     (0 ≤ debtRatio)%Z ∧ (0 ≤ LastPerformanceFee s ≤ 10000)%Z ∧
     0 ≤ ToNormalizedAmount expected 18 ∧ ToNormalizedAmount expected 18 ≤ bound) →
  (0 ≤ totalDebtRatio oracle l)%Z ∧
  0 ≤ Qcsum (weightedStrategyAPR oracle <$> filter (λ s, qualifies oracle s = true) l) ∧
  Qcsum (weightedStrategyAPR oracle <$> filter (λ s, qualifies oracle s = true) l)
    ≤ bound * (Qc_of_Z (totalDebtRatio oracle l) / Qc_of_Z 10000).
Proof.
  unfold totalDebtRatio.
  induction l as [|s l IH]; intros Hall.
  - simpl. split; [done|]. split; [done|].
    rewrite Z2Qc_inj_0. unfold Qcdiv. by rewrite Qcmult_0_l, Qcmult_0_r.
  - destruct IH as (IH0 & IH1 & IH2).
    { intros s' d x Hin. apply Hall. by right. }
    rewrite filter_cons.
    destruct (decide (qualifies oracle s = true)) as [Hq|Hq]; [|done].
    apply qualifies_true in Hq as (d & x & Hd & Hz & Hcall).
    destruct (Hall s d x) as (Hdr & Hfee & Hapr0 & Hapr1); [left|done..|].
    destruct (weightedStrategyAPR_bounds oracle s bound d x) as [Hw0 Hw1];
      [done..|].
    set (T := foldr Z.add 0%Z ((λ s0, default 0%Z (LastDebtRatio s0)) <$>
                 filter (λ s0, qualifies oracle s0 = true) l)) in *.
    set (S := Qcsum (weightedStrategyAPR oracle <$>
                 filter (λ s0, qualifies oracle s0 = true) l)) in *.
    rewrite !fmap_cons.
    change (foldr Z.add 0%Z (default 0%Z (LastDebtRatio s) :: _))
      with (default 0%Z (LastDebtRatio s) + T)%Z.
    change (Qcsum (weightedStrategyAPR oracle s :: _))
      with (weightedStrategyAPR oracle s + S).
    rewrite Hd. change (default 0%Z (Some d)) with d.
    split; [lia|]. split.
    + by apply Qcplus_nonneg_nonneg.
    + rewrite Z2Qc_inj_add.
      replace (bound * ((Qc_of_Z d + Qc_of_Z T) / Qc_of_Z 10000))
        with (bound * (Qc_of_Z d / Qc_of_Z 10000) +
              bound * (Qc_of_Z T / Qc_of_Z 10000)).
      * by apply Qcplus_le_compat.
      * field. apply Qc_of_Z_ne_0. lia.
Qed.

(** X16. The debt-ratio APR is a discounted weighted average. In a vault of
    kind Multiple with assets, when the strategies that contribute have
    debt ratios that are not negative and sum to at most 10000, performance
    fees between 0 and 10000, and normalised APRs between 0 and some bound,
    the debt-ratio APR lies between 0 and 0.9 times that bound. *)
Theorem debt_ratio_apr_is_bounded (oracle : OracleCaller) (vault : TVault)
    (strategies : list TStrategy) (bound : Qc) :
  Kind vault = VaultKindMultiple →
  isNilOrZero (LastTotalAssets vault) = false →
  (∀ s debtRatio expected,
     s ∈ strategies → LastDebtRatio s = Some debtRatio →
     GetStrategyApr oracle (StrategyAddress s) 0 = Ok expected →
     (0 ≤ debtRatio)%Z ∧ (0 ≤ LastPerformanceFee s ≤ 10000)%Z ∧
     0 ≤ ToNormalizedAmount expected 18 ∧ ToNormalizedAmount expected 18 ≤ bound) →
  0 ≤ bound →
  (totalDebtRatio oracle strategies ≤ 10000)%Z →
  0 ≤ (debtRatioAPRStage oracle vault strategies).1 ∧
  (debtRatioAPRStage oracle vault strategies).1 ≤ Qc_of_Z 9 / Qc_of_Z 10 * bound.
Proof.
  intros Hkind Hassets Hall Hbound Htotal.
  rewrite debtRatioAPRStage_with_assets by done.
  destruct (weighted_sum_bounds oracle strategies bound Hall) as (HT & Hs0 & Hs1).
  assert (H9 : 0 ≤ Qc_of_Z 9 / Qc_of_Z 10).
  { unfold Qcdiv. apply Qcmult_nonneg_nonneg; [by apply Qc_of_Z_nonneg|].
    apply Qclt_le_weak, Qcinv_pos, Qc_of_Z_pos. lia. }
  split; [by apply Qcmult_nonneg_nonneg|].
  apply Qcmult_le_mono_nonneg_l; [done|].
  eapply Qcle_trans; [exact Hs1|].
  apply Qcle_minus_iff.
  replace (bound + - (bound * (Qc_of_Z (totalDebtRatio oracle strategies) /
                               Qc_of_Z 10000)))
    with (bound * (1 - Qc_of_Z (totalDebtRatio oracle strategies) / Qc_of_Z 10000))
    by ring.
  apply Qcmult_nonneg_nonneg; [done|].
  rewrite Qc_one_minus_ratio. apply Qc_ratio_nonneg. lia.
Qed.

Lemma debt_ratio_apr_is_bounded_witness :
  (debtRatioAPRStage scenarioOracle
     (vaultOn 1 VaultKindMultiple (Some 1000%Z) true) [strategyA; strategyB]).1
  ≤ Qc_of_Z 9 / Qc_of_Z 10 * ToNormalizedAmount (10 ^ 17) 18.
Proof.
  refine (proj2 (debt_ratio_apr_is_bounded scenarioOracle
            (vaultOn 1 VaultKindMultiple (Some 1000%Z) true)
            [strategyA; strategyB] (ToNormalizedAmount (10 ^ 17) 18) _ _ _ _ _)).
  - reflexivity.
  - reflexivity.
  - intros s d x Hs Hd Hx.
    apply elem_of_cons in Hs as [->|Hs];
      [|apply list_elem_of_singleton in Hs as ->];
      injection Hd as <-; injection Hx as <-; by vm_compute.
  - by vm_compute.
  - by vm_compute.
Defined.

End APRExtra.

(** * Properties of the Telegram notifications *)
Module TelegramProps.
Import Telegram.

Ltac elem_cases H :=
  repeat (apply elem_of_cons in H as [H|H]);
  try (by apply elem_of_nil in H); try discriminate H.

(** ** triggerTgMessage *)

Lemma triggerTgMessage_no_exit env outside message code :
  OsExit code ∉ triggerTgMessage env outside message.
Proof.
  unfold triggerTgMessage. intros Hin.
  repeat case_match; elem_cases Hin.
Qed.

(** X17. A message goes out only with the whole configuration in place:
    whatever is sent is the given text, sent to the chat [TELEGRAM_CHAT]
    spells as an [int64], by the bot of [TELEGRAM_BOT], after that bot was
    built. At most one message is sent, never an exit; and when none is
    sent exactly one error is logged. *)
Theorem message_needs_the_whole_configuration (env : gmap string string)
    (outside : Outside) (message : string) :
  (∀ token chatID text,
     BotSend token chatID text ∈ triggerTgMessage env outside message →
     env !! "TELEGRAM_BOT" = Some token ∧
     (∃ chat, env !! "TELEGRAM_CHAT" = Some chat ∧ ParseInt chat = Some chatID) ∧
     NewBotAPI outside token = None ∧ text = message) ∧
  (length (filter isSend (triggerTgMessage env outside message)) ≤ 1)%nat ∧
  (∀ code, OsExit code ∉ triggerTgMessage env outside message) ∧
  (filter isSend (triggerTgMessage env outside message) = [] →
   length (filter isLog (triggerTgMessage env outside message)) = 1%nat).
Proof.
  unfold triggerTgMessage.
  destruct (env !! "TELEGRAM_BOT") as [token|] eqn:Hbot;
    [|by split_and!; [intros ??? Hin; elem_cases Hin|simpl; lia
                     |intros ? Hin; elem_cases Hin|]].
  destruct (env !! "TELEGRAM_CHAT") as [chat|] eqn:Hchat;
    [|by split_and!; [intros ??? Hin; elem_cases Hin|simpl; lia
                     |intros ? Hin; elem_cases Hin|]].
  destruct (ParseInt chat) as [chatID|] eqn:Hparse;
    [|by split_and!; [intros ??? Hin; elem_cases Hin|simpl; lia
                     |intros ? Hin; elem_cases Hin|]].
  destruct (NewBotAPI outside token) as [err|] eqn:Hnew;
    [by split_and!; [intros ??? Hin; elem_cases Hin|simpl; lia
                    |intros ? Hin; elem_cases Hin|]|].
  destruct (Send outside token chatID message) as [err|];
    (split_and!;
     [intros t c x Hin; elem_cases Hin; injection Hin as <- <- <-;
      split_and!; [done|by exists chat|done..]
     |simpl; lia
     |intros ? Hin; elem_cases Hin
     |done]).
Qed.

(** ** listenToSignals *)

Section Loop.
Context (env : gmap string string) (outside : Outside) (token : string)
  (whitelist : list string).

Lemma handleUpdates_cons update rest :
  ∃ outcome effects,
    handleUpdates env outside token whitelist [update] = (outcome, effects) ∧
    handleUpdates env outside token whitelist (update :: rest) =
    match outcome with
    | Listening =>
      ((handleUpdates env outside token whitelist rest).1,
       effects ++ (handleUpdates env outside token whitelist rest).2)
    | _ => (outcome, effects)
    end.
Proof.
  simpl. destruct (handleUpdates env outside token whitelist rest) as [o t].
  destruct (UpdateMessage update) as [message|]; [|by eexists _, _].
  destruct (IsCommand message); simpl; [|by eexists _, _].
  destruct (From message) as [from|]; [|by eexists _, _].
  destruct (Contains outside whitelist _); simpl.
  - repeat case_bool_decide; by eexists _, _.
  - by eexists _, _.
Qed.

(** X18. The loop reads the updates in order and stops for good at the
    first that ends it: handling one batch after another is handling their
    concatenation while the function is still listening, and once it has
    exited or panicked no later update has any effect. *)
Theorem updates_are_handled_until_the_end (before after : list Update) :
  handleUpdates env outside token whitelist (before ++ after) =
  match (handleUpdates env outside token whitelist before).1 with
  | Listening =>
    ((handleUpdates env outside token whitelist after).1,
     (handleUpdates env outside token whitelist before).2 ++
     (handleUpdates env outside token whitelist after).2)
  | _ => handleUpdates env outside token whitelist before
  end.
Proof.
  induction before as [|update before IH].
  - simpl. by destruct (handleUpdates env outside token whitelist after).
  - change ((update :: before) ++ after) with (update :: (before ++ after)).
    destruct (handleUpdates_cons update (before ++ after)) as (o & t & Hone & ->).
    destruct (handleUpdates_cons update before) as (o' & t' & Hone' & ->).
    rewrite Hone in Hone'. injection Hone' as <- <-.
    destruct o; [|done..].
    rewrite IH.
    destruct (handleUpdates env outside token whitelist before) as [[] tb];
      simpl; [|done..].
    by rewrite app_assoc.
Qed.

Lemma handleUpdates_exit updates code :
  OsExit code ∈ (handleUpdates env outside token whitelist updates).2 →
  code = 1%Z ∧
  (handleUpdates env outside token whitelist updates).1 = Exited 1 ∧
  ∃ update, update ∈ updates ∧ admitted outside whitelist update "restart".
Proof.
  induction updates as [|update rest IH]; [by intros ?%elem_of_nil|].
  assert (Hrest : OsExit code ∈ (handleUpdates env outside token whitelist rest).2 →
            code = 1%Z ∧
            (handleUpdates env outside token whitelist rest).1 = Exited 1 ∧
            ∃ update', update' ∈ update :: rest ∧
                       admitted outside whitelist update' "restart").
  { intros Hin. destruct (IH Hin) as (? & ? & update' & ? & ?).
    split_and!; [done..|]. exists update'. split; [by right|done]. }
  simpl.
  destruct (UpdateMessage update) as [message|] eqn:Hmessage; [|done].
  destruct (IsCommand message) eqn:Hcommand; simpl; [|done].
  destruct (From message) as [from|] eqn:Hfrom; [|by intros ?%elem_of_nil].
  destruct (Contains outside whitelist _) eqn:Hadmitted; simpl.
  - case_bool_decide as Hhelp.
    { simpl. intros [[=]|Hin]%elem_of_cons. by apply Hrest. }
    case_bool_decide as Hrestart.
    + simpl. intros [Hin|Hin]%elem_of_app.
      * by apply triggerTgMessage_no_exit in Hin.
      * apply list_elem_of_singleton in Hin as [= ->].
        split_and!; [done..|]. exists update. split; [left|].
        by exists message, from.
    + simpl. intros [[=]|Hin]%elem_of_cons. by apply Hrest.
  - intros [[=]|[[=]|Hin]%elem_of_cons]%elem_of_cons. by apply Hrest.
Qed.

Lemma handleUpdates_replies updates t chatID text :
  BotSend t chatID text ∈ (handleUpdates env outside token whitelist updates).2 →
  (∃ user, BotSend t chatID text ∈
             triggerTgMessage env outside
               ("🔴 - " +:+ user +:+ " asked for a restart") ∧
           ∃ update, update ∈ updates ∧
                     admitted outside whitelist update "restart") ∨
  (t = token ∧
   ∃ update message,
     update ∈ updates ∧ UpdateMessage update = Some message ∧
     IsCommand message = true ∧ ChatID message = chatID ∧
     ((text = "You are not authorized to use this bot." ∧
       ∀ command, ¬ admitted outside whitelist update command) ∨
      (text = "I understand /restart." ∧
       admitted outside whitelist update "help") ∨
      (text = "I don't know that command" ∧
       Command message ≠ "help" ∧ Command message ≠ "restart" ∧
       admitted outside whitelist update (Command message)))).
Proof.
  induction updates as [|update rest IH]; [by intros ?%elem_of_nil|].
  assert (Hrest :
    BotSend t chatID text ∈ (handleUpdates env outside token whitelist rest).2 →
    (∃ user, BotSend t chatID text ∈
               triggerTgMessage env outside
                 ("🔴 - " +:+ user +:+ " asked for a restart") ∧
             ∃ update', update' ∈ update :: rest ∧
                        admitted outside whitelist update' "restart") ∨
    (t = token ∧
     ∃ update' message,
       update' ∈ update :: rest ∧ UpdateMessage update' = Some message ∧
       IsCommand message = true ∧ ChatID message = chatID ∧
       ((text = "You are not authorized to use this bot." ∧
         ∀ command, ¬ admitted outside whitelist update' command) ∨
        (text = "I understand /restart." ∧
         admitted outside whitelist update' "help") ∨
        (text = "I don't know that command" ∧
         Command message ≠ "help" ∧ Command message ≠ "restart" ∧
         admitted outside whitelist update' (Command message))))).
  { intros Hin. destruct (IH Hin) as [(user & ? & update' & ? & ?)|
                                      (-> & update' & message & ? & ?)].
    - left. exists user. split; [done|]. exists update'. split; [by right|done].
    - right. split; [done|]. exists update', message. split; [by right|done]. }
  simpl.
  destruct (UpdateMessage update) as [message|] eqn:Hmessage; [|done].
  destruct (IsCommand message) eqn:Hcommand; simpl; [|done].
  destruct (From message) as [from|] eqn:Hfrom; [|by intros ?%elem_of_nil].
  destruct (Contains outside whitelist _) eqn:Hadmitted; simpl.
  - case_bool_decide as Hhelp.
    { simpl. intros [[= -> -> ->]|Hin]%elem_of_cons; [|by apply Hrest].
      right. split; [done|]. exists update, message.
      split_and!; [left|done..|]. right. left. split; [done|].
      by exists message, from. }
    case_bool_decide as Hrestart.
    + simpl. intros [Hin|Hin]%elem_of_app.
      * left. exists (UserName from). split; [done|].
        exists update. split; [left|]. by exists message, from.
      * by apply list_elem_of_singleton in Hin.
    + simpl. intros [[= -> -> ->]|Hin]%elem_of_cons; [|by apply Hrest].
      right. split; [done|]. exists update, message.
      split_and!; [left|done..|]. right. right. split_and!; [done..|].
      by exists message, from.
  - intros [[=]|[[= -> -> ->]|Hin]%elem_of_cons]%elem_of_cons; [|by apply Hrest].
    right. split; [done|]. exists update, message.
    split_and!; [left|done..|]. left. split; [done|].
    intros command (message' & from' & Hm & _ & Hf & _ & Hc).
    rewrite Hmessage in Hm. injection Hm as <-.
    rewrite Hfrom in Hf. injection Hf as <-. congruence.
Qed.

Lemma handleUpdates_panic updates :
  (handleUpdates env outside token whitelist updates).1 = Panicked →
  ∃ update message,
    update ∈ updates ∧ UpdateMessage update = Some message ∧
    IsCommand message = true ∧ From message = None.
Proof.
  induction updates as [|update rest IH]; [done|].
  assert (Hrest : (handleUpdates env outside token whitelist rest).1 = Panicked →
            ∃ update' message,
              update' ∈ update :: rest ∧ UpdateMessage update' = Some message ∧
              IsCommand message = true ∧ From message = None).
  { intros Hp. destruct (IH Hp) as (update' & message & ? & ?).
    exists update', message. split; [by right|done]. }
  simpl.
  destruct (UpdateMessage update) as [message|] eqn:Hmessage; [|done].
  destruct (IsCommand message) eqn:Hcommand; simpl; [|done].
  destruct (From message) as [from|] eqn:Hfrom.
  - destruct (Contains outside whitelist _); simpl; [|done].
    repeat case_bool_decide; done.
  - intros _. exists update, message. split; [left|done].
Qed.

End Loop.

(** X19. The process is ended only by the command [restart] of a user the
    whitelist admits: an [os.Exit] has code 1, is the outcome of the
    function, and comes with the bot token and the whitelist set, the bot
    built, and an update that is a [restart] command whose sender's
    lower-cased name [helpers.Contains] finds among the comma-separated
    names of [TELEGRAM_WHITELIST]. *)
Theorem restart_needs_an_admitted_user (env : gmap string string)
    (outside : Outside) (updates : list Update) (code : Z) :
  OsExit code ∈ (listenToSignals env outside updates).2 →
  code = 1%Z ∧
  (listenToSignals env outside updates).1 = Exited 1 ∧
  ∃ token whitelist update,
    env !! "TELEGRAM_BOT" = Some token ∧
    env !! "TELEGRAM_WHITELIST" = Some whitelist ∧
    NewBotAPI outside token = None ∧
    update ∈ updates ∧
    admitted outside (Events.Split whitelist ",") update "restart".
Proof.
  unfold listenToSignals.
  destruct (env !! "TELEGRAM_BOT") as [token|] eqn:Hbot;
    [|intros Hin; elem_cases Hin].
  destruct (env !! "TELEGRAM_WHITELIST") as [whitelist|] eqn:Hwhite;
    [|intros Hin; elem_cases Hin].
  destruct (NewBotAPI outside token) as [err|] eqn:Hnew;
    [intros Hin; elem_cases Hin|].
  simpl. intros [[=]|Hin]%elem_of_cons.
  destruct (handleUpdates_exit _ _ _ _ _ _ Hin) as (-> & Hout & update & ? & ?).
  split_and!; [done..|]. by exists token, whitelist, update.
Qed.

Lemma restart_needs_an_admitted_user_witness :
  ∃ token whitelist update,
    exampleEnv !! "TELEGRAM_BOT" = Some token ∧
    exampleEnv !! "TELEGRAM_WHITELIST" = Some whitelist ∧
    NewBotAPI exampleOutside token = None ∧
    update ∈ [commandFrom "mallory" 5 "restart"; commandFrom "bob" 7 "restart"] ∧
    admitted exampleOutside (Events.Split whitelist ",") update "restart".
Proof.
  refine (proj2 (proj2 (restart_needs_an_admitted_user exampleEnv exampleOutside
            [commandFrom "mallory" 5 "restart"; commandFrom "bob" 7 "restart"]
            1 _))).
  apply (bool_decide_unpack _). by vm_compute.
Defined.

(** X20. Whatever the listener sends is either the restart notice of
    [triggerTgMessage], after a [restart] of an admitted user, or a reply to
    a command, sent with the bot's token to the chat the command came from:
    the refusal to a user the whitelist does not admit, the help text to an
    admitted [help], the unknown-command text to any other command of an
    admitted user. Messages that are no commands are never answered. *)
Theorem replies_go_to_the_chat_of_a_command (env : gmap string string)
    (outside : Outside) (token : string) (whitelist : list string)
    (updates : list Update) (t : string) (chatID : Z) (text : string) :
  BotSend t chatID text ∈ (handleUpdates env outside token whitelist updates).2 →
  (∃ user, BotSend t chatID text ∈
             triggerTgMessage env outside
               ("🔴 - " +:+ user +:+ " asked for a restart") ∧
           ∃ update, update ∈ updates ∧
                     admitted outside whitelist update "restart") ∨
  (t = token ∧
   ∃ update message,
     update ∈ updates ∧ UpdateMessage update = Some message ∧
     IsCommand message = true ∧ ChatID message = chatID ∧
     ((text = "You are not authorized to use this bot." ∧
       ∀ command, ¬ admitted outside whitelist update command) ∨
      (text = "I understand /restart." ∧
       admitted outside whitelist update "help") ∨
      (text = "I don't know that command" ∧
       Command message ≠ "help" ∧ Command message ≠ "restart" ∧
       admitted outside whitelist update (Command message)))).
Proof. apply handleUpdates_replies. Qed.

Lemma replies_go_to_the_chat_of_a_command_witness :
  (∃ user, BotSend "123:abc" 5 "You are not authorized to use this bot." ∈
             triggerTgMessage exampleEnv exampleOutside
               ("🔴 - " +:+ user +:+ " asked for a restart") ∧
           ∃ update, update ∈ [commandFrom "mallory" 5 "restart"] ∧
                     admitted exampleOutside ["alice"; "bob"] update "restart") ∨
  ("123:abc" = "123:abc" ∧
   ∃ update message,
     update ∈ [commandFrom "mallory" 5 "restart"] ∧
     UpdateMessage update = Some message ∧
     IsCommand message = true ∧ ChatID message = 5%Z ∧
     (("You are not authorized to use this bot." =
       "You are not authorized to use this bot." ∧
       ∀ command, ¬ admitted exampleOutside ["alice"; "bob"] update command) ∨
      ("You are not authorized to use this bot." = "I understand /restart." ∧
       admitted exampleOutside ["alice"; "bob"] update "help") ∨
      ("You are not authorized to use this bot." = "I don't know that command" ∧
       Command message ≠ "help" ∧ Command message ≠ "restart" ∧
       admitted exampleOutside ["alice"; "bob"] update (Command message)))).
Proof.
  apply (replies_go_to_the_chat_of_a_command exampleEnv exampleOutside
           "123:abc" ["alice"; "bob"] [commandFrom "mallory" 5 "restart"]
           "123:abc" 5 "You are not authorized to use this bot.").
  apply (bool_decide_unpack _). by vm_compute.
Defined.

(** X21. The listener panics only on a command that has no sender: the nil
    [From] is read before the whitelist is looked at. *)
Theorem panic_needs_a_command_without_sender (env : gmap string string)
    (outside : Outside) (updates : list Update) :
  (listenToSignals env outside updates).1 = Panicked →
  ∃ update message,
    update ∈ updates ∧ UpdateMessage update = Some message ∧
    IsCommand message = true ∧ From message = None.
Proof.
  unfold listenToSignals.
  destruct (env !! "TELEGRAM_BOT") as [token|]; [|done].
  destruct (env !! "TELEGRAM_WHITELIST") as [whitelist|]; [|done].
  destruct (NewBotAPI outside token) as [err|]; [done|].
  simpl. apply handleUpdates_panic.
Qed.

Lemma panic_needs_a_command_without_sender_witness :
  ∃ update message,
    update ∈ [commandFrom "alice" 3 "help";
              {| UpdateMessage :=
                   Some {| From := None; ChatID := 4; IsCommand := true;
                           Command := "restart" |} |}] ∧
    UpdateMessage update = Some message ∧
    IsCommand message = true ∧ From message = None.
Proof.
  apply (panic_needs_a_command_without_sender exampleEnv exampleOutside).
  by vm_compute.
Defined.

End TelegramProps.
